(** * Certificate-Validation: the feature extractors and the tier composer

    A shallow embedding of [testing.py] (the part after OCR / text
    extraction) and the properties of its specification.

    - Python [float]s are IEEE-754 binary64 numbers.  A finite double is
      an integer number of units of 2^-1074 (the least positive double);
      every arithmetic operation returns the exact result rounded to
      nearest, ties to even, and overflows to an infinity, as the
      standard prescribes.  The sign of a zero is not tracked: no
      operation of the program observes it.
    - Python [int]s are unbounded ([Z]); an [int] meets a [float] through
      the conversion [float_of_int], which raises [OverflowError] beyond
      the range of doubles.  A computation that may raise is an [option].
    - Text is a [string] of code points up to U+00FF (Latin-1): the
      character of code [c] is the code point [c].  On this alphabet the
      classes [\w], [\s] and [\d] of [re], [str.lower], [str.strip] and
      the case folding of [re.IGNORECASE] are those of Unicode, as
      Python has them on [str].  The tables, keywords and patterns
      written in the program are ASCII. *)

From Stdlib Require Import ZArith Lia Bool List String Ascii Floats.
From stdpp Require Import base option list gmap strings.

Local Open Scope Z_scope.

(* ===================================================================== *)
(** * Part I: the model                                                    *)
(* ===================================================================== *)

(** ** Binary64 arithmetic *)

(** Units in [1.0]: one unit is 2^-1074. *)
Definition U : Z := 2 ^ 1074.

(** 2^1024 in units: the least magnitude that rounds to an infinity. *)
Definition HUGE : Z := 2 ^ 2098.

Inductive pyfloat : Type :=
| Fin (u : Z)
| PInf
| NInf
| NaN.

(** The integer nearest to [x / y] ([0 < y]), ties to the even one. *)
Definition round_half_even (x y : Z) : Z :=
  let q := x / y in
  match 2 * (x mod y) ?= y with
  | Lt => q
  | Gt => q + 1
  | Eq => if Z.even q then q else q + 1
  end.

(** The binary exponent of the last place of a double of magnitude
    [x / y] units: 53 significant bits, none below one unit. *)
Definition ulp_exp (x y : Z) : Z := Z.max 0 (Z.log2 (x / y) + 1 - 53).

(** [x / y] units ([0 <= x], [0 < y]) rounded to 53 significant bits. *)
Definition round_pos (x y : Z) : Z :=
  let e := ulp_exp x y in round_half_even x (y * 2 ^ e) * 2 ^ e.

(** Rounding is symmetric around zero. *)
Definition signed_round (x y : Z) : Z :=
  if 0 <=? x then round_pos x y else - round_pos (- x) y.

(** A rounded magnitude of 2^1024 or more is an infinity. *)
Definition to_double (m : Z) : pyfloat :=
  if HUGE <=? m then PInf else if m <=? - HUGE then NInf else Fin m.

(** Round to nearest even: the double nearest to [x / y] units ([0 < y]). *)
Definition RN (x y : Z) : pyfloat := to_double (signed_round x y).

(** The double a decimal literal [n / d] denotes ([0.35] is [lit 35 100]). *)
Definition lit (n d : Z) : pyfloat := RN (n * U) d.

Definition fadd (x y : pyfloat) : pyfloat :=
  match x, y with
  | NaN, _ | _, NaN => NaN
  | PInf, NInf | NInf, PInf => NaN
  | PInf, _ | _, PInf => PInf
  | NInf, _ | _, NInf => NInf
  | Fin a, Fin b => RN (a + b) 1
  end.

(** An infinity of sign [s] ([true] is negative) times [y]. *)
Definition fmul_inf (s : bool) (y : pyfloat) : pyfloat :=
  match y with
  | NaN => NaN
  | PInf => if s then NInf else PInf
  | NInf => if s then PInf else NInf
  | Fin b => if b =? 0 then NaN else if Bool.eqb s (b <? 0) then PInf else NInf
  end.

Definition fmul (x y : pyfloat) : pyfloat :=
  match x, y with
  | NaN, _ | _, NaN => NaN
  | Fin a, Fin b => RN (a * b) U
  | PInf, _ => fmul_inf false y
  | NInf, _ => fmul_inf true y
  | _, PInf => fmul_inf false x
  | _, NInf => fmul_inf true x
  end.

(** [x / y]; [None] is Python's [ZeroDivisionError]. *)
Definition fdiv (x y : pyfloat) : option pyfloat :=
  match y with
  | NaN => Some NaN
  | Fin b =>
      if b =? 0 then None
      else Some match x with
                | NaN => NaN
                | PInf => if 0 <? b then PInf else NInf
                | NInf => if 0 <? b then NInf else PInf
                | Fin a => if 0 <? b then RN (a * U) b else RN (- (a * U)) (- b)
                end
  | PInf | NInf => Some match x with Fin _ => Fin 0 | _ => NaN end
  end.

(** [x < y] and [x <= y]: false as soon as a NaN is compared. *)
Definition flt (x y : pyfloat) : bool :=
  match x, y with
  | NaN, _ | _, NaN => false
  | Fin a, Fin b => a <? b
  | _, NInf => false
  | NInf, _ => true
  | PInf, _ => false
  | Fin _, PInf => true
  end.

Definition fle (x y : pyfloat) : bool :=
  match x, y with
  | NaN, _ | _, NaN => false
  | Fin a, Fin b => a <=? b
  | NInf, _ => true
  | _, PInf => true
  | _, NInf => false
  | PInf, _ => false
  end.

(** ** Python numbers: [int] or [float] *)

Inductive pynum : Type :=
| PyInt (z : Z)
| PyFloat (f : pyfloat).

(** [float(z)] for an [int]: [OverflowError] when no double is near. *)
Definition float_of_int (z : Z) : option pyfloat :=
  match RN (z * U) 1 with
  | Fin m => Some (Fin m)
  | _ => None
  end.

(** [float(x)]. *)
Definition py_float (x : pynum) : option pynum :=
  match x with
  | PyFloat f => Some (PyFloat f)
  | PyInt z => PyFloat <$> float_of_int z
  end.

(** The exact value of a number, for comparisons: Python compares an
    [int] with a [float] without rounding either. *)
Definition exact (x : pynum) : pyfloat :=
  match x with
  | PyInt z => Fin (z * U)
  | PyFloat f => f
  end.

Definition py_lt (x y : pynum) : bool := flt (exact x) (exact y).
Definition py_le (x y : pynum) : bool := fle (exact x) (exact y).
Definition py_gt (x y : pynum) : bool := py_lt y x.
Definition py_ge (x y : pynum) : bool := py_le y x.

(** The operand of a mixed operation as a [float]. *)
Definition as_float (x : pynum) : option pyfloat :=
  match x with
  | PyFloat f => Some f
  | PyInt z => float_of_int z
  end.

(** [x + y], [x * y] and [x / y] on an [option]: an operand that raised
    makes the operation raise. *)
Definition py_add (x y : option pynum) : option pynum :=
  a ← x; b ← y;
  match a, b with
  | PyInt m, PyInt n => Some (PyInt (m + n))
  | _, _ => f ← as_float a; g ← as_float b; Some (PyFloat (fadd f g))
  end.

Definition py_mul (x y : option pynum) : option pynum :=
  a ← x; b ← y;
  match a, b with
  | PyInt m, PyInt n => Some (PyInt (m * n))
  | _, _ => f ← as_float a; g ← as_float b; Some (PyFloat (fmul f g))
  end.

(** True division with a [float] operand (the program divides a
    [float] by the literal [200.0]). *)
Definition py_div (x y : option pynum) : option pynum :=
  a ← x; b ← y; f ← as_float a; g ← as_float b; PyFloat <$> fdiv f g.

(** [min(a, b)] and [max(a, b)]: the first argument unless the second
    is strictly smaller (larger). *)
Definition py_min (a b : pynum) : pynum := if py_lt b a then b else a.
Definition py_max (a b : pynum) : pynum := if py_gt b a then b else a.

(** [round(x, 2)]: the decimal with two places nearest to the exact
    value of [x] (ties to even), as a double; an [int], an infinity
    and a NaN are returned as they are. *)
Definition py_round2 (x : pynum) : pynum :=
  match x with
  | PyInt z => PyInt z
  | PyFloat (Fin a) => PyFloat (RN (round_half_even (100 * a) U * U) 100)
  | PyFloat f => PyFloat f
  end.

Declare Scope py_scope.
Delimit Scope py_scope with py.
Notation "x + y" := (py_add x y) : py_scope.
Notation "x * y" := (py_mul x y) : py_scope.
Notation "x / y" := (py_div x y) : py_scope.

(** Literals. *)
Definition int (z : Z) : option pynum := Some (PyInt z).
Definition flo (n d : Z) : option pynum := Some (PyFloat (lit n d)).

(** ** The feature record *)

Record tag_flags : Type := TagFlags {
  tag_project : bool;
  tag_assessment : bool;
  tag_prerequisite : bool
}.

(** The [features] mapping: a key that is absent is [None]. The
    booleans of [has_project] and [prerequisites_required] are the
    [int]s 0 and 1 that [analyze_certificate] stores. *)
Record Features : Type := MkFeatures {
  issuer : option string;
  issuer_rep : option pynum;
  duration_hours : option pynum;
  has_project : option Z;
  project_complexity : option pynum;
  assessment_rigor : option pynum;
  prerequisites_required : option Z;
  industry_recognition : option pynum;
  verified : option bool;
  verification_reason : option string;
  tags : option tag_flags
}.

Record ScoreResult : Type := MkScore {
  score : pynum;
  tier : Z
}.

Definition IssuerDb : Type := list (string * Z).

Definition ISSUER_DB : IssuerDb :=
  [ ("udemy", 20); ("coursera", 30); ("edx", 40); ("aws", 80); ("google", 75);
    ("microsoft", 75); ("linkedin", 25); ("kaggle", 50); ("pluralsight", 35);
    ("datacamp", 30); ("simplilearn", 25); ("harvard", 95); ("stanford", 95);
    ("mit", 95); ("iit", 95); ("oxford", 90); ("cambridge", 90); ("yale", 90);
    ("princeton", 90); ("columbia", 90); ("caltech", 95); ("cornell", 90);
    ("ucla", 85); ("nyu", 85); ("geeksforgeeks", 20); ("codechef", 20);
    ("hackerrank", 20); ("leetcode", 20); ("freecodecamp", 15);
    ("sololearn", 15); ("nptel", 40); ("greatlearning", 25); ("upgrad", 25);
    ("coursera-google", 75); ("coursera-aws", 80); ("aws-developer", 80);
    ("google-ai", 75); ("deepmind", 85); ("ibm", 70); ("oracle", 65);
    ("sap", 60); ("accenture", 50); ("tcs", 50); ("infosys", 50);
    ("wipro", 50); ("capgemini", 50); ("nasa", 95); ("spacex", 95);
    ("tesla", 90); ("facebook", 75); ("meta", 75); ("twitter", 70);
    ("apple", 80); ("geeksforgeeks-cs", 20) ]%string.

(** ** Tier calculation *)

(** The weight table of [compute_certificate_tier]. *)
Definition weights : gmap string pynum :=
  list_to_map
    [ ("issuer_rep", PyFloat (lit 35 100)); ("assessment", PyFloat (lit 25 100));
      ("project", PyFloat (lit 20 100)); ("time", PyFloat (lit 10 100));
      ("industry", PyFloat (lit 10 100)); ("prereq", PyFloat (lit 0 10)) ]%string.

(** The clamped composite before rounding: the [score] variable of
    the program, on which the tier is decided. *)
Definition raw_score (features : Features) : option pynum :=
  let issuer_rep := Some (default (PyInt 25) (issuer_rep features)) in
  time_h ← py_float (default (PyInt 0) (duration_hours features));
  assessment ← py_float (default (PyInt 20) (assessment_rigor features));
  let proj_req := default 0 (has_project features) in
  proj_comp ← py_float (default (PyInt 0) (project_complexity features));
  let prereq := default 0 (prerequisites_required features) in
  industry ← py_float (default (PyInt 20) (industry_recognition features));
  scaled ← (Some time_h / flo 200 1 * int 100)%py;
  let time_score := py_max (PyInt 0) (py_min (PyInt 100) scaled) in
  let verify_bonus := if default false (verified features) then PyInt 10 else PyInt 0 in
  let project_score := if negb (proj_req =? 0) then proj_comp else PyInt 0 in
  composite ←
    (issuer_rep * (weights !! "issuer_rep"%string) +
     Some assessment * (weights !! "assessment"%string) +
     Some project_score * (weights !! "project"%string) +
     Some time_score * (weights !! "time"%string) +
     Some industry * (weights !! "industry"%string) +
     (int prereq * int 100) * (weights !! "prereq"%string))%py;
  composite ← (Some composite + Some verify_bonus)%py;
  Some (py_max (PyInt 0) (py_min (PyInt 100) composite)).

Definition tier_of (score : pynum) : Z :=
  if py_ge score (PyInt 80) then 1
  else if py_ge score (PyInt 60) then 2
  else if py_ge score (PyInt 40) then 3
  else 4.

Definition compute_certificate_tier
    (features : Features) (issuer_db : option IssuerDb) : option ScoreResult :=
  let issuer_db := default ISSUER_DB issuer_db in
  score ← raw_score features;
  let tier := tier_of score in
  Some {| score := py_round2 score; tier := tier |}.

(** ** Text *)

Local Open Scope string_scope.

Definition chars (s : string) : list ascii := list_ascii_of_string s.
Definition str (l : list ascii) : string := string_of_list_ascii l.

Definition code (c : ascii) : N := N_of_ascii c.

Definition in_range (lo hi c : ascii) : bool :=
  ((code lo <=? code c) && (code c <=? code hi))%N.

Definition is_upper (c : ascii) : bool := in_range "A" "Z" c.
Definition is_lower (c : ascii) : bool := in_range "a" "z" c.
Definition is_digit (c : ascii) : bool := in_range "0" "9" c.
Definition is_alnum (c : ascii) : bool := is_upper c || is_lower c || is_digit c.

Definition code_in (lo hi : N) (c : ascii) : bool :=
  ((lo <=? code c) && (code c <=? hi))%N.

(** The capital letters beyond ASCII, U+00C0 to U+00DE without the
    multiplication sign, and the small letters that have a capital in
    the alphabet, U+00E0 to U+00FE without the division sign. *)
Definition is_upper_latin1 (c : ascii) : bool := code_in 192 214 c || code_in 216 222 c.
Definition is_lower_latin1 (c : ascii) : bool := code_in 224 246 c || code_in 248 254 c.

(** The letters and numbers beyond ASCII ([str.isalnum]): the ordinal
    indicators, the micro sign, the superscripts 1, 2, 3, the fractions
    and the letters from U+00C0 on. *)
Definition is_alnum_latin1 (c : ascii) : bool :=
  code_in 170 170 c || code_in 178 179 c || code_in 181 181 c || code_in 185 186 c
  || code_in 188 190 c || code_in 192 214 c || code_in 216 246 c || code_in 248 255 c.

(** [\w]: letters, digits and the underscore. *)
Definition is_word (c : ascii) : bool :=
  is_alnum c || Ascii.eqb c "_" || is_alnum_latin1 c.

(** [\s] and [str.isspace]: TAB, LF, VT, FF, CR, FS, GS, RS, US, the
    space, NEL (U+0085) and the no-break space (U+00A0). *)
Definition is_space (c : ascii) : bool :=
  code_in 9 13 c || code_in 28 32 c || code_in 133 133 c || code_in 160 160 c.

(** [str.lower] on one character. *)
Definition lower_char (c : ascii) : ascii :=
  if is_upper c || is_upper_latin1 c then ascii_of_N (code c + 32) else c.

(** The capital of a character, where the alphabet has it: the capitals
    of the micro sign and of the y with diaeresis are beyond U+00FF, and
    the sharp s has none. *)
Definition upper_char (c : ascii) : ascii :=
  if is_lower c || is_lower_latin1 c then ascii_of_N (code c - 32) else c.

(** [s.lower()]. *)
Definition lower (s : string) : string := str (map lower_char (chars s)).

Fixpoint lstrip (l : list ascii) : list ascii :=
  match l with
  | c :: t => if is_space c then lstrip t else l
  | [] => []
  end.

(** [s.strip()]. *)
Definition strip (s : string) : string :=
  str (rev (lstrip (rev (lstrip (chars s))))).

Fixpoint starts_with (p l : list ascii) : bool :=
  match p, l with
  | [], _ => true
  | a :: p', c :: l' => Ascii.eqb a c && starts_with p' l'
  | _ :: _, [] => false
  end.

Fixpoint occurs_in (p l : list ascii) : bool :=
  starts_with p l || match l with
                     | [] => false
                     | _ :: l' => occurs_in p l'
                     end.

(** [needle in hay] on strings. *)
Definition contains (needle hay : string) : bool :=
  occurs_in (chars needle) (chars hay).

(** ** Regular expressions: the fragment of [re] the program uses *)

Inductive cset_item : Type :=
| CRange (lo hi : ascii)
| CSpace
| CDigit.

Inductive regex : Type :=
| RStr (s : string)
| RSet (negated : bool) (items : list cset_item)
| RSeq (r1 r2 : regex)
| RAlt (r1 r2 : regex)
| RRepeat (lo : nat) (hi : option nat) (r : regex)
| RGroup (n : nat) (r : regex)
| RWordB.

Declare Scope regex_scope.
Delimit Scope regex_scope with re.
Notation "r1 ⋅ r2" := (RSeq r1 r2) (at level 40, left associativity) : regex_scope.
Notation "r1 ∥ r2" := (RAlt r1 r2) (at level 50, left associativity) : regex_scope.
Definition ROpt (r : regex) : regex := RRepeat 0 (Some 1%nat) r.
Definition RStar (r : regex) : regex := RRepeat 0 None r.
Definition RPlus (r : regex) : regex := RRepeat 1 None r.

(** [re.IGNORECASE] is the flag [icase]. *)
Definition char_match (icase : bool) (p c : ascii) : bool :=
  if icase then Ascii.eqb (lower_char p) (lower_char c) else Ascii.eqb p c.

Definition item_match (icase : bool) (it : cset_item) (c : ascii) : bool :=
  match it with
  | CRange lo hi =>
      in_range lo hi c
      || (icase && (in_range lo hi (lower_char c) || in_range lo hi (upper_char c)))
  | CSpace => is_space c
  | CDigit => is_digit c
  end.

Definition set_match (icase negated : bool) (items : list cset_item) (c : ascii) : bool :=
  xorb negated (existsb (fun it => item_match icase it c) items).

(** The matcher's state: the text read so far (last character first),
    the text ahead, and the text of the groups closed so far. *)
Record mstate : Type := MState {
  ms_pre : list ascii;
  ms_rest : list ascii;
  ms_groups : list (nat * list ascii)
}.

Definition advance (s : mstate) (c : ascii) (rest : list ascii) : mstate :=
  MState (c :: ms_pre s) rest (ms_groups s).

Definition word_at (o : option ascii) : bool :=
  match o with
  | Some c => is_word c
  | None => false
  end.

(** [\b]: exactly one of the two neighbours is a word character. *)
Definition at_boundary (s : mstate) : bool :=
  xorb (word_at (head (ms_pre s))) (word_at (head (ms_rest s))).

Definition close_group (n : nat) (s s' : mstate) : mstate :=
  MState (ms_pre s') (ms_rest s')
         ((n, rev (take (length (ms_pre s') - length (ms_pre s)) (ms_pre s'))) :: ms_groups s').

Fixpoint match_str (icase : bool) (p : list ascii) (s : mstate) : option mstate :=
  match p with
  | [] => Some s
  | a :: p' =>
      match ms_rest s with
      | c :: rest => if char_match icase a c then match_str icase p' (advance s c rest) else None
      | [] => None
      end
  end.

(** A backtracking matcher takes the state and the continuation that
    matches what follows. *)
Definition matcher : Type := mstate -> (mstate -> option mstate) -> option mstate.

Definition or_else {A} (x y : option A) : option A :=
  match x with
  | Some a => Some a
  | None => y
  end.

(** Greedy repetition [r{lo,hi}]: one more iteration is tried before
    stopping.  [fuel] bounds the iterations by the length of the text. *)
Fixpoint rep (body : matcher) (lo : nat) (hi : option nat) (fuel : nat) : matcher :=
  fun s k =>
    let stop := match lo with O => k s | S _ => None end in
    match fuel, hi with
    | O, _ => stop
    | _, Some O => stop
    | S fuel', _ =>
        or_else (body s (fun s' => rep body (pred lo) (pred <$> hi) fuel' s' k)) stop
    end.

Fixpoint rmatch (icase : bool) (r : regex) : matcher :=
  fun s k =>
    match r with
    | RStr p => match_str icase (chars p) s ≫= k
    | RSet negated items =>
        match ms_rest s with
        | c :: rest => if set_match icase negated items c then k (advance s c rest) else None
        | [] => None
        end
    | RSeq r1 r2 => rmatch icase r1 s (fun s' => rmatch icase r2 s' k)
    | RAlt r1 r2 => or_else (rmatch icase r1 s k) (rmatch icase r2 s k)
    | RRepeat lo hi r' => rep (rmatch icase r') lo hi (S (length (ms_rest s))) s k
    | RGroup n r' => rmatch icase r' s (fun s' => k (close_group n s s'))
    | RWordB => if at_boundary s then k s else None
    end.

(** A match object: where the match starts, its text ([group(0)]) and
    the text of its groups. *)
Record Match : Type := MkMatch {
  m_start : nat;
  m_text : list ascii;
  m_groups : list (nat * list ascii)
}.

Fixpoint group_text (n : nat) (gs : list (nat * list ascii)) : option (list ascii) :=
  match gs with
  | [] => None
  | (i, w) :: gs' => if Nat.eqb i n then Some w else group_text n gs'
  end.

(** [m.group(n)]; [None] for a group that took no part in the match. *)
Definition group (m : Match) (n : nat) : option string :=
  match n with
  | O => Some (str (m_text m))
  | _ => str <$> group_text n (m_groups m)
  end.

(** [re.search]: the match at the leftmost position that has one. *)
Fixpoint search_from (icase : bool) (r : regex) (pre rest : list ascii) : option Match :=
  match rmatch icase r (MState pre rest []) Some with
  | Some s' =>
      Some (MkMatch (length pre) (take (length rest - length (ms_rest s')) rest) (ms_groups s'))
  | None =>
      match rest with
      | [] => None
      | c :: rest' => search_from icase r (c :: pre) rest'
      end
  end.

Definition re_search (r : regex) (text : string) (icase : bool) : option Match :=
  search_from icase r [] (chars text).

(** ** Configuration *)

Definition non_space : regex := RSet true [CSpace].
Definition space : regex := RSet false [CSpace].
Definition digit : regex := RSet false [CDigit].
Definition upper_or_digit : regex := RSet false [CRange "A" "Z"; CRange "0" "9"].

(** The pattern "(https?:\/\/[^\s]+|\b[A-Z0-9]{5,12}\b)". *)
Definition GENERIC_VERIFY_REGEX : regex :=
  RGroup 1 (RStr "http" ⋅ ROpt (RStr "s") ⋅ RStr "://" ⋅ RPlus non_space
            ∥ RWordB ⋅ RRepeat 5 (Some 12%nat) upper_or_digit ⋅ RWordB)%re.

(** The pattern of [TIME_REGEX]: group 1 is digits, an optional point
    and more digits; then blanks; then an optional [total] with blanks
    after it; then group 2, [hours|hrs|h|weeks|week|months|month]. *)
Definition TIME_REGEX : regex :=
  (RGroup 1 (RPlus digit ⋅ ROpt (RStr ".") ⋅ RStar digit)
   ⋅ RStar space
   ⋅ ROpt (RStr "total" ⋅ RStar space)
   ⋅ RGroup 2 (RStr "hours" ∥ RStr "hrs" ∥ RStr "h" ∥ RStr "weeks" ∥ RStr "week"
               ∥ RStr "months" ∥ RStr "month"))%re.

Definition ISSUER_ALIASES : list (string * string) :=
  [ ("bm developer skills network", "ibm");
    ("ibm skills", "ibm");
    ("oracle university", "oracle");
    ("geeksforgeeks", "geeksforgeeks");
    ("gfg", "geeksforgeeks");
    ("coursera google", "coursera-google");
    ("coursera aws", "coursera-aws") ].

Definition PROJECT_KEYWORDS : list string :=
  ["capstone"; "project"; "portfolio"; "hands-on"; "lab"; "practical"].
Definition ASSESSMENT_KEYWORDS : list string :=
  ["exam"; "proctored"; "invigilat"; "graded"; "assess"; "final exam"; "passing"].
Definition PREREQ_KEYWORDS : list string :=
  ["prerequisite"; "prereq"; "prior knowledge"; "experience required"; "requirement"].

(** ** Feature extraction *)

Definition find_verification_link (text : string) : option string :=
  match re_search GENERIC_VERIFY_REGEX text true with
  | Some m => strip <$> group m 0
  | None => None
  end.

(** [issuer_db or ISSUER_DB]: a table that is absent or empty gives way
    to the built-in one. *)
Definition db_or_default (issuer_db : option IssuerDb) : IssuerDb :=
  match issuer_db with
  | Some (entry :: rest) => entry :: rest
  | _ => ISSUER_DB
  end.

(** [issuer_db.get(name, 25)]. *)
Fixpoint db_get (issuer_db : IssuerDb) (name : string) (dflt : Z) : Z :=
  match issuer_db with
  | [] => dflt
  | (k, v) :: rest => if String.eqb k name then v else db_get rest name dflt
  end.

(** The loop over [ISSUER_ALIASES.items()]: the name of the first alias
    that occurs in the text. *)
Fixpoint first_alias (items : list (string * string)) (text : string) : option string :=
  match items with
  | [] => None
  | (alias, name) :: rest =>
      if contains alias text then Some name else first_alias rest text
  end.

(** [float(s)] for the strings group 1 of [TIME_REGEX] holds: digits,
    then possibly a point and digits. [None] is [ValueError]. *)
Fixpoint digits_value (acc : Z) (l : list ascii) : option Z :=
  match l with
  | [] => Some acc
  | c :: t =>
      if is_digit c then digits_value (acc * 10 + Z.of_N (code c - 48)) t else None
  end.

Fixpoint split_point (l : list ascii) : list ascii * option (list ascii) :=
  match l with
  | [] => ([], None)
  | c :: t =>
      if Ascii.eqb c "." then ([], Some t)
      else let '(ip, fp) := split_point t in (c :: ip, fp)
  end.

Definition float_of_str (s : string) : option pynum :=
  let '(ip, fp) := split_point (chars s) in
  match ip with
  | [] => None
  | _ =>
      let fp := default [] fp in
      n ← digits_value 0 (ip ++ fp);
      Some (PyFloat (RN (n * U) (10 ^ Z.of_nat (length fp))))
  end.

Definition extract_time_commitment (ocr_text : string) : option pynum :=
  match re_search TIME_REGEX ocr_text true with
  | None => int 0
  | Some m =>
      val ← group m 1 ≫= float_of_str;
      unit ← lower <$> group m 2;
      if contains "week" unit then (Some val * int 10)%py
      else if contains "month" unit then (Some val * int 40)%py
      else Some val
  end.

Definition detect_keywords (ocr_text : string) (keywords : list string) : bool :=
  let text := lower ocr_text in
  existsb (fun k => contains k text) keywords.

(** A string or [None] in a condition: true for a string that is not empty. *)
Definition truthy (o : option string) : bool :=
  match o with
  | Some (String _ _) => true
  | _ => false
  end.

Definition guess_verification_method
    (ocr_text : string) (verification_link : option string) : string :=
  let text := lower ocr_text in
  if contains "proct" text || contains "invigil" text then "proctored"
  else if contains "blockchain" text then "blockchain"
  else if truthy verification_link then
    if existsb (fun x => contains x (lower (default EmptyString verification_link)))
               ["verify"; "certificate"; "registry"; "credentials"]
    then "registry"
    else "simple_link"
  else "none".

(** [\b] + [re.escape(w)] + [\b]: the text [w] between two word boundaries. *)
Definition whole_word (w : string) : regex := (RWordB ⋅ RStr w ⋅ RWordB)%re.

Section Analysis.

(** [rapidfuzz.process.extractOne(query, choices, score_cutoff)]: the
    best choice with its similarity and index, or [None]. *)
Variable extractOne : string -> list string -> Z -> option (string * pynum * nat).

(** The skill vocabulary of [skills_db.json]. *)
Variable SKILL_TAGS : list string.

Definition fuzzy_lookup_issuer (ocr_text : string) (issuer_db : IssuerDb)
    : option string * Z :=
  let text := lower ocr_text in
  match first_alias ISSUER_ALIASES text with
  | Some name => (Some name, db_get issuer_db name 25)
  | None =>
      let best := extractOne text (map fst issuer_db) 30 in
      match best with
      | Some (choice, _, _) => (Some choice, db_get issuer_db choice 25)
      | None => (None, 25)
      end
  end.

(** The loop of [extract_skills]: the skills found, in vocabulary order. *)
Fixpoint found_skills (skills : list string) (lower_text : string) : list string :=
  match skills with
  | [] => []
  | skill :: rest =>
      match re_search (whole_word (lower skill)) lower_text false with
      | Some _ => skill :: found_skills rest lower_text
      | None => found_skills rest lower_text
      end
  end.

(** [list(set(...))]: the elements once each, in an order the
    program does not choose. *)
Definition list_set (l : list string) : list string :=
  elements (list_to_set l : gset string).

Definition extract_skills (text : string) : list string :=
  let lower_text := lower text in
  list_set (found_skills SKILL_TAGS lower_text).

Record Analysis : Type := MkAnalysis {
  out_issuer : string;
  out_features : Features;
  out_skills : list string;
  out_tags : list string;
  out_result : ScoreResult;
  out_raw_text_snippet : string
}.

(** The feature record [analyze_certificate] assembles from the text. *)
Definition assemble_features (text : string) (issuer_db : option IssuerDb) : Features :=
  let verification_link := find_verification_link text in
  let '(issuer_name, issuer_rep) := fuzzy_lookup_issuer text (db_or_default issuer_db) in
  let duration := extract_time_commitment text in
  let project_present := detect_keywords text PROJECT_KEYWORDS in
  let project_complexity :=
    if project_present && (contains "capstone" (lower text) || contains "portfolio" (lower text))
    then 70 else if project_present then 40 else 0 in
  let assessment_present := detect_keywords text ASSESSMENT_KEYWORDS in
  let assessment_rigor :=
    if contains "proct" (lower text) || contains "invigil" (lower text) then 80
    else if assessment_present then 60 else 20 in
  let prereq_present := detect_keywords text PREREQ_KEYWORDS in
  let verified := truthy verification_link in
  let verification_reason := guess_verification_method text verification_link in
  {| issuer := Some (default "unknown" issuer_name);
     issuer_rep := Some (PyInt issuer_rep);
     duration_hours := duration;
     has_project := Some (Z.b2z project_present);
     project_complexity := Some (PyInt project_complexity);
     assessment_rigor := Some (PyInt assessment_rigor);
     prerequisites_required := Some (Z.b2z prereq_present);
     industry_recognition := Some (PyInt issuer_rep);
     verified := Some verified;
     verification_reason := Some verification_reason;
     tags := Some {| tag_project := project_present;
                     tag_assessment := assessment_present;
                     tag_prerequisite := prereq_present |} |}.

(** [analyze_certificate] from the extracted text on. *)
Definition analyze_certificate (text : string) (issuer_db : option IssuerDb)
    : option Analysis :=
  let features := assemble_features text issuer_db in
  let issuer_name := fst (fuzzy_lookup_issuer text (db_or_default issuer_db)) in
  let skills := extract_skills text in
  let tags := list_set (option_list issuer_name ++ skills) in
  result ← compute_certificate_tier features issuer_db;
  Some {| out_issuer := default "unknown" issuer_name;
          out_features := features;
          out_skills := skills;
          out_tags := tags;
          out_result := result;
          out_raw_text_snippet := str (take 500 (chars text)) |}.

End Analysis.

(** ** Vocabulary of the properties of the tier composer *)

Local Open Scope Z_scope.

(** [max(0, min(100, x))]. *)
Definition clamp (x : pynum) : pynum := py_max (PyInt 0) (py_min (PyInt 100) x).

(** The clamp of a [float], as a [float]. *)
Definition clampf (x : pyfloat) : pyfloat :=
  if flt x (Fin (100 * U)) then (if flt (Fin 0) x then x else Fin 0) else Fin (100 * U).

(** [round(x, 2)] of the finite double of [a] units. *)
Definition round2f (a : Z) : pyfloat := RN (round_half_even (100 * a) U * U) 100.

(** Division by a positive double of [b] units. *)
Definition fdiv_by (b : Z) (x : pyfloat) : pyfloat :=
  match x with
  | Fin a => RN (a * U) b
  | _ => x
  end.

(** [time_score] as a [float], from [time_h]. *)
Definition time_score_f (th : pyfloat) : pyfloat :=
  clampf (fmul (fdiv_by (200 * U) th) (Fin (100 * U))).

(** The composite with its bonus, from the seven terms as [float]s. *)
Definition composite_f (a s p t i q bonus : pyfloat) : pyfloat :=
  fadd (fadd (fadd (fadd (fadd (fadd (fmul a (lit 35 100)) (fmul s (lit 25 100)))
                               (fmul p (lit 20 100)))
                         (fmul t (lit 10 100)))
                   (fmul i (lit 10 100)))
             (fmul q (lit 0 10)))
       bonus.

(** [raw_score] once every conversion to [float] is made first. *)
Definition raw_score_spec (features : Features) : option pynum :=
  a ← as_float (default (PyInt 25) (issuer_rep features));
  th ← as_float (default (PyInt 0) (duration_hours features));
  s ← as_float (default (PyInt 20) (assessment_rigor features));
  pc ← as_float (default (PyInt 0) (project_complexity features));
  i ← as_float (default (PyInt 20) (industry_recognition features));
  q ← float_of_int (default 0 (prerequisites_required features) * 100);
  Some (clamp (PyFloat (composite_f a s
         (if negb (default 0 (has_project features) =? 0) then pc else Fin 0)
         (time_score_f th) i q
         (if default false (verified features) then Fin (10 * U) else Fin 0)))).

(** The least integer [float()] refuses: 2^1024 - 2^970, half a last
    place below 2^1024. *)
Definition MAX_INT : Z := 2 ^ 1024 - 2 ^ 970.

Definition int_fits (z : Z) : bool := Z.abs z <? MAX_INT.

Definition num_fits (x : pynum) : bool :=
  match x with
  | PyInt z => int_fits z
  | PyFloat _ => true
  end.

(** Every [int] the composer converts to a [float] is in range. *)
Definition ints_fit (f : Features) : bool :=
  num_fits (default (PyInt 25) (issuer_rep f))
  && num_fits (default (PyInt 0) (duration_hours f))
  && num_fits (default (PyInt 20) (assessment_rigor f))
  && num_fits (default (PyInt 0) (project_complexity f))
  && num_fits (default (PyInt 20) (industry_recognition f))
  && int_fits (default 0 (prerequisites_required f) * 100).

(** A double of the model is a double of the machine when rounding
    leaves it as it is. *)
Definition is_double (x : pyfloat) : Prop :=
  match x with
  | Fin a => RN a 1 = Fin a
  | _ => True
  end.

Definition num_ok (v : pynum) : Prop :=
  match v with
  | PyInt _ => True
  | PyFloat x => is_double x
  end.

(** [x] is at most [y] once both are clamped: a NaN is clamped to 100,
    and so is the infinity a NaN can turn into. *)
Definition below (x y : pyfloat) : Prop :=
  y = NaN \/ (x = NaN /\ y = PInf) \/ fle x y = true.

(** The empty mapping, and a mapping with one key set. *)
Definition no_features : Features :=
  MkFeatures None None None None None None None None None None None.

Definition set_issuer_rep (v : pynum) (f : Features) : Features :=
  MkFeatures (issuer f) (Some v) (duration_hours f) (has_project f) (project_complexity f)
    (assessment_rigor f) (prerequisites_required f) (industry_recognition f) (verified f)
    (verification_reason f) (tags f).

Definition set_duration_hours (v : pynum) (f : Features) : Features :=
  MkFeatures (issuer f) (issuer_rep f) (Some v) (has_project f) (project_complexity f)
    (assessment_rigor f) (prerequisites_required f) (industry_recognition f) (verified f)
    (verification_reason f) (tags f).

Definition set_project_complexity (v : pynum) (f : Features) : Features :=
  MkFeatures (issuer f) (issuer_rep f) (duration_hours f) (has_project f) (Some v)
    (assessment_rigor f) (prerequisites_required f) (industry_recognition f) (verified f)
    (verification_reason f) (tags f).

Definition set_assessment_rigor (v : pynum) (f : Features) : Features :=
  MkFeatures (issuer f) (issuer_rep f) (duration_hours f) (has_project f) (project_complexity f)
    (Some v) (prerequisites_required f) (industry_recognition f) (verified f)
    (verification_reason f) (tags f).

Definition set_prerequisites_required (v : Z) (f : Features) : Features :=
  MkFeatures (issuer f) (issuer_rep f) (duration_hours f) (has_project f) (project_complexity f)
    (assessment_rigor f) (Some v) (industry_recognition f) (verified f)
    (verification_reason f) (tags f).

Definition set_industry_recognition (v : pynum) (f : Features) : Features :=
  MkFeatures (issuer f) (issuer_rep f) (duration_hours f) (has_project f) (project_complexity f)
    (assessment_rigor f) (prerequisites_required f) (Some v) (verified f)
    (verification_reason f) (tags f).

Definition set_verified (v : bool) (f : Features) : Features :=
  MkFeatures (issuer f) (issuer_rep f) (duration_hours f) (has_project f) (project_complexity f)
    (assessment_rigor f) (prerequisites_required f) (industry_recognition f) (Some v)
    (verification_reason f) (tags f).

(** Two records that differ in one signal, greater in the second. *)
Inductive improves : Features -> Features -> Prop :=
| improves_issuer_rep f v1 v2 :
    num_ok v1 -> num_ok v2 -> py_lt v1 v2 = true ->
    improves (set_issuer_rep v1 f) (set_issuer_rep v2 f)
| improves_assessment_rigor f v1 v2 :
    num_ok v1 -> num_ok v2 -> py_lt v1 v2 = true ->
    improves (set_assessment_rigor v1 f) (set_assessment_rigor v2 f)
| improves_project_complexity f v1 v2 :
    num_ok v1 -> num_ok v2 -> py_lt v1 v2 = true ->
    improves (set_project_complexity v1 f) (set_project_complexity v2 f)
| improves_duration_hours f v1 v2 :
    num_ok v1 -> num_ok v2 -> py_lt v1 v2 = true ->
    improves (set_duration_hours v1 f) (set_duration_hours v2 f)
| improves_industry_recognition f v1 v2 :
    num_ok v1 -> num_ok v2 -> py_lt v1 v2 = true ->
    improves (set_industry_recognition v1 f) (set_industry_recognition v2 f)
| improves_verified f :
    improves (set_verified false f) (set_verified true f).

(** An [int] of 2^1024 as issuer reputation. *)
Definition overflow_features : Features := set_issuer_rep (PyInt (2 ^ 1024)) no_features.

(** issuer_rep 100, assessment_rigor 100, a project of complexity
    99.98, no industry recognition: the composite is 79.996. *)
Definition boundary_features : Features :=
  MkFeatures None (Some (PyInt 100)) None (Some 1) (Some (PyFloat (lit 9998 100)))
    (Some (PyInt 100)) None (Some (PyInt 0)) None None None.

(** issuer_rep, assessment_rigor and industry_recognition 100, verified:
    the composite is 80. *)
Definition threshold_features : Features :=
  MkFeatures None (Some (PyInt 100)) None None None
    (Some (PyInt 100)) None (Some (PyInt 100)) (Some true) None None.

(** The double a hardware float holds, in units of 2^-1074. *)
Definition of_prim (f : float) : pyfloat :=
  match Prim2SF f with
  | S754_zero _ => Fin 0
  | S754_infinity s => if s then NInf else PInf
  | S754_nan => NaN
  | S754_finite s m e => Fin ((if s then -1 else 1) * Z.pos m * 2 ^ (e + 1074))
  end.

(** A conjunction of closed equations, each decided by evaluation. *)
Ltac conj_compute :=
  repeat match goal with |- _ /\ _ => split end;
  vm_compute; first [reflexivity | discriminate].

(** Case analysis on the conversions of a closed form that returned. *)
Ltac split_binds H :=
  repeat match type of H with
         | context [as_float ?v] =>
             let x := fresh "x" in
             let E := fresh "E" in
             destruct (as_float v) as [x|] eqn:E; [|discriminate H]
         | context [float_of_int ?v] =>
             let x := fresh "x" in
             let E := fresh "E" in
             destruct (float_of_int v) as [x|] eqn:E; [|discriminate H]
         end;
  cbn [mbind option_bind] in H.
(** ** Vocabulary of the properties of the text functions *)

Local Open Scope string_scope.
Local Open Scope list_scope.

(** [w] occurs in [t]: the declarative reading of [w in t]. *)
Definition substring (w t : string) : Prop :=
  exists pre post, chars t = pre ++ chars w ++ post.

(** A word boundary between the text [pre] and the text [post]. *)
Definition boundary (pre post : list ascii) : bool :=
  xorb (word_at (last pre)) (word_at (head post)).

(** What a regular expression matches, whatever the order in which a
    matcher tries: [Matches icase r s s'] when [r] can take the matcher
    from the state [s] to the state [s']. *)
Inductive Matches (icase : bool) : regex -> mstate -> mstate -> Prop :=
| M_str p s s' :
    match_str icase (chars p) s = Some s' -> Matches icase (RStr p) s s'
| M_set negated items s c rest :
    ms_rest s = c :: rest -> set_match icase negated items c = true ->
    Matches icase (RSet negated items) s (advance s c rest)
| M_seq r1 r2 s s1 s2 :
    Matches icase r1 s s1 -> Matches icase r2 s1 s2 -> Matches icase (RSeq r1 r2) s s2
| M_alt_l r1 r2 s s' :
    Matches icase r1 s s' -> Matches icase (RAlt r1 r2) s s'
| M_alt_r r1 r2 s s' :
    Matches icase r2 s s' -> Matches icase (RAlt r1 r2) s s'
| M_rep_stop hi r s :
    Matches icase (RRepeat 0 hi r) s s
| M_rep_more lo hi r s s1 s2 :
    hi <> Some 0%nat ->
    Matches icase r s s1 -> Matches icase (RRepeat (pred lo) (pred <$> hi) r) s1 s2 ->
    Matches icase (RRepeat lo hi r) s s2
| M_group n r s s' :
    Matches icase r s s' -> Matches icase (RGroup n r) s (close_group n s s')
| M_wordb s :
    at_boundary s = true -> Matches icase RWordB s s.

(** A regular expression that matches no empty text. *)
Fixpoint nonempty (r : regex) : bool :=
  match r with
  | RStr p => negb (String.eqb p EmptyString)
  | RSet _ _ => true
  | RSeq r1 r2 => nonempty r1 || nonempty r2
  | RAlt r1 r2 => nonempty r1 && nonempty r2
  | RRepeat lo _ r' => negb (Nat.eqb lo 0) && nonempty r'
  | RGroup _ r' => nonempty r'
  | RWordB => false
  end.

(** Every repeated expression matches no empty text: the repetitions
    of a match are then fewer than the characters ahead. *)
Fixpoint productive (r : regex) : bool :=
  match r with
  | RStr _ | RSet _ _ | RWordB => true
  | RSeq r1 r2 | RAlt r1 r2 => productive r1 && productive r2
  | RRepeat _ _ r' => nonempty r' && productive r'
  | RGroup _ r' => productive r'
  end.

(** The state of a search at the split [pre ++ rest] of the text. *)
Definition state_at (pre rest : list ascii) : mstate := MState (rev pre) rest [].

(** [r] matches the text [w] at the split [pre ++ (w ++ post)]. *)
Definition matches_at (icase : bool) (r : regex) (pre w post : list ascii) : Prop :=
  exists gs, Matches icase r (state_at pre (w ++ post)) (MState (rev w ++ rev pre) post gs).

(** [r] matches somewhere in the text. *)
Definition occurs (icase : bool) (r : regex) (text : list ascii) : Prop :=
  exists pre w post, text = pre ++ w ++ post /\ matches_at icase r pre w post.

(** [w] stands in [t] between two word boundaries. *)
Definition whole_word_in (w t : string) : Prop :=
  exists pre post,
    chars t = pre ++ chars w ++ post
    /\ boundary pre (chars w ++ post) = true /\ boundary (pre ++ chars w) post = true.

(** *** Links *)

(** The scheme of an URL, in either case. *)
Definition scheme_text (w : list ascii) : Prop :=
  map lower_char w = chars "http://" \/ map lower_char w = chars "https://".

(** An URL: the scheme, then one character or more, none of them a blank. *)
Definition url_text (w : list ascii) : Prop :=
  exists scheme tail,
    w = scheme ++ tail /\ scheme_text scheme
    /\ tail <> [] /\ Forall (fun c => is_space c = false) tail.

(** A code as [re.IGNORECASE] makes the pattern read: 5 to 12 letters of
    either case and digits. *)
Definition code_text (w : list ascii) : Prop :=
  (5 <= length w <= 12)%nat /\ Forall (fun c => is_alnum c = true) w.

(** A link at the split [pre ++ w ++ post] of a text. *)
Definition link_at (pre w post : list ascii) : Prop :=
  url_text w
  \/ (code_text w /\ boundary pre (w ++ post) = true /\ boundary (pre ++ w) post = true).

(** The text ahead is over or starts with a character outside the class. *)
Definition stops (P : ascii -> bool) (post : list ascii) : Prop :=
  match post with
  | [] => True
  | c :: _ => P c = false
  end.

(** The text ahead is over or starts with a blank. *)
Definition at_blank (post : list ascii) : Prop :=
  match post with
  | [] => True
  | c :: _ => is_space c = true
  end.

(** An URL starts the text. *)
Definition url_starts (rest : list ascii) : Prop :=
  exists w post, rest = w ++ post /\ url_text w.

(** The link the finder takes at the split [pre ++ w ++ post]: an URL
    that runs up to the next blank, or else a code. *)
Definition link_taken (pre w post : list ascii) : Prop :=
  (url_text w /\ at_blank post)
  \/ (code_text w /\ boundary pre (w ++ post) = true /\ boundary (pre ++ w) post = true
      /\ ~ url_starts (w ++ post)).


(** *** The parts of the patterns and what a match reads *)

(** The parts of [GENERIC_VERIFY_REGEX]. *)
Definition scheme_re : regex := (RStr "http" ⋅ ROpt (RStr "s") ⋅ RStr "://")%re.
Definition url_re : regex := (scheme_re ⋅ RPlus non_space)%re.
Definition code_re : regex := (RWordB ⋅ RRepeat 5 (Some 12%nat) upper_or_digit ⋅ RWordB)%re.

(** The matcher went from [s] to [s'] by reading [w] and closed no group. *)
Definition reads (s : mstate) (w : list ascii) (s' : mstate) : Prop :=
  ms_rest s = w ++ ms_rest s' /\ ms_pre s' = rev w ++ ms_pre s
  /\ ms_groups s' = ms_groups s.

(** The matcher went from [s] to [s'] by reading [w] and closing the
    groups [gs], the last one first. *)
Definition took (s : mstate) (w : list ascii) (gs : list (nat * list ascii))
    (s' : mstate) : Prop :=
  ms_rest s = w ++ ms_rest s' /\ ms_pre s' = rev w ++ ms_pre s
  /\ ms_groups s' = gs ++ ms_groups s.

(** The parts of [TIME_REGEX]. *)
Definition number_re : regex := (RPlus digit ⋅ ROpt (RStr ".") ⋅ RStar digit)%re.
Definition total_re : regex := (RStr "total" ⋅ RStar space)%re.
Definition unit_re : regex :=
  (RStr "hours" ∥ RStr "hrs" ∥ RStr "h" ∥ RStr "weeks" ∥ RStr "week"
   ∥ RStr "months" ∥ RStr "month")%re.

Definition TIME_UNITS : list string :=
  ["hours"; "hrs"; "h"; "weeks"; "week"; "months"; "month"].

Definition digits (w : list ascii) : Prop := Forall (fun c => is_digit c = true) w.
Definition blanks (w : list ascii) : Prop := Forall (fun c => is_space c = true) w.

(** Digits, then possibly a point and more digits. *)
Definition number_text (w : list ascii) : Prop :=
  exists ip fp,
    w = ip ++ fp /\ ip <> [] /\ digits ip
    /\ (fp = [] \/ exists d, fp = "."%char :: d /\ digits d).

(** Blanks, then possibly the word total and more blanks. *)
Definition gap_text (w : list ascii) : Prop :=
  exists b t,
    w = b ++ t /\ blanks b
    /\ (t = [] \/ exists t1 b2, t = t1 ++ b2 /\ map lower_char t1 = chars "total" /\ blanks b2).

(** A unit, in either case. *)
Definition unit_text (w : list ascii) : Prop :=
  exists u, In u TIME_UNITS /\ map lower_char w = chars u.

(** A duration phrase. *)
Definition duration_text (w : list ascii) : Prop :=
  exists num gap unit,
    w = num ++ gap ++ unit /\ number_text num /\ gap_text gap /\ unit_text unit.

(** *** Durations *)

(** The hours one unit stands for. *)
Definition unit_hours (unit : list ascii) : Z :=
  let u := str (map lower_char unit) in
  if String.eqb u "weeks" || String.eqb u "week" then 10
  else if String.eqb u "months" || String.eqb u "month" then 40
  else 1.

(** The duration in hours; a duration in hours is left as it is. *)
Definition in_hours (v : pyfloat) (unit : list ascii) : pyfloat :=
  if (unit_hours unit =? 1)%Z then v else fmul v (Fin (unit_hours unit * U)).

(** *** The classifier *)

(** The text speaks of a proctored or invigilated exam. *)
Definition proctoring (ocr_text : string) : Prop :=
  substring "proct" (lower ocr_text) \/ substring "invigil" (lower ocr_text).

(** The link names a registry. *)
Definition registry_link (l : string) : Prop :=
  exists k, In k ["verify"; "certificate"; "registry"; "credentials"]
            /\ substring k (lower l).

(** ** Images, documents and files *)

(** [x / y] on two [int]s: the quotient rounded to the nearest double;
    [None] is [ZeroDivisionError], or [OverflowError] when no double is
    near. *)
Definition int_truediv (x y : Z) : option pyfloat :=
  if (y =? 0)%Z then None
  else match (if (0 <? y)%Z then RN (x * U) y else RN (- (x * U)) (- y)) with
       | Fin m => Some (Fin m)
       | _ => None
       end.

(** [int(x)]: the integer towards zero; an infinity and a NaN raise. *)
Definition py_int (x : pynum) : option Z :=
  match x with
  | PyInt z => Some z
  | PyFloat (Fin a) => Some (Z.quot a U)
  | PyFloat _ => None
  end.

(** The filters of [ImageFilter] the program applies. *)
Inductive image_filter : Type :=
| MedianFilter (size : Z)
| SHARPEN.

(** A [PIL.Image] with its [size] (width, height), and the operations
    of PIL and pytesseract the program calls; [None] is an exception. *)
Class Imaging : Type := {
  Image : Type;
  image_size : Image -> Z * Z;
  convert : Image -> string -> option Image;
  autocontrast : Image -> option Image;
  apply_filter : Image -> image_filter -> option Image;
  (** [img.resize(size, Image.LANCZOS)]. *)
  resize_lanczos : Image -> Z * Z -> option Image;
  image_to_string : Image -> option string;
  image_open : string -> option Image
}.

(** The documents of PyMuPDF.  A page gives its text, and its picture
    at twice the size ([get_pixmap] with [Matrix(2, 2)], then
    [Image.frombytes]). *)
Class Documents `{Imaging} : Type := {
  Page : Type;
  get_text : Page -> option string;
  render : Page -> option Image;
  fitz_open : string -> option (list Page)
}.

Section Extraction.

Context `{Documents}.

Definition preprocess_pil_image (img : Image) : option Image :=
  img ← convert img "L";
  img ← autocontrast img;
  img ← apply_filter img (MedianFilter 3);
  img ← apply_filter img SHARPEN;
  let max_dim := 2500%Z in
  let '(w, h) := image_size img in
  if (max_dim <? Z.max w h)%Z then
    scale ← int_truediv max_dim (Z.max w h);
    w' ← (int w * Some (PyFloat scale))%py ≫= py_int;
    h' ← (int h * Some (PyFloat scale))%py ≫= py_int;
    resize_lanczos img (w', h')
  else Some img.

Definition ocr_image (img : Image) : option string :=
  img ← preprocess_pil_image img;
  image_to_string img.

(** The text one page adds, without the line end. *)
Definition page_text_or_ocr (page : Page) : option string :=
  page_text ← get_text page;
  if truthy (Some page_text) && truthy (Some (strip page_text)) then Some page_text
  else img ← render page; ocr_image img.

(** The loop over the pages inside [try]: the text so far, and whether
    an exception ended the loop (its message is then printed). *)
Fixpoint read_pages (pages : list Page) (text : string) : string * bool :=
  match pages with
  | [] => (text, false)
  | page :: rest =>
      match page_text_or_ocr page with
      | Some t => read_pages rest (text ++ t ++ String "010" EmptyString)%string
      | None => (text, true)
      end
  end.

Definition extract_text_from_pdf_run (file_path : string) : string * bool :=
  match fitz_open file_path with
  | Some doc => read_pages doc EmptyString
  | None => (EmptyString, true)
  end.

Definition extract_text_from_pdf (file_path : string) : string :=
  fst (extract_text_from_pdf_run file_path).

(** The text, and whether an exception was caught. *)
Definition extract_text_from_image_run (img_path : string) : string * bool :=
  match image_open img_path ≫= ocr_image with
  | Some text => (text, false)
  | None => (EmptyString, true)
  end.

Definition extract_text_from_image (img_path : string) : string :=
  fst (extract_text_from_image_run img_path).

(** [os.path.splitext(file_path)[1]]. *)
Variable splitext_ext : string -> string.
Variable extractOne : string -> list string -> Z -> option (string * pynum * nat).
Variable SKILL_TAGS : list string.

(** [analyze_certificate] from the path of the file: the error of an
    unsupported format, or the path with the analysis of the text. *)
Definition analyze_certificate_file (file_path : string) (issuer_db : option IssuerDb)
    : option (string + string * Analysis) :=
  let ext := lower (splitext_ext file_path) in
  if String.eqb ext ".pdf" then
    inr <$> (pair file_path
             <$> analyze_certificate extractOne SKILL_TAGS
                   (extract_text_from_pdf file_path) issuer_db)
  else if existsb (String.eqb ext) [".png"; ".jpg"; ".jpeg"; ".webp"] then
    inr <$> (pair file_path
             <$> analyze_certificate extractOne SKILL_TAGS
                   (extract_text_from_image file_path) issuer_db)
  else Some (inl "Unsupported file format").

End Extraction.

(** Images that are their size, with operations that never fail and a
    recogniser that reads nothing: the least PIL there is. *)
Definition plain_images : Imaging :=
  {| Image := Z * Z;
     image_size := id;
     convert := fun img _ => Some img;
     autocontrast := Some;
     apply_filter := fun img _ => Some img;
     resize_lanczos := fun _ s => Some s;
     image_to_string := fun _ => Some EmptyString;
     image_open := fun _ => None |}.

(** Documents whose pages are their text ([None] for a page that
    cannot be read), found under their own text as a path. *)
Definition plain_documents : @Documents plain_images :=
  {| Page := option string;
     get_text := id;
     render := fun _ => Some ((100, 100)%Z : @Image plain_images);
     fitz_open := fun path =>
       if String.eqb path "missing.pdf" then None
       else Some [Some "Certificate of Completion"; Some " "; None; Some "page 4"] |}.

(** The lines the pages add to the text when each of them is read. *)
Fixpoint page_lines `{Documents} (pages : list Page) : string :=
  match pages with
  | [] => EmptyString
  | page :: rest =>
      (default EmptyString (page_text_or_ocr page) ++ String "010" EmptyString
       ++ page_lines rest)%string
  end.


(* ===================================================================== *)
(** * Part II: properties                                                  *)
(* ===================================================================== *)

Local Open Scope Z_scope.

(** ** Rounding to the nearest integer *)

Lemma rhe_spec x y :
  0 < y ->
  let q := round_half_even x y in
  2 * x - y <= 2 * q * y <= 2 * x + y
  /\ (2 * q * y = 2 * x + y -> Z.even q = true)
  /\ (2 * q * y = 2 * x - y -> Z.even q = true).
Proof.
  intros Hy. unfold round_half_even.
  pose proof (Z.div_mod x y ltac:(lia)) as Hdm.
  pose proof (Z.mod_pos_bound x y Hy) as Hb.
  set (d := x / y) in *. set (m := x mod y) in *.
  destruct (Z.compare_spec (2 * m) y) as [He|Hl|Hg]; cbv zeta.
  - destruct (Z.even d) eqn:Hev.
    + split; [nia|]. split; intros; assumption.
    + split; [nia|]. split; intros E.
      * rewrite Z.even_add, Hev. reflexivity.
      * exfalso; nia.
  - split; [nia|]. split; intros E; exfalso; nia.
  - split; [nia|]. split; intros E; exfalso; nia.
Qed.

Lemma rhe_lower x y k : 0 < y -> k * y <= x -> k <= round_half_even x y.
Proof.
  intros Hy Hk. destruct (rhe_spec x y Hy) as [[H1 H2] _].
  set (q := round_half_even x y) in *. nia.
Qed.

Lemma rhe_upper x y k : 0 < y -> x <= k * y -> round_half_even x y <= k.
Proof.
  intros Hy Hk. destruct (rhe_spec x y Hy) as [[H1 H2] _].
  set (q := round_half_even x y) in *. nia.
Qed.

Lemma rhe_mono x1 y1 x2 y2 :
  0 < y1 -> 0 < y2 -> x1 * y2 <= x2 * y1 ->
  round_half_even x1 y1 <= round_half_even x2 y2.
Proof.
  intros Hy1 Hy2 Hle.
  destruct (rhe_spec x1 y1 Hy1) as [[_ Hu1] [Ht1 _]].
  destruct (rhe_spec x2 y2 Hy2) as [[Hl2 _] [_ Ht2]].
  set (q1 := round_half_even x1 y1) in *.
  set (q2 := round_half_even x2 y2) in *.
  destruct (Z_le_gt_dec q1 q2) as [|Hgt]; [assumption|exfalso].
  assert (Hy : 0 < y1 * y2) by nia.
  assert (A : 2 * q1 * (y1 * y2) <= 2 * (x1 * y2) + y1 * y2) by nia.
  assert (B : 2 * (x2 * y1) - y1 * y2 <= 2 * q2 * (y1 * y2)) by nia.
  assert (C : q1 = q2 + 1) by nia.
  assert (E1 : 2 * q1 * y1 = 2 * x1 + y1) by nia.
  assert (E2 : 2 * q2 * y2 = 2 * x2 - y2) by nia.
  specialize (Ht1 E1). specialize (Ht2 E2).
  rewrite C, Z.even_add, Ht2 in Ht1. discriminate.
Qed.

(** ** Rounding to 53 bits *)

Lemma ulp_exp_nonneg x y : 0 <= ulp_exp x y.
Proof. unfold ulp_exp. lia. Qed.

Lemma div_le_cross x1 y1 x2 y2 :
  0 < y1 -> 0 < y2 -> x1 * y2 <= x2 * y1 -> x1 / y1 <= x2 / y2.
Proof.
  intros Hy1 Hy2 H. apply Z.div_le_lower_bound; [assumption|].
  pose proof (Z.mul_div_le x1 y1 Hy1). nia.
Qed.

Lemma ulp_exp_mono x1 y1 x2 y2 :
  0 < y1 -> 0 < y2 -> x1 * y2 <= x2 * y1 -> ulp_exp x1 y1 <= ulp_exp x2 y2.
Proof.
  intros Hy1 Hy2 H. unfold ulp_exp.
  pose proof (Z.log2_le_mono _ _ (div_le_cross _ _ _ _ Hy1 Hy2 H)). lia.
Qed.

Lemma ulp_exp_upper x y :
  0 <= x -> 0 < y -> x < y * 2 ^ (53 + ulp_exp x y).
Proof.
  intros Hx Hy.
  assert (Hd : x / y < 2 ^ (53 + ulp_exp x y)).
  { unfold ulp_exp. pose proof (Z.div_pos x y Hx Hy) as Hd0.
    destruct (Z.eq_dec (x / y) 0) as [->|Hne].
    - apply Z.pow_pos_nonneg; lia.
    - destruct (Z.log2_spec (x / y) ltac:(lia)) as [_ Hlt].
      eapply Z.lt_le_trans; [exact Hlt|].
      apply Z.pow_le_mono_r; lia. }
  pose proof (Z.div_mod x y ltac:(lia)). pose proof (Z.mod_pos_bound x y Hy). nia.
Qed.

Lemma ulp_exp_lower x y :
  0 <= x -> 0 < y -> 0 < ulp_exp x y -> y * 2 ^ (52 + ulp_exp x y) <= x.
Proof.
  intros Hx Hy He.
  assert (Hd : 2 ^ (52 + ulp_exp x y) <= x / y).
  { unfold ulp_exp in *.
    assert (Hl : 53 <= Z.log2 (x / y)) by lia.
    assert (Hpos : 0 < x / y).
    { destruct (Z.log2_null (x / y)) as [_ Hn]. destruct (Z_lt_le_dec 0 (x / y)); [assumption|].
      rewrite (Z.log2_nonpos (x / y)) in Hl by lia. lia. }
    destruct (Z.log2_spec (x / y) Hpos) as [Hle _].
    replace (52 + Z.max 0 (Z.log2 (x / y) + 1 - 53)) with (Z.log2 (x / y)) by lia.
    exact Hle. }
  pose proof (Z.mul_div_le x y Hy). nia.
Qed.

Lemma round_pos_nonneg x y : 0 <= x -> 0 < y -> 0 <= round_pos x y.
Proof.
  intros Hx Hy. unfold round_pos.
  assert (0 < 2 ^ ulp_exp x y) by (apply Z.pow_pos_nonneg; [lia|apply ulp_exp_nonneg]).
  apply Z.mul_nonneg_nonneg; [|lia].
  apply rhe_lower; nia.
Qed.

Lemma round_pos_upper x y :
  0 <= x -> 0 < y -> round_pos x y <= 2 ^ (53 + ulp_exp x y).
Proof.
  intros Hx Hy. unfold round_pos.
  pose proof (ulp_exp_nonneg x y) as He.
  pose proof (ulp_exp_upper x y Hx Hy) as Hu.
  rewrite Z.pow_add_r in * by lia.
  assert (0 < 2 ^ ulp_exp x y) by (apply Z.pow_pos_nonneg; lia).
  apply Z.mul_le_mono_nonneg_r; [lia|].
  apply rhe_upper; nia.
Qed.

Lemma round_pos_lower x y :
  0 <= x -> 0 < y -> 0 < ulp_exp x y -> 2 ^ (52 + ulp_exp x y) <= round_pos x y.
Proof.
  intros Hx Hy He. unfold round_pos.
  pose proof (ulp_exp_lower x y Hx Hy He) as Hl.
  rewrite Z.pow_add_r in * by lia.
  assert (0 < 2 ^ ulp_exp x y) by (apply Z.pow_pos_nonneg; lia).
  apply Z.mul_le_mono_nonneg_r; [lia|].
  apply rhe_lower; nia.
Qed.

Lemma round_pos_mono x1 y1 x2 y2 :
  0 <= x1 -> 0 < y1 -> 0 < y2 -> x1 * y2 <= x2 * y1 ->
  round_pos x1 y1 <= round_pos x2 y2.
Proof.
  intros Hx1 Hy1 Hy2 H.
  assert (Hx2 : 0 <= x2) by nia.
  pose proof (ulp_exp_mono _ _ _ _ Hy1 Hy2 H) as He.
  pose proof (ulp_exp_nonneg x1 y1) as He1.
  destruct (Z.eq_dec (ulp_exp x1 y1) (ulp_exp x2 y2)) as [Heq|Hne].
  - unfold round_pos. rewrite <- Heq.
    assert (0 < 2 ^ ulp_exp x1 y1) by (apply Z.pow_pos_nonneg; lia).
    apply Z.mul_le_mono_nonneg_r; [lia|].
    apply rhe_mono; nia.
  - etransitivity; [apply round_pos_upper; assumption|].
    etransitivity; [|apply round_pos_lower; try assumption; lia].
    apply Z.pow_le_mono_r; lia.
Qed.

(** ** Rounding to a double *)

Lemma RN_unfold x y : RN x y = to_double (signed_round x y).
Proof. reflexivity. Qed.

Lemma signed_round_mono x1 y1 x2 y2 :
  0 < y1 -> 0 < y2 -> x1 * y2 <= x2 * y1 ->
  signed_round x1 y1 <= signed_round x2 y2.
Proof.
  intros Hy1 Hy2 H. unfold signed_round.
  destruct (Z.leb_spec 0 x1), (Z.leb_spec 0 x2).
  - apply round_pos_mono; assumption.
  - nia.
  - pose proof (round_pos_nonneg (- x1) y1 ltac:(lia) Hy1).
    pose proof (round_pos_nonneg x2 y2 ltac:(lia) Hy2). lia.
  - apply Z.opp_le_mono. rewrite !Z.opp_involutive.
    apply round_pos_mono; try assumption; nia.
Qed.

Lemma HUGE_pos : 0 < HUGE.
Proof. unfold HUGE. apply Z.pow_pos_nonneg; lia. Qed.

Lemma to_double_mono m1 m2 : m1 <= m2 -> fle (to_double m1) (to_double m2) = true.
Proof.
  intros H. pose proof HUGE_pos. unfold to_double.
  destruct (Z.leb_spec HUGE m1), (Z.leb_spec HUGE m2),
           (Z.leb_spec m1 (- HUGE)), (Z.leb_spec m2 (- HUGE)); simpl; try reflexivity; try lia.
Qed.

Theorem RN_mono x1 y1 x2 y2 :
  0 < y1 -> 0 < y2 -> x1 * y2 <= x2 * y1 -> fle (RN x1 y1) (RN x2 y2) = true.
Proof.
  intros. rewrite !RN_unfold. apply to_double_mono, signed_round_mono; assumption.
Qed.

Lemma U_pos : 0 < U.
Proof. unfold U. apply Z.pow_pos_nonneg; lia. Qed.

Lemma float_of_int_0 : float_of_int 0 = Some (Fin 0).
Proof. vm_compute. reflexivity. Qed.
Lemma float_of_int_10 : float_of_int 10 = Some (Fin (10 * U)).
Proof. vm_compute. reflexivity. Qed.
Lemma float_of_int_100 : float_of_int 100 = Some (Fin (100 * U)).
Proof. vm_compute. reflexivity. Qed.
Lemma lit_200 : lit 200 1 = Fin (200 * U).
Proof. vm_compute. reflexivity. Qed.

Lemma py_float_spec v : py_float v = PyFloat <$> as_float v.
Proof. destruct v; reflexivity. Qed.

Lemma py_mul_float v a b :
  as_float v = Some a -> py_mul (Some v) (Some (PyFloat b)) = Some (PyFloat (fmul a b)).
Proof.
  intros H. destruct v as [z|f]; simpl in H |- *;
    [rewrite H; reflexivity | inversion H; subst; reflexivity].
Qed.

Lemma py_mul_none v b :
  as_float v = None -> py_mul (Some v) (Some (PyFloat b)) = None.
Proof.
  intros H. destruct v as [z|f]; simpl in H |- *; [rewrite H; reflexivity | discriminate].
Qed.

Lemma py_add_float a v b :
  as_float v = Some b -> py_add (Some (PyFloat a)) (Some v) = Some (PyFloat (fadd a b)).
Proof.
  intros H. destruct v as [z|f]; simpl in H |- *;
    [rewrite H; reflexivity | inversion H; subst; reflexivity].
Qed.

Lemma fdiv_pos x b : 0 < b -> fdiv x (Fin b) = Some (fdiv_by b x).
Proof.
  intros Hb. unfold fdiv, fdiv_by.
  destruct (Z.eqb_spec b 0); [lia|].
  destruct (Z.ltb_spec 0 b); [|lia]. destruct x; reflexivity.
Qed.

Lemma clamp_float x : clamp (PyFloat x) =
  if flt x (Fin (100 * U)) then (if flt (Fin 0) x then PyFloat x else PyInt 0) else PyInt 100.
Proof.
  unfold clamp, py_min, py_max, py_gt, py_lt. simpl exact.
  destruct (flt x (Fin (100 * U))); simpl exact.
  - reflexivity.
  - replace (flt (Fin (0 * U)) (Fin (100 * U))) with true; [reflexivity|].
    simpl. pose proof U_pos. symmetry. apply Z.ltb_lt. lia.
Qed.

Lemma as_float_clamp x : as_float (clamp (PyFloat x)) = Some (clampf x).
Proof.
  rewrite clamp_float. unfold clampf.
  destruct (flt x (Fin (100 * U))); [destruct (flt (Fin 0) x)|]; simpl;
    auto using float_of_int_0, float_of_int_100.
Qed.

Lemma exact_clamp x : exact (clamp (PyFloat x)) = clampf x.
Proof.
  rewrite clamp_float. unfold clampf.
  destruct (flt x (Fin (100 * U))); [destruct (flt (Fin 0) x)|]; reflexivity.
Qed.

Lemma py_div_float a b :
  0 < b -> py_div (Some (PyFloat a)) (Some (PyFloat (Fin b))) = Some (PyFloat (fdiv_by b a)).
Proof.
  intros Hb. unfold py_div. cbn [mbind option_bind as_float].
  rewrite (fdiv_pos a b Hb). reflexivity.
Qed.

Lemma w_issuer_rep : weights !! "issuer_rep"%string = Some (PyFloat (lit 35 100)).
Proof. reflexivity. Qed.
Lemma w_assessment : weights !! "assessment"%string = Some (PyFloat (lit 25 100)).
Proof. reflexivity. Qed.
Lemma w_project : weights !! "project"%string = Some (PyFloat (lit 20 100)).
Proof. reflexivity. Qed.
Lemma w_time : weights !! "time"%string = Some (PyFloat (lit 10 100)).
Proof. reflexivity. Qed.
Lemma w_industry : weights !! "industry"%string = Some (PyFloat (lit 10 100)).
Proof. reflexivity. Qed.
Lemma w_prereq : weights !! "prereq"%string = Some (PyFloat (lit 0 10)).
Proof. reflexivity. Qed.

Lemma py_mul_float_int a z c :
  float_of_int z = Some c -> py_mul (Some (PyFloat a)) (Some (PyInt z)) = Some (PyFloat (fmul a c)).
Proof. intros H. simpl. rewrite H. reflexivity. Qed.

Lemma py_mul_int m n : py_mul (int m) (int n) = Some (PyInt (m * n)).
Proof. reflexivity. Qed.

Lemma py_mul_None_l y : py_mul None y = None.
Proof. reflexivity. Qed.
Lemma py_add_None_l y : py_add None y = None.
Proof. reflexivity. Qed.
Lemma py_add_None_r x : py_add (Some x) None = None.
Proof. reflexivity. Qed.

Lemma as_float_if_int (c : bool) x z y :
  float_of_int z = Some y ->
  as_float (if c then PyFloat x else PyInt z) = Some (if c then x else y).
Proof. intros H. destruct c; [reflexivity|exact H]. Qed.

Lemma as_float_if_ints (c : bool) z1 z2 y1 y2 :
  float_of_int z1 = Some y1 -> float_of_int z2 = Some y2 ->
  as_float (if c then PyInt z1 else PyInt z2) = Some (if c then y1 else y2).
Proof. intros H1 H2. destruct c; assumption. Qed.

Local Opaque RN U lit fmul fadd clampf weights.

Lemma raw_score_eq f : raw_score f = raw_score_spec f.
Proof.
  unfold raw_score, raw_score_spec.
  rewrite !py_float_spec, w_issuer_rep, w_assessment, w_project, w_time, w_industry, w_prereq.
  rewrite py_mul_int. unfold flo, int. rewrite lit_200.
  set (vp := default 0 (prerequisites_required f) * 100).
  set (proj := negb (default 0 (has_project f) =? 0)).
  set (ver := default false (verified f)).
  generalize (default (PyInt 25) (issuer_rep f)) as vir.
  generalize (default (PyInt 0) (duration_hours f)) as vd.
  generalize (default (PyInt 20) (assessment_rigor f)) as va.
  generalize (default (PyInt 0) (project_complexity f)) as vpc.
  generalize (default (PyInt 20) (industry_recognition f)) as vi.
  intros vi vpc va vd vir.
  destruct (as_float vd) as [th|] eqn:Hd; [|destruct (as_float vir); reflexivity].
  destruct (as_float va) as [s|] eqn:Hs; [|destruct (as_float vir); reflexivity].
  destruct (as_float vpc) as [pc|] eqn:Hpc; [|destruct (as_float vir); reflexivity].
  destruct (as_float vi) as [i|] eqn:Hi; [|destruct (as_float vir); reflexivity].
  cbn [mbind option_bind fmap option_fmap option_map].
  rewrite (py_div_float th (200 * U)) by (pose proof U_pos; lia).
  set (q200 := fdiv_by (200 * U) th).
  rewrite (py_mul_float_int q200 100 (Fin (100 * U)) float_of_int_100).
  cbn [mbind option_bind].
  fold (clamp (PyFloat (fmul q200 (Fin (100 * U))))).
  set (ts := clamp (PyFloat (fmul q200 (Fin (100 * U))))).
  rewrite (py_mul_float ts (clampf (fmul q200 (Fin (100 * U)))) (lit 10 100) (as_float_clamp _)).
  rewrite (py_mul_float (if proj then PyFloat pc else PyInt 0) (if proj then pc else Fin 0)
             (lit 20 100) (as_float_if_int proj pc 0 _ float_of_int_0)).
  rewrite (py_mul_float (PyFloat s) s (lit 25 100) eq_refl).
  rewrite (py_mul_float (PyFloat i) i (lit 10 100) eq_refl).
  destruct (as_float vir) as [a|] eqn:Hir.
  2:{ rewrite (py_mul_none vir (lit 35 100) Hir). reflexivity. }
  rewrite (py_mul_float vir a (lit 35 100) Hir).
  destruct (float_of_int vp) as [q|] eqn:Hq.
  2:{ rewrite (py_mul_none (PyInt vp) (lit 0 10) Hq).
      repeat match goal with
             | |- context [py_add (Some (PyFloat ?x)) (Some (PyFloat ?y))] =>
                 rewrite (py_add_float x (PyFloat y) y eq_refl)
             end.
      reflexivity. }
  rewrite (py_mul_float (PyInt vp) q (lit 0 10) Hq).
  repeat match goal with
         | |- context [py_add (Some (PyFloat ?x)) (Some (PyFloat ?y))] =>
             rewrite (py_add_float x (PyFloat y) y eq_refl)
         end.
  cbn [mbind option_bind].
  rewrite (py_add_float _ (if ver then PyInt 10 else PyInt 0) (if ver then Fin (10 * U) else Fin 0)
             (as_float_if_ints ver 10 0 _ _ float_of_int_10 float_of_int_0)).
  reflexivity.
Qed.

Local Transparent RN U lit fmul fadd clampf weights.


Lemma fle_Fin_l a x : fle (Fin a) x = true -> x = PInf \/ exists b, x = Fin b /\ a <= b.
Proof.
  destruct x as [b| | |]; simpl; intros H; try discriminate; auto.
  right. exists b. split; [reflexivity|]. apply Z.leb_le. exact H.
Qed.

Lemma fle_Fin_r x b : fle x (Fin b) = true -> x = NInf \/ exists a, x = Fin a /\ a <= b.
Proof.
  destruct x as [a| | |]; simpl; intros H; try discriminate; auto.
  right. exists a. split; [reflexivity|]. apply Z.leb_le. exact H.
Qed.

Lemma fle_between a x b :
  fle (Fin a) x = true -> fle x (Fin b) = true -> exists c, x = Fin c /\ a <= c <= b.
Proof.
  intros H1 H2. destruct (fle_Fin_l _ _ H1) as [->|(c & -> & Hc)]; [discriminate|].
  destruct (fle_Fin_r _ _ H2) as [?|(c' & E & Hc')]; [discriminate|].
  inversion E; subst. exists c'. split; [reflexivity|lia].
Qed.

Lemma RN_max_int : exists m, RN ((MAX_INT - 1) * U) 1 = Fin m.
Proof. eexists. vm_compute. reflexivity. Qed.
Lemma RN_min_int : exists m, RN (- (MAX_INT - 1) * U) 1 = Fin m.
Proof. eexists. vm_compute. reflexivity. Qed.
Lemma RN_over : RN (MAX_INT * U) 1 = PInf.
Proof. vm_compute. reflexivity. Qed.
Lemma RN_under : RN (- MAX_INT * U) 1 = NInf.
Proof. vm_compute. reflexivity. Qed.

Lemma float_of_int_fits z : int_fits z = true -> exists m, float_of_int z = Some (Fin m).
Proof.
  unfold int_fits. intros H%Z.ltb_lt. pose proof U_pos as HU.
  destruct RN_max_int as [M HM]. destruct RN_min_int as [M' HM'].
  assert (H1 : fle (RN (z * U) 1) (Fin M) = true).
  { rewrite <- HM. apply RN_mono; nia. }
  assert (H2 : fle (Fin M') (RN (z * U) 1) = true).
  { rewrite <- HM'. apply RN_mono; nia. }
  destruct (fle_between _ _ _ H2 H1) as (c & Hc & _).
  exists c. unfold float_of_int. rewrite Hc. reflexivity.
Qed.

Lemma float_of_int_overflow z : int_fits z = false -> float_of_int z = None.
Proof.
  unfold int_fits. intros H%Z.ltb_ge. pose proof U_pos as HU.
  unfold float_of_int.
  destruct (Z_le_gt_dec 0 z).
  - assert (H1 : fle (RN (MAX_INT * U) 1) (RN (z * U) 1) = true) by (apply RN_mono; nia).
    rewrite RN_over in H1. destruct (RN (z * U) 1); simpl in H1; try discriminate; reflexivity.
  - assert (H1 : fle (RN (z * U) 1) (RN (- MAX_INT * U) 1) = true) by (apply RN_mono; nia).
    rewrite RN_under in H1. destruct (RN (z * U) 1); simpl in H1; try discriminate; reflexivity.
Qed.

Lemma as_float_fits v : num_fits v = true -> exists x, as_float v = Some x.
Proof.
  destruct v as [z|x]; simpl; intros H.
  - destruct (float_of_int_fits z H) as [m Hm]. eauto.
  - eauto.
Qed.

Lemma as_float_overflow v : num_fits v = false -> as_float v = None.
Proof.
  destruct v as [z|x]; simpl; intros H; [apply float_of_int_overflow; exact H|discriminate].
Qed.

Lemma raw_score_fits f : ints_fit f = true -> exists c, raw_score f = Some (clamp (PyFloat c)).
Proof.
  unfold ints_fit. rewrite !andb_true_iff. intros [[[[[H1 H2] H3] H4] H5] H6].
  rewrite raw_score_eq. unfold raw_score_spec.
  destruct (as_float_fits _ H1) as [a ->]. destruct (as_float_fits _ H2) as [th ->].
  destruct (as_float_fits _ H3) as [s ->]. destruct (as_float_fits _ H4) as [pc ->].
  destruct (as_float_fits _ H5) as [i ->]. destruct (float_of_int_fits _ H6) as [q ->].
  cbn [mbind option_bind]. eauto.
Qed.

Lemma raw_score_overflow f : ints_fit f = false -> raw_score f = None.
Proof.
  unfold ints_fit. rewrite !andb_false_iff. intros H.
  rewrite raw_score_eq. unfold raw_score_spec.
  destruct H as [[[[[H|H]|H]|H]|H]|H];
    try rewrite (as_float_overflow _ H); try rewrite (float_of_int_overflow _ H);
    repeat match goal with |- context [as_float ?v] => destruct (as_float v) end;
    reflexivity.
Qed.

Lemma raw_score_clamped f s : raw_score f = Some s -> exists c, s = clamp (PyFloat c).
Proof.
  destruct (ints_fit f) eqn:Hf.
  - destruct (raw_score_fits f Hf) as [c ->]. intros [= <-]. eauto.
  - rewrite (raw_score_overflow f Hf). discriminate.
Qed.

(** ** The clamp and the rounding to two decimals *)

Lemma clamp_cases c :
  clamp (PyFloat c) = PyInt 0 \/ clamp (PyFloat c) = PyInt 100
  \/ exists a, 0 < a < 100 * U /\ clamp (PyFloat c) = PyFloat (Fin a).
Proof.
  rewrite clamp_float.
  destruct (flt c (Fin (100 * U))) eqn:H1; [|auto].
  destruct (flt (Fin 0) c) eqn:H2; [|auto].
  right; right. destruct c as [a| | |]; simpl in *; try discriminate.
  exists a. split; [lia|reflexivity].
Qed.

Lemma RN_0_100 : RN (0 * U) 100 = Fin 0.
Proof. vm_compute. reflexivity. Qed.
Lemma RN_10000_100 : RN (10000 * U) 100 = Fin (100 * U).
Proof. vm_compute. reflexivity. Qed.

Lemma centi_range a :
  0 <= a <= 100 * U -> 0 <= round_half_even (100 * a) U <= 10000.
Proof.
  intros H. pose proof U_pos. split; [apply rhe_lower|apply rhe_upper]; lia.
Qed.

Lemma lit_centi_range n :
  0 <= n <= 10000 -> exists b, lit n 100 = Fin b /\ 0 <= b <= 100 * U.
Proof.
  intros H. pose proof U_pos. unfold lit. apply fle_between.
  - rewrite <- RN_0_100. apply RN_mono; nia.
  - rewrite <- RN_10000_100. apply RN_mono; nia.
Qed.

Lemma py_round2_float a : py_round2 (PyFloat (Fin a)) = PyFloat (lit (round_half_even (100 * a) U) 100).
Proof. reflexivity. Qed.

(** ** The order of doubles *)

Lemma fle_refl x : x <> NaN -> fle x x = true.
Proof. destruct x; simpl; intros H; try reflexivity; [apply Z.leb_refl|congruence]. Qed.

Lemma flt_fle x y : flt x y = true -> fle x y = true.
Proof.
  destruct x, y; simpl; intros H; try discriminate; try reflexivity.
  apply Z.leb_le. apply Z.ltb_lt in H. lia.
Qed.

Lemma fle_not_nan x y : fle x y = true -> x <> NaN /\ y <> NaN.
Proof. destruct x, y; simpl; intros H; try discriminate; split; congruence. Qed.

Lemma to_double_not_nan m : to_double m <> NaN.
Proof. unfold to_double. destruct (HUGE <=? m); [|destruct (m <=? - HUGE)]; congruence. Qed.

Lemma RN_not_nan x y : RN x y <> NaN.
Proof. apply to_double_not_nan. Qed.

Lemma fle_PInf x : x <> NaN -> fle x PInf = true.
Proof. destruct x; simpl; intros H; try reflexivity; congruence. Qed.

Lemma fle_NInf x : x <> NaN -> fle NInf x = true.
Proof. destruct x; simpl; intros H; try reflexivity; congruence. Qed.

(** ** Monotone operations *)

Lemma fmul_pos_mono c x y :
  0 < c -> fle x y = true -> fle (fmul x (Fin c)) (fmul y (Fin c)) = true.
Proof.
  intros Hc H. pose proof U_pos as HU.
  assert (Hc0 : (c =? 0) = false) by (apply Z.eqb_neq; lia).
  assert (Hcn : (c <? 0) = false) by (apply Z.ltb_ge; lia).
  destruct x as [a| | |], y as [b| | |]; simpl in H; try discriminate;
    simpl; rewrite ?Hc0, ?Hcn; simpl;
    try reflexivity; try (apply fle_PInf, RN_not_nan); try (apply fle_NInf, RN_not_nan).
  apply RN_mono; try lia. apply Z.leb_le in H.
  apply Z.mul_le_mono_nonneg_r; [lia|]. apply Z.mul_le_mono_nonneg_r; lia.
Qed.

Lemma fdiv_by_mono b x y :
  0 < b -> fle x y = true -> fle (fdiv_by b x) (fdiv_by b y) = true.
Proof.
  intros Hb H. pose proof U_pos as HU.
  destruct x as [a| | |], y as [c| | |]; simpl in H; try discriminate; simpl;
    try reflexivity; try (apply fle_PInf, RN_not_nan); try (apply fle_NInf, RN_not_nan).
  apply RN_mono; try lia. apply Z.leb_le in H.
  apply Z.mul_le_mono_nonneg_r; [lia|]. apply Z.mul_le_mono_nonneg_r; lia.
Qed.

Lemma clampf_range x : exists a, clampf x = Fin a /\ 0 <= a <= 100 * U.
Proof.
  pose proof U_pos as HU. unfold clampf.
  destruct (flt x (Fin (100 * U))) eqn:H1; [|exists (100 * U); split; [reflexivity|lia]].
  destruct (flt (Fin 0) x) eqn:H2; [|exists 0; split; [reflexivity|lia]].
  destruct x as [a| | |]; simpl in *; try discriminate.
  exists a. split; [reflexivity|lia].
Qed.

Lemma clampf_mono x y : fle x y = true -> fle (clampf x) (clampf y) = true.
Proof.
  intros H. pose proof U_pos as HU. unfold clampf.
  destruct x as [a| | |], y as [b| | |]; simpl in H; try discriminate; simpl.
  - apply Z.leb_le in H.
    destruct (Z.ltb_spec a (100 * U)), (Z.ltb_spec b (100 * U)),
             (Z.ltb_spec 0 a), (Z.ltb_spec 0 b); simpl; apply Z.leb_le; lia.
  - destruct (Z.ltb_spec a (100 * U)), (Z.ltb_spec 0 a); simpl; apply Z.leb_le; lia.
  - apply Z.leb_le; lia.
  - destruct (Z.ltb_spec b (100 * U)), (Z.ltb_spec 0 b); simpl; apply Z.leb_le; lia.
  - apply Z.leb_le; lia.
  - apply Z.leb_le; lia.
Qed.

(** ** Sums that may hold an infinity or a NaN *)

Lemma below_refl x : below x x.
Proof.
  unfold below. destruct x; auto; right; right; simpl; auto using Z.leb_refl.
Qed.

Lemma below_fle x y : fle x y = true -> below x y.
Proof. unfold below. auto. Qed.

Lemma fadd_comm x y : fadd x y = fadd y x.
Proof. destruct x, y; simpl; try reflexivity. rewrite Z.add_comm. reflexivity. Qed.

Lemma fadd_below_l x y t : below x y -> below (fadd x t) (fadd y t).
Proof.
  unfold below. intros [->|[[-> ->]|H]].
  - left. destruct t; reflexivity.
  - destruct t; simpl; auto.
  - destruct x as [a| | |], y as [b| | |]; simpl in H; try discriminate;
      destruct t as [c| | |]; simpl; auto;
      right; right; try reflexivity;
      try (apply fle_PInf, RN_not_nan); try (apply fle_NInf, RN_not_nan).
    apply RN_mono; lia.
Qed.

Lemma fadd_below_r x y t : below x y -> below (fadd t x) (fadd t y).
Proof. rewrite (fadd_comm t x), (fadd_comm t y). apply fadd_below_l. Qed.

Lemma clampf_below x y : below x y -> fle (clampf x) (clampf y) = true.
Proof.
  pose proof U_pos as HU.
  intros [->|[[-> ->]|H]].
  - destruct (clampf_range x) as (a & -> & Ha). simpl. apply Z.leb_le. lia.
  - simpl. apply Z.leb_le. lia.
  - apply clampf_mono, H.
Qed.

(** ** The model against hardware doubles

    The operations of the model return, on these operands of the
    program, the doubles the primitive floats of the kernel compute. *)

#[local] Set Warnings "-inexact-float".

Example lit_conforms :
  lit 35 100 = of_prim 0.35 /\ lit 25 100 = of_prim 0.25 /\ lit 20 100 = of_prim 0.2
  /\ lit 10 100 = of_prim 0.1 /\ lit 9998 100 = of_prim 99.98.
Proof. conj_compute. Qed.

Example fmul_conforms :
  fmul (Fin (70 * U)) (lit 35 100) = of_prim (70 * 0.35)
  /\ fmul (lit 9998 100) (lit 20 100) = of_prim (99.98 * 0.2)
  /\ fmul (Fin (2 ^ 1023 * U)) (Fin (2 * U)) = of_prim (0x1p1023 * 2)
  /\ fmul (Fin 1) (lit 35 100) = of_prim (0x1p-1074 * 0.35)
  /\ fmul (Fin 3) (lit 1 2) = of_prim (0x3p-1074 * 0.5).
Proof. conj_compute. Qed.

Example fadd_conforms :
  fadd (lit 35 1) (lit 25 1) = of_prim (35 + 25)
  /\ fadd (lit 1 10) (lit 2 10) = of_prim (0.1 + 0.2)
  /\ fadd (of_prim (100 * 0.35 + 100 * 0.25)) (of_prim (99.98 * 0.2))
     = of_prim (100 * 0.35 + 100 * 0.25 + 99.98 * 0.2).
Proof. conj_compute. Qed.

Example fdiv_conforms :
  fdiv (Fin (30 * U)) (Fin (200 * U)) = Some (of_prim (30 / 200))
  /\ fdiv (Fin (1 * U)) (Fin (3 * U)) = Some (of_prim (1 / 3))
  /\ fdiv (Fin (-7 * U)) (lit 1 10) = Some (of_prim (-7 / 0.1)).
Proof. conj_compute. Qed.

Example raw_score_conforms :
  raw_score boundary_features
  = Some (PyFloat (of_prim (100 * 0.35 + 100 * 0.25 + 99.98 * 0.2 + 0 * 0.1 + 0 * 0.1 + 0 * 0.0 + 0))).
Proof. vm_compute. reflexivity. Qed.

Lemma tier_of_cases s : tier_of s = 1 \/ tier_of s = 2 \/ tier_of s = 3 \/ tier_of s = 4.
Proof.
  unfold tier_of.
  destruct (py_ge s (PyInt 80)); [auto|].
  destruct (py_ge s (PyInt 60)); [auto|].
  destruct (py_ge s (PyInt 40)); auto.
Qed.

Lemma compute_eq f db :
  compute_certificate_tier f db =
  (s ← raw_score f; Some {| score := py_round2 s; tier := tier_of s |}).
Proof. reflexivity. Qed.

Lemma py_round2_clamp_range c :
  let s := py_round2 (clamp (PyFloat c)) in
  py_le (PyInt 0) s = true /\ py_le s (PyInt 100) = true
  /\ (s = PyInt 0 \/ s = PyInt 100 \/ exists n, 0 <= n <= 10000 /\ s = PyFloat (lit n 100)).
Proof.
  pose proof U_pos as HU. cbv zeta.
  destruct (clamp_cases c) as [->|[->|(a & Ha & ->)]].
  - simpl. repeat split; auto; apply Z.leb_le; lia.
  - simpl. repeat split; auto; apply Z.leb_le; lia.
  - rewrite py_round2_float.
    pose proof (centi_range a ltac:(lia)) as Hn.
    destruct (lit_centi_range _ Hn) as (b & Hb & Hr).
    split; [|split].
    + unfold py_le. simpl exact. rewrite Hb. simpl. apply Z.leb_le. lia.
    + unfold py_le. simpl exact. rewrite Hb. simpl. apply Z.leb_le. lia.
    + right; right. eauto.
Qed.

(** ** The score is bounded (C1)

    C1, as amended: for every feature record whose integers are in the
    range of doubles ([ints_fit]: each magnitude below 2^1024 - 2^970),
    whatever its values otherwise (negative, out of range, infinite or
    NaN), [compute_certificate_tier] returns a result; its score lies
    in [0, 100], is 0, 100 or the double nearest to [n / 100] for an
    integer [n] of [0 .. 10000], and its tier is 1, 2, 3 or 4. *)
Theorem compute_certificate_tier_bounded f db :
  ints_fit f = true ->
  exists r, compute_certificate_tier f db = Some r
    /\ py_le (PyInt 0) (score r) = true /\ py_le (score r) (PyInt 100) = true
    /\ (score r = PyInt 0 \/ score r = PyInt 100
        \/ exists n, 0 <= n <= 10000 /\ score r = PyFloat (lit n 100))
    /\ (tier r = 1 \/ tier r = 2 \/ tier r = 3 \/ tier r = 4).
Proof.
  intros Hf. destruct (raw_score_fits f Hf) as [c Hc].
  rewrite compute_eq, Hc. cbn [mbind option_bind].
  eexists. split; [reflexivity|]. cbn [score tier].
  destruct (py_round2_clamp_range c) as (H1 & H2 & H3).
  repeat split; try assumption. apply tier_of_cases.
Qed.

(** The empty record has such a result. *)
Lemma compute_certificate_tier_bounded_witness :
  exists r, compute_certificate_tier no_features None = Some r
    /\ py_le (PyInt 0) (score r) = true /\ py_le (score r) (PyInt 100) = true
    /\ (score r = PyInt 0 \/ score r = PyInt 100
        \/ exists n, 0 <= n <= 10000 /\ score r = PyFloat (lit n 100))
    /\ (tier r = 1 \/ tier r = 2 \/ tier r = 3 \/ tier r = 4).
Proof. apply (compute_certificate_tier_bounded no_features None). vm_compute. reflexivity. Defined.

(** C1 as stated fails: with the integer 2^1024 as [issuer_rep] the
    product [issuer_rep * 0.35] raises [OverflowError], and no score is
    returned. *)
Lemma compute_certificate_tier_overflow :
  ~ exists r, compute_certificate_tier overflow_features None = Some r
      /\ py_le (PyInt 0) (score r) = true /\ py_le (score r) (PyInt 100) = true.
Proof.
  intros (r & Hr & _).
  assert (H : compute_certificate_tier overflow_features None = None) by (vm_compute; reflexivity).
  congruence.
Qed.

(** The composer raises exactly on the records left out above. *)
Theorem compute_certificate_tier_raises f db :
  compute_certificate_tier f db = None <-> ints_fit f = false.
Proof.
  rewrite compute_eq. destruct (ints_fit f) eqn:Hf.
  - destruct (raw_score_fits f Hf) as [c ->]. cbn. split; discriminate.
  - rewrite (raw_score_overflow f Hf). cbn. split; reflexivity.
Qed.

(** ** The issuer table is not consulted (C10)

    C10: the result of [compute_certificate_tier] is the same for any
    two [issuer_db] arguments, [None] (the default table) included. *)
Theorem issuer_db_not_consulted f db1 db2 :
  compute_certificate_tier f db1 = compute_certificate_tier f db2.
Proof. reflexivity. Qed.

(** ** Prerequisites are inert (C9) *)

Lemma prereq_term : fmul (Fin 0) (lit 0 10) = fmul (Fin (100 * U)) (lit 0 10).
Proof. vm_compute. reflexivity. Qed.

(** C9: the result of [compute_certificate_tier] is the same whether
    [prerequisites_required] is 0 or 1, the other fields being equal;
    the weight table has the key [prereq], with weight 0.0. *)
Theorem prerequisites_inert f db :
  compute_certificate_tier (set_prerequisites_required 0 f) db
  = compute_certificate_tier (set_prerequisites_required 1 f) db
  /\ weights !! "prereq"%string = Some (PyFloat (Fin 0)).
Proof.
  split; [|vm_compute; reflexivity].
  rewrite !compute_eq, !raw_score_eq. unfold raw_score_spec, set_prerequisites_required.
  cbn [issuer_rep duration_hours assessment_rigor project_complexity industry_recognition
       prerequisites_required has_project verified default].
  change (id 0 * 100) with 0. change (id 1 * 100) with 100.
  rewrite float_of_int_0, float_of_int_100.
  cbn [mbind option_bind]. unfold composite_f. rewrite prereq_term. reflexivity.
Qed.

(** ** The score is monotone (C3) *)

Lemma as_float_mono v1 v2 x1 x2 :
  num_ok v1 -> num_ok v2 -> py_lt v1 v2 = true ->
  as_float v1 = Some x1 -> as_float v2 = Some x2 -> fle x1 x2 = true.
Proof.
  pose proof U_pos as HU. unfold py_lt.
  destruct v1 as [z1|f1], v2 as [z2|f2]; simpl; intros Hok1 Hok2 Hlt E1 E2.
  - unfold float_of_int in *.
    assert (H : fle (RN (z1 * U) 1) (RN (z2 * U) 1) = true) by (apply RN_mono; nia).
    destruct (RN (z1 * U) 1), (RN (z2 * U) 1); try discriminate.
    inversion E1; inversion E2; subst. exact H.
  - inversion E2; subst. unfold float_of_int in E1.
    destruct x2 as [b| | |]; simpl in Hlt; try discriminate.
    + assert (H : fle (RN (z1 * U) 1) (RN b 1) = true) by (apply RN_mono; lia).
      simpl in Hok2. rewrite Hok2 in H.
      destruct (RN (z1 * U) 1); try discriminate. inversion E1; subst. exact H.
    + destruct (RN (z1 * U) 1); try discriminate. inversion E1; subst. reflexivity.
  - inversion E1; subst. unfold float_of_int in E2.
    destruct x1 as [a| | |]; simpl in Hlt; try discriminate.
    + assert (H : fle (RN a 1) (RN (z2 * U) 1) = true) by (apply RN_mono; lia).
      simpl in Hok1. rewrite Hok1 in H.
      destruct (RN (z2 * U) 1); try discriminate. inversion E2; subst. exact H.
    + destruct (RN (z2 * U) 1); try discriminate. inversion E2; subst. reflexivity.
  - inversion E1; inversion E2; subst. apply flt_fle, Hlt.
Qed.

Lemma round2f_mono a1 a2 : a1 <= a2 -> fle (round2f a1) (round2f a2) = true.
Proof.
  intros H. pose proof U_pos as HU. unfold round2f.
  apply RN_mono; try lia.
  assert (round_half_even (100 * a1) U <= round_half_even (100 * a2) U)
    by (apply rhe_mono; nia).
  nia.
Qed.

Lemma round2f_0 : round2f 0 = Fin 0.
Proof. vm_compute. reflexivity. Qed.
Lemma round2f_100 : round2f (100 * U) = Fin (100 * U).
Proof. vm_compute. reflexivity. Qed.

Lemma exact_round2_clamp c a :
  clampf c = Fin a -> exact (py_round2 (clamp (PyFloat c))) = round2f a.
Proof.
  rewrite clamp_float. unfold clampf.
  destruct (flt c (Fin (100 * U))) eqn:H1.
  - destruct (flt (Fin 0) c) eqn:H2.
    + intros ->. reflexivity.
    + intros [= <-]. symmetry. apply round2f_0.
  - intros [= <-]. symmetry. apply round2f_100.
Qed.

Lemma score_le_of_below c1 c2 :
  below c1 c2 ->
  py_le (py_round2 (clamp (PyFloat c1))) (py_round2 (clamp (PyFloat c2))) = true.
Proof.
  intros H%clampf_below.
  destruct (clampf_range c1) as (a1 & E1 & _). destruct (clampf_range c2) as (a2 & E2 & _).
  unfold py_le. rewrite (exact_round2_clamp _ _ E1), (exact_round2_clamp _ _ E2).
  rewrite E1, E2 in H. simpl in H. apply round2f_mono. lia.
Qed.

Lemma lit_35 : exists c, lit 35 100 = Fin c /\ 0 < c.
Proof. eexists. split; [vm_compute; reflexivity|reflexivity]. Qed.
Lemma lit_25 : exists c, lit 25 100 = Fin c /\ 0 < c.
Proof. eexists. split; [vm_compute; reflexivity|reflexivity]. Qed.
Lemma lit_20 : exists c, lit 20 100 = Fin c /\ 0 < c.
Proof. eexists. split; [vm_compute; reflexivity|reflexivity]. Qed.
Lemma lit_10 : exists c, lit 10 100 = Fin c /\ 0 < c.
Proof. eexists. split; [vm_compute; reflexivity|reflexivity]. Qed.

Lemma time_score_f_mono x y : fle x y = true -> fle (time_score_f x) (time_score_f y) = true.
Proof.
  intros H. pose proof U_pos. unfold time_score_f.
  apply clampf_mono, fmul_pos_mono; [lia|]. apply fdiv_by_mono; [lia|exact H].
Qed.

Lemma composite_issuer_rep a1 a2 s p t i q b :
  fle a1 a2 = true -> below (composite_f a1 s p t i q b) (composite_f a2 s p t i q b).
Proof.
  intros H. unfold composite_f. destruct lit_35 as (c & -> & Hc). repeat first [apply below_refl | apply fadd_below_l | apply fadd_below_r];
  apply below_fle. apply fmul_pos_mono; assumption.
Qed.

Lemma composite_assessment a s1 s2 p t i q b :
  fle s1 s2 = true -> below (composite_f a s1 p t i q b) (composite_f a s2 p t i q b).
Proof.
  intros H. unfold composite_f. destruct lit_25 as (c & -> & Hc). repeat first [apply below_refl | apply fadd_below_l | apply fadd_below_r];
  apply below_fle. apply fmul_pos_mono; assumption.
Qed.

Lemma composite_project a s p1 p2 t i q b :
  fle p1 p2 = true -> below (composite_f a s p1 t i q b) (composite_f a s p2 t i q b).
Proof.
  intros H. unfold composite_f. destruct lit_20 as (c & -> & Hc). repeat first [apply below_refl | apply fadd_below_l | apply fadd_below_r];
  apply below_fle. apply fmul_pos_mono; assumption.
Qed.

Lemma composite_time a s p t1 t2 i q b :
  fle t1 t2 = true -> below (composite_f a s p t1 i q b) (composite_f a s p t2 i q b).
Proof.
  intros H. unfold composite_f. destruct lit_10 as (c & -> & Hc). repeat first [apply below_refl | apply fadd_below_l | apply fadd_below_r];
  apply below_fle. apply fmul_pos_mono; assumption.
Qed.

Lemma composite_industry a s p t i1 i2 q b :
  fle i1 i2 = true -> below (composite_f a s p t i1 q b) (composite_f a s p t i2 q b).
Proof.
  intros H. unfold composite_f. destruct lit_10 as (c & -> & Hc). repeat first [apply below_refl | apply fadd_below_l | apply fadd_below_r];
  apply below_fle. apply fmul_pos_mono; assumption.
Qed.

Lemma composite_bonus a s p t i q b1 b2 :
  fle b1 b2 = true -> below (composite_f a s p t i q b1) (composite_f a s p t i q b2).
Proof.
  intros H. unfold composite_f.
  repeat first [apply below_refl | apply fadd_below_l | apply fadd_below_r];
  apply below_fle. exact H. Qed.

Lemma compute_inv f db r :
  compute_certificate_tier f db = Some r ->
  exists s, raw_score_spec f = Some s /\ r = {| score := py_round2 s; tier := tier_of s |}.
Proof.
  rewrite compute_eq, raw_score_eq. destruct (raw_score_spec f) as [s|]; [|discriminate].
  intros [= <-]. eauto.
Qed.

(** C3: of two feature records that differ in one of [issuer_rep],
    [assessment_rigor], [project_complexity], [duration_hours],
    [industry_recognition] (greater in the second) or [verified]
    (false in the first, true in the second), the second has a score
    at least as large, whenever the composer returns for both. *)
Theorem score_monotone f1 f2 db r1 r2 :
  improves f1 f2 ->
  compute_certificate_tier f1 db = Some r1 ->
  compute_certificate_tier f2 db = Some r2 ->
  py_le (score r1) (score r2) = true.
Proof.
  intros Himp (s1 & E1 & ->)%compute_inv (s2 & E2 & ->)%compute_inv.
  cbn [score]. unfold raw_score_spec in E1, E2.
  destruct Himp as [f v1 v2 Hk1 Hk2 Hlt|f v1 v2 Hk1 Hk2 Hlt|f v1 v2 Hk1 Hk2 Hlt
                   |f v1 v2 Hk1 Hk2 Hlt|f v1 v2 Hk1 Hk2 Hlt|f];
    cbn [set_issuer_rep set_assessment_rigor set_project_complexity set_duration_hours
         set_industry_recognition set_verified
         issuer_rep duration_hours assessment_rigor project_complexity industry_recognition
         prerequisites_required has_project verified default from_option id] in E1, E2.
  - split_binds E1. split_binds E2.
    injection E1 as <-. injection E2 as <-.
    apply score_le_of_below, composite_issuer_rep.
    eapply (as_float_mono v1 v2); eassumption.
  - split_binds E1. split_binds E2.
    injection E1 as <-. injection E2 as <-.
    apply score_le_of_below, composite_assessment.
    eapply (as_float_mono v1 v2); eassumption.
  - split_binds E1. split_binds E2.
    injection E1 as <-. injection E2 as <-.
    apply score_le_of_below.
    destruct (negb (default 0 (has_project f) =? 0)).
    + apply composite_project. eapply (as_float_mono v1 v2); eassumption.
    + apply below_refl.
  - split_binds E1. split_binds E2.
    injection E1 as <-. injection E2 as <-.
    apply score_le_of_below, composite_time, time_score_f_mono.
    eapply (as_float_mono v1 v2); eassumption.
  - split_binds E1. split_binds E2.
    injection E1 as <-. injection E2 as <-.
    apply score_le_of_below, composite_industry.
    eapply (as_float_mono v1 v2); eassumption.
  - split_binds E1. rewrite ?E, ?E0, ?E3, ?E4, ?E5, ?E6 in E2. cbn [mbind option_bind] in E2.
    injection E1 as <-. injection E2 as <-.
    apply score_le_of_below, composite_bonus.
    simpl. pose proof U_pos. apply Z.leb_le. lia.
Qed.

(** A reputation of 100 instead of 25: the score 42.0 instead of 15.75. *)
Lemma score_monotone_witness :
  exists r1 r2,
    compute_certificate_tier (set_issuer_rep (PyInt 25) no_features) None = Some r1
    /\ compute_certificate_tier (set_issuer_rep (PyInt 100) no_features) None = Some r2
    /\ exact (score r1) = lit 1575 100 /\ exact (score r2) = lit 4200 100
    /\ py_le (score r1) (score r2) = true.
Proof.
  eexists. eexists.
  split; [vm_compute; reflexivity|]. split; [vm_compute; reflexivity|].
  split; [vm_compute; reflexivity|]. split; [vm_compute; reflexivity|].
  eapply (score_monotone (set_issuer_rep (PyInt 25) no_features)
            (set_issuer_rep (PyInt 100) no_features) None).
  - apply improves_issuer_rep; [exact I|exact I|vm_compute; reflexivity].
  - vm_compute; reflexivity.
  - vm_compute; reflexivity.
Defined.

(** ** The tier and the rounded score (C2) *)

Lemma round2f_40 : round2f (40 * U) = Fin (40 * U).
Proof. vm_compute. reflexivity. Qed.
Lemma round2f_60 : round2f (60 * U) = Fin (60 * U).
Proof. vm_compute. reflexivity. Qed.
Lemma round2f_80 : round2f (80 * U) = Fin (80 * U).
Proof. vm_compute. reflexivity. Qed.

Lemma clamp_units c :
  exists a b,
    exact (clamp (PyFloat c)) = Fin a /\ exact (py_round2 (clamp (PyFloat c))) = Fin b
    /\ 0 <= a <= 100 * U
    /\ (80 * U <= a -> 80 * U <= b) /\ (a <= 80 * U -> b <= 80 * U)
    /\ (60 * U <= a -> 60 * U <= b) /\ (a <= 60 * U -> b <= 60 * U)
    /\ (40 * U <= a -> 40 * U <= b) /\ (a <= 40 * U -> b <= 40 * U).
Proof.
  destruct (clampf_range c) as (a & Ea & Ha).
  pose proof (centi_range a Ha) as Hn.
  destruct (lit_centi_range _ Hn) as (b & Eb & Hb).
  exists a, b. rewrite exact_clamp, (exact_round2_clamp _ _ Ea).
  change (round2f a) with (lit (round_half_even (100 * a) U) 100). rewrite Eb.
  assert (Hm : forall t, round2f (t * U) = Fin (t * U) ->
                (t * U <= a -> t * U <= b) /\ (a <= t * U -> b <= t * U)).
  { intros t Ht. split; intros H%round2f_mono; rewrite Ht in H;
      change (round2f a) with (lit (round_half_even (100 * a) U) 100) in H;
      rewrite Eb in H; simpl in H; lia. }
  destruct (Hm 80 round2f_80), (Hm 60 round2f_60), (Hm 40 round2f_40).
  repeat split; assumption || lia.
Qed.

(** C2, as amended: the tier is a threshold function of the clamped
    composite before rounding ([raw_score]): 1 from 80, 2 from 60, 3
    from 40, 4 below.  The returned score, rounded to two decimals,
    decides the tier when it is not exactly 80, 60 or 40: above 80 the
    tier is 1, between 60 and 80 it is 2 (79.99 maps to tier 2),
    between 40 and 60 it is 3, below 40 it is 4.  A returned score of
    exactly 80 (60, 40) comes with tier 1 or 2 (2 or 3, 3 or 4). *)
Theorem tier_thresholds f db r :
  compute_certificate_tier f db = Some r ->
  exists s, raw_score f = Some s /\ score r = py_round2 s
    /\ (tier r = 1 <-> py_ge s (PyInt 80) = true)
    /\ (tier r = 2 <-> py_ge s (PyInt 60) = true /\ py_lt s (PyInt 80) = true)
    /\ (tier r = 3 <-> py_ge s (PyInt 40) = true /\ py_lt s (PyInt 60) = true)
    /\ (tier r = 4 <-> py_lt s (PyInt 40) = true)
    /\ (py_gt (score r) (PyInt 80) = true -> tier r = 1)
    /\ (py_lt (score r) (PyInt 80) = true -> py_gt (score r) (PyInt 60) = true -> tier r = 2)
    /\ (py_lt (score r) (PyInt 60) = true -> py_gt (score r) (PyInt 40) = true -> tier r = 3)
    /\ (py_lt (score r) (PyInt 40) = true -> tier r = 4)
    /\ (exact (score r) = Fin (80 * U) -> tier r = 1 \/ tier r = 2)
    /\ (exact (score r) = Fin (60 * U) -> tier r = 2 \/ tier r = 3)
    /\ (exact (score r) = Fin (40 * U) -> tier r = 3 \/ tier r = 4).
Proof.
  rewrite compute_eq. destruct (raw_score f) as [s|] eqn:Es; [|discriminate].
  cbn [mbind option_bind]. intros [= <-]. exists s. split; [reflexivity|].
  split; [reflexivity|]. cbn [score tier].
  destruct (raw_score_clamped _ _ Es) as [c ->].
  destruct (clamp_units c) as (a & b & Ea & Eb & Ha & H80 & H80' & H60 & H60' & H40 & H40').
  pose proof U_pos as HU.
  unfold tier_of, py_ge, py_gt, py_le, py_lt. rewrite Ea, Eb. cbn [exact fle flt].
  destruct (Z.leb_spec (80 * U) a), (Z.leb_spec (60 * U) a), (Z.leb_spec (40 * U) a);
    rewrite ?Z.ltb_lt, ?Z.leb_le;
    repeat split; intros; try lia; try discriminate; auto;
    match goal with H : Fin _ = Fin _ |- _ => injection H as ?; lia end.
Qed.

(** C2 as stated fails: the composite 79.996 is returned as the score
    80.0, with tier 2. *)
Lemma rounded_score_80_tier_2 :
  exists r, compute_certificate_tier boundary_features None = Some r
            /\ exact (score r) = Fin (80 * U) /\ tier r = 2.
Proof. eexists. split; [vm_compute; reflexivity|]. split; vm_compute; reflexivity. Qed.


(** The composite 80 is returned as the score 80.0 with tier 1. *)
Lemma tier_thresholds_witness :
  exists r s,
    compute_certificate_tier threshold_features None = Some r
    /\ raw_score threshold_features = Some s
    /\ exact s = Fin (80 * U) /\ exact (score r) = Fin (80 * U) /\ tier r = 1.
Proof.
  assert (H : compute_certificate_tier threshold_features None
              = Some {| score := PyFloat (Fin (80 * U)); tier := 1 |})
    by (vm_compute; reflexivity).
  destruct (tier_thresholds threshold_features None _ H) as (s & Hs & _).
  eexists. exists s. split; [exact H|]. split; [exact Hs|].
  assert (Hs' : raw_score threshold_features = Some (PyFloat (Fin (80 * U))))
    by (vm_compute; reflexivity).
  rewrite Hs' in Hs. injection Hs as <-.
  repeat split; reflexivity.
Defined.

Local Close Scope Z_scope.
Local Open Scope string_scope.
Local Open Scope list_scope.

(** ** The matcher and what a regular expression matches *)

Lemma match_str_consumes icase p s s' :
  match_str icase p s = Some s' ->
  exists w, ms_rest s = w ++ ms_rest s' /\ ms_pre s' = rev w ++ ms_pre s
            /\ ms_groups s' = ms_groups s /\ length w = length p
            /\ Forall2 (fun a c => char_match icase a c = true) p w.
Proof.
  revert s. induction p as [|a p IH]; intros s; simpl.
  - intros [= <-]. exists []. repeat split; constructor.
  - destruct (ms_rest s) as [|c rest] eqn:Hr; [discriminate|].
    destruct (char_match icase a c) eqn:Hc; [|discriminate].
    intros (w & H1 & H2 & H3 & H4 & H5)%IH. simpl in *.
    exists (c :: w). simpl. rewrite H1, H2, H3, H4, <- app_assoc. simpl.
    repeat split. constructor; assumption.
Qed.

Lemma match_str_complete icase p s w rest :
  ms_rest s = w ++ rest ->
  Forall2 (fun a c => char_match icase a c = true) p w ->
  match_str icase p s = Some (MState (rev w ++ ms_pre s) rest (ms_groups s)).
Proof.
  intros Hr Hf. revert s Hr. induction Hf as [|a c p w Hc Hf IH]; intros s Hr; simpl in *.
  - rewrite <- Hr. destruct s; reflexivity.
  - rewrite Hr, Hc. rewrite (IH (advance s c (w ++ rest)) eq_refl). simpl.
    rewrite <- app_assoc. reflexivity.
Qed.

Lemma Matches_consumes icase r s s' :
  Matches icase r s s' ->
  exists w, ms_rest s = w ++ ms_rest s' /\ ms_pre s' = rev w ++ ms_pre s.
Proof.
  induction 1 as [p s s' H|neg items s c rest Hr Hm|r1 r2 s s1 s2 _ IH1 _ IH2
                 |r1 r2 s s' _ IH|r1 r2 s s' _ IH|hi r s|lo hi r s s1 s2 _ _ IH1 _ IH2
                 |n r s s' _ IH|s _].
  - destruct (match_str_consumes _ _ _ _ H) as (w & H1 & H2 & _). eauto.
  - exists [c]. simpl. auto.
  - destruct IH1 as (w1 & A1 & B1), IH2 as (w2 & A2 & B2).
    exists (w1 ++ w2). rewrite A1, A2, B2, B1, rev_app_distr, <- !app_assoc. auto.
  - exact IH.
  - exact IH.
  - exists []. auto.
  - destruct IH1 as (w1 & A1 & B1), IH2 as (w2 & A2 & B2).
    exists (w1 ++ w2). rewrite A1, A2, B2, B1, rev_app_distr, <- !app_assoc. auto.
  - exact IH.
  - exists []. auto.
Qed.

Lemma Matches_shorter icase r s s' :
  Matches icase r s s' -> length (ms_rest s') <= length (ms_rest s).
Proof.
  intros (w & H & _)%Matches_consumes. rewrite H, length_app. lia.
Qed.

Lemma Matches_nonempty icase r s s' :
  nonempty r = true -> Matches icase r s s' -> length (ms_rest s') < length (ms_rest s).
Proof.
  intros Hn H. revert Hn.
  induction H as [p s s' H|neg items s c rest Hr Hm|r1 r2 s s1 s2 H1 IH1 H2 IH2
                 |r1 r2 s s' _ IH|r1 r2 s s' _ IH|hi r s|lo hi r s s1 s2 _ H1 IH1 H2 IH2
                 |n r s s' _ IH|s _]; simpl; intros Hn.
  - destruct (match_str_consumes _ _ _ _ H) as (w & H1 & _ & _ & H4 & _).
    rewrite H1, length_app, H4. unfold chars.
    destruct p; [discriminate|]. simpl. lia.
  - rewrite Hr. simpl. lia.
  - apply Matches_shorter in H1 as L1. apply Matches_shorter in H2 as L2.
    apply orb_true_iff in Hn as [Hn|Hn]; [specialize (IH1 Hn)|specialize (IH2 Hn)]; lia.
  - apply andb_true_iff in Hn as [Hn _]. auto.
  - apply andb_true_iff in Hn as [_ Hn]. auto.
  - discriminate.
  - apply andb_true_iff in Hn as [_ Hn]. specialize (IH1 Hn).
    apply Matches_shorter in H2. lia.
  - auto.
  - discriminate.
Qed.

Lemma or_else_Some {A} (x y : option A) a :
  or_else x y = Some a -> x = Some a \/ (x = None /\ y = Some a).
Proof. destruct x; simpl; intros H; auto. Qed.

Lemma or_else_None {A} (x y : option A) :
  or_else x y = None -> x = None /\ y = None.
Proof. destruct x; simpl; intros H; [discriminate|auto]. Qed.

Lemma rep_sound icase r body :
  (forall s k x, body s k = Some x -> exists s', Matches icase r s s' /\ k s' = Some x) ->
  forall fuel lo hi s k x,
    rep body lo hi fuel s k = Some x ->
    exists s', Matches icase (RRepeat lo hi r) s s' /\ k s' = Some x.
Proof.
  intros Hb. induction fuel as [|fuel IH]; intros lo hi s k x H; simpl in H.
  - destruct lo; [|discriminate]. exists s. split; [constructor|assumption].
  - assert (Hstop : match lo with O => k s | S _ => None end = Some x ->
                    exists s', Matches icase (RRepeat lo hi r) s s' /\ k s' = Some x).
    { destruct lo; [|discriminate]. intros. exists s. split; [constructor|assumption]. }
    destruct hi as [[|h]|]; [auto| |].
    + apply or_else_Some in H as [H|[_ H]]; [|auto].
      apply Hb in H as (s1 & M1 & H). apply IH in H as (s2 & M2 & H).
      exists s2. split; [|assumption].
      eapply M_rep_more; [discriminate|eassumption|eassumption].
    + apply or_else_Some in H as [H|[_ H]]; [|auto].
      apply Hb in H as (s1 & M1 & H). apply IH in H as (s2 & M2 & H).
      exists s2. split; [|assumption].
      eapply M_rep_more; [discriminate|eassumption|eassumption].
Qed.

Theorem rmatch_sound icase r s k x :
  rmatch icase r s k = Some x -> exists s', Matches icase r s s' /\ k s' = Some x.
Proof.
  revert s k x. induction r as [p|neg items|r1 IH1 r2 IH2|r1 IH1 r2 IH2|lo hi r IH|n r IH|];
    intros s k x H; cbn [rmatch] in H.
  - destruct (match_str icase (chars p) s) as [s'|] eqn:E; [|discriminate]. simpl in H.
    exists s'. split; [constructor; assumption|assumption].
  - destruct (ms_rest s) as [|c rest] eqn:E; [discriminate|].
    destruct (set_match icase neg items c) eqn:Hm; [|discriminate].
    exists (advance s c rest). split; [constructor; assumption|assumption].
  - apply IH1 in H as (s1 & M1 & H). apply IH2 in H as (s2 & M2 & H).
    exists s2. split; [econstructor; eassumption|assumption].
  - apply or_else_Some in H as [H|[_ H]].
    + apply IH1 in H as (s' & M & H). exists s'. split; [apply M_alt_l|]; assumption.
    + apply IH2 in H as (s' & M & H). exists s'. split; [apply M_alt_r|]; assumption.
  - eapply rep_sound; [|eassumption]. intros. apply IH. assumption.
  - apply IH in H as (s' & M & H). exists (close_group n s s').
    split; [constructor; assumption|assumption].
  - destruct (at_boundary s) eqn:E; [|discriminate].
    exists s. split; [constructor; assumption|assumption].
Qed.

Lemma rep_complete icase r body :
  nonempty r = true ->
  (forall s k, body s k = None -> forall s', Matches icase r s s' -> k s' = None) ->
  forall fuel lo hi s k,
    length (ms_rest s) < fuel ->
    rep body lo hi fuel s k = None ->
    forall s', Matches icase (RRepeat lo hi r) s s' -> k s' = None.
Proof.
  intros Hn Hb. induction fuel as [|fuel IH]; intros lo hi s k Hf H s' M; [lia|].
  simpl in H.
  inversion M as [| | | | |hi' r' s0|lo' hi' r' s0 s1 s2 Hhi M1 M2| |]; subst.
  - destruct hi as [[|h]|]; [assumption| |]; apply or_else_None in H as [_ H]; assumption.
  - destruct hi as [[|h]|]; [congruence| |];
      apply or_else_None in H as [H _];
      specialize (Hb _ _ H _ M1); simpl in Hb;
      (eapply IH; [|exact Hb|exact M2]);
      pose proof (Matches_nonempty _ _ _ _ Hn M1); lia.
Qed.

Theorem rmatch_complete icase r s k :
  productive r = true ->
  rmatch icase r s k = None -> forall s', Matches icase r s s' -> k s' = None.
Proof.
  revert s k. induction r as [p|neg items|r1 IH1 r2 IH2|r1 IH1 r2 IH2|lo hi r IH|n r IH|];
    intros s k Hp H s' M; cbn [rmatch] in H; simpl in Hp.
  - inversion M; subst. rewrite H1 in H. exact H.
  - inversion M as [|neg' items' s0 c rest Hr Hm| | | | | | |]; subst.
    rewrite Hr, Hm in H. exact H.
  - apply andb_true_iff in Hp as [Hp1 Hp2].
    inversion M as [| |r1' r2' s0 s1 s2 M1 M2| | | | | |]; subst.
    specialize (IH1 _ _ Hp1 H _ M1). simpl in IH1. eapply IH2; eassumption.
  - apply andb_true_iff in Hp as [Hp1 Hp2]. apply or_else_None in H as [Ha Hb].
    inversion M; subst; [eapply IH1|eapply IH2]; eassumption.
  - apply andb_true_iff in Hp as [Hn Hp].
    eapply (rep_complete icase r); try eassumption; [|lia].
    intros. eapply IH; eassumption.
  - inversion M as [| | | | | | |n' r' s0 s1 M1|]; subst.
    specialize (IH _ _ Hp H _ M1). exact IH.
  - inversion M as [| | | | | | | |s0 Hb]; subst. rewrite Hb in H. exact H.
Qed.

(** ** The search *)

Lemma Matches_final icase r pre rest s' :
  Matches icase r (MState pre rest []) s' ->
  exists w post gs, rest = w ++ post /\ s' = MState (rev w ++ pre) post gs.
Proof.
  intros (w & H1 & H2)%Matches_consumes. simpl in *.
  exists w, (ms_rest s'), (ms_groups s'). split; [assumption|].
  destruct s'; simpl in *. congruence.
Qed.

Lemma search_from_Some icase r rpre rest m :
  productive r = true ->
  search_from icase r rpre rest = Some m ->
  exists skipped w post,
    rest = skipped ++ w ++ post
    /\ m_start m = (length rpre + length skipped)%nat /\ m_text m = w
    /\ Matches icase r (MState (rev skipped ++ rpre) (w ++ post) [])
                       (MState (rev w ++ rev skipped ++ rpre) post (m_groups m))
    /\ rmatch icase r (MState (rev skipped ++ rpre) (w ++ post) []) Some
       = Some (MState (rev w ++ rev skipped ++ rpre) post (m_groups m))
    /\ forall skipped' tail s',
         rest = skipped' ++ tail -> (length skipped' < length skipped)%nat ->
         ~ Matches icase r (MState (rev skipped' ++ rpre) tail []) s'.
Proof.
  intros Hp. revert rpre m. induction rest as [|c rest IH]; intros rpre m; cbn [search_from].
  - destruct (rmatch icase r (MState rpre [] []) Some) as [s'|] eqn:E; [|discriminate].
    intros [= <-]. pose proof E as E0. apply rmatch_sound in E as (s1 & M & [= ->]).
    destruct (Matches_final _ _ _ _ _ M) as (w & post & gs & Hw & ->).
    symmetry in Hw. apply app_eq_nil in Hw as [-> ->].
    exists [], [], []. simpl. repeat split; try lia; try assumption.
  - destruct (rmatch icase r (MState rpre (c :: rest) []) Some) as [s'|] eqn:E.
    + intros [= <-]. pose proof E as E0. apply rmatch_sound in E as (s1 & M & [= ->]).
      destruct (Matches_final _ _ _ _ _ M) as (w & post & gs & Hw & ->).
      assert (Hl : S (length rest) = (length w + length post)%nat)
        by (rewrite <- length_app, <- Hw; reflexivity).
      exists [], w, post. rewrite Hw in M, E0 |- *.
      cbn [m_start m_text m_groups ms_rest app rev].
      rewrite Hl.
      replace (length w + length post - length post)%nat with (length w) by lia.
      rewrite take_app_length. repeat split; try (simpl; lia).
      * exact M.
      * exact E0.
    + intros H. apply IH in H as (skipped & w & post & Hr & Hs & Ht & M & E0 & Hmin).
      exists (c :: skipped), w, post. simpl. rewrite <- !app_assoc. simpl.
      repeat split; try assumption.
      * rewrite Hr. reflexivity.
      * rewrite Hs. simpl. lia.
      * intros skipped' tail s1 Hsplit Hlen M1.
        destruct skipped' as [|c' skipped']; simpl in *.
        -- subst tail. pose proof (rmatch_complete _ _ _ _ Hp E _ M1). discriminate.
        -- injection Hsplit as <- Hsplit. rewrite <- app_assoc in M1. simpl in M1.
           eapply (Hmin skipped'); [exact Hsplit|lia|exact M1].
Qed.

Lemma search_from_None icase r rpre rest :
  productive r = true ->
  search_from icase r rpre rest = None ->
  forall skipped tail s',
    rest = skipped ++ tail -> ~ Matches icase r (MState (rev skipped ++ rpre) tail []) s'.
Proof.
  intros Hp. revert rpre. induction rest as [|c rest IH]; intros rpre; simpl.
  - destruct (rmatch icase r (MState rpre [] []) Some) as [s'|] eqn:E; [discriminate|].
    intros _ skipped tail s1 Hsplit M. symmetry in Hsplit.
    apply app_eq_nil in Hsplit as [-> ->]. simpl in M.
    pose proof (rmatch_complete _ _ _ _ Hp E _ M). discriminate.
  - destruct (rmatch icase r (MState rpre (c :: rest) []) Some) as [s'|] eqn:E; [discriminate|].
    intros H skipped tail s1 Hsplit M.
    destruct skipped as [|c' skipped]; simpl in *.
    + subst tail. pose proof (rmatch_complete _ _ _ _ Hp E _ M). discriminate.
    + injection Hsplit as <- Hsplit. rewrite <- app_assoc in M. simpl in M.
      eapply (IH _ H skipped); [exact Hsplit|exact M].
Qed.

(** [re.search] finds nothing exactly when the expression matches
    nowhere in the text. *)
Theorem re_search_None r text icase :
  productive r = true ->
  re_search r text icase = None <-> ~ occurs icase r (chars text).
Proof.
  intros Hp. unfold re_search, occurs, matches_at, state_at. split.
  - intros H (pre & w & post & Ht & gs & M).
    eapply (search_from_None _ _ _ _ Hp H pre); [exact Ht|].
    rewrite app_nil_r. exact M.
  - intros H. destruct (search_from icase r [] (chars text)) as [m|] eqn:E; [|reflexivity].
    exfalso. apply H.
    apply (search_from_Some _ _ _ _ _ Hp) in E as (pre & w & post & Ht & _ & _ & M & _).
    exists pre, w, post. split; [exact Ht|]. exists (m_groups m).
    rewrite app_nil_r in M. exact M.
Qed.

(** The match [re.search] returns is a match of the expression, and
    the expression matches at no earlier position. *)
Theorem re_search_Some r text icase m :
  productive r = true ->
  re_search r text icase = Some m ->
  exists pre post,
    chars text = pre ++ m_text m ++ post /\ m_start m = length pre
    /\ Matches icase r (state_at pre (m_text m ++ post))
                       (MState (rev (m_text m) ++ rev pre) post (m_groups m))
    /\ rmatch icase r (state_at pre (m_text m ++ post)) Some
       = Some (MState (rev (m_text m) ++ rev pre) post (m_groups m))
    /\ forall pre' w' post',
         chars text = pre' ++ w' ++ post' -> matches_at icase r pre' w' post' ->
         (length pre <= length pre')%nat.
Proof.
  intros Hp H. unfold re_search in H.
  apply (search_from_Some _ _ _ _ _ Hp) in H
    as (pre & w & post & Ht & Hs & Hw & M & E & Hmin).
  exists pre, post. subst w. rewrite app_nil_r in M, E. simpl in Hs.
  repeat split; try assumption.
  intros pre' w' post' Ht' (gs & M').
  destruct (Nat.le_gt_cases (length pre) (length pre')) as [|Hlt]; [assumption|exfalso].
  eapply (Hmin pre'); [exact Ht'|exact Hlt|]. rewrite app_nil_r. exact M'.
Qed.

(** ** Strings and substrings *)

Lemma chars_str l : chars (str l) = l.
Proof. apply list_ascii_of_string_of_list_ascii. Qed.

Lemma str_chars s : str (chars s) = s.
Proof. apply string_of_list_ascii_of_string. Qed.

Lemma chars_lower s : chars (lower s) = map lower_char (chars s).
Proof. unfold lower. apply chars_str. Qed.

Lemma starts_with_spec p l : starts_with p l = true <-> exists post, l = p ++ post.
Proof.
  revert l. induction p as [|a p IH]; intros l; simpl.
  - split; [eauto|reflexivity].
  - destruct l as [|c l].
    + split; [discriminate|]. intros [post H]. discriminate.
    + rewrite andb_true_iff, IH. split.
      * intros [Hc [post ->]]. apply Ascii.eqb_eq in Hc as ->. eauto.
      * intros [post [= -> ->]]. split; [apply Ascii.eqb_refl|eauto].
Qed.

Lemma occurs_in_spec p l : occurs_in p l = true <-> exists pre post, l = pre ++ p ++ post.
Proof.
  induction l as [|c l IH].
  - simpl. rewrite orb_false_r, starts_with_spec. split.
    + intros [post H]. exists [], post. exact H.
    + intros (pre & post & H). destruct pre; [eauto|discriminate].
  - cbn [occurs_in]. rewrite orb_true_iff, starts_with_spec, IH. split.
    + intros [[post H]|(pre & post & H)].
      * exists [], post. exact H.
      * exists (c :: pre), post. rewrite H. reflexivity.
    + intros (pre & post & H). destruct pre as [|c' pre]; simpl in H.
      * left. eauto.
      * injection H as -> H. right. eauto.
Qed.

(** [w in t] holds exactly when [w] occurs in [t]. *)
Theorem contains_spec w t : contains w t = true <-> substring w t.
Proof. apply occurs_in_spec. Qed.

(** ** The issuer resolver (C4) *)

Lemma first_alias_hit pre alias name post text :
  contains alias text = true ->
  (forall a n, (a, n) ∈ pre -> contains a text = false) ->
  first_alias (pre ++ (alias, name) :: post) text = Some name.
Proof.
  intros Hhit. induction pre as [|[a n] pre IH]; intros Hmiss; simpl.
  - rewrite Hhit. reflexivity.
  - rewrite (Hmiss a n) by constructor. apply IH.
    intros a' n' H. apply (Hmiss a' n'). constructor. exact H.
Qed.

Lemma db_get_absent db name d : name ∉ map fst db -> db_get db name d = d.
Proof.
  induction db as [|[k v] db IH]; simpl; intros H; [reflexivity|].
  destruct (String.eqb_spec k name) as [->|Hne].
  - exfalso. apply H. constructor.
  - apply IH. intros Hin. apply H. constructor. exact Hin.
Qed.

Lemma key_in_db (db : IssuerDb) name v : (name, v) ∈ db -> name ∈ map fst db.
Proof.
  intros H%list_elem_of_In. apply list_elem_of_In.
  change name with (fst (name, v)). apply in_map. exact H.
Qed.

Lemma db_get_present db name v d :
  NoDup (map fst db) -> (name, v) ∈ db -> db_get db name d = v.
Proof.
  induction db as [|[k v'] db IH]; simpl; intros Hnd Hin.
  - inversion Hin.
  - apply NoDup_cons in Hnd as [Hk Hnd].
    destruct (String.eqb_spec k name) as [->|Hne].
    + apply elem_of_cons in Hin as [[= ->]|Hin]; [reflexivity|].
      exfalso. apply Hk. eapply key_in_db. exact Hin.
    + apply elem_of_cons in Hin as [[= -> ->]|Hin]; [congruence|]. auto.
Qed.

(** C4: when an alias of the table occurs in the lowercased text, the
    resolver returns the canonical key of the first such alias in the
    order of the table, with the reputation the table holds for that
    key (25 when the key is absent), whatever the fuzzy matcher would
    return on any query. *)
Theorem alias_precedence
    (extractOne : string -> list string -> Z -> option (string * pynum * nat))
    (ocr_text : string) (issuer_db : IssuerDb) pre alias name post :
  ISSUER_ALIASES = pre ++ (alias, name) :: post ->
  substring alias (lower ocr_text) ->
  (forall a n, (a, n) ∈ pre -> ~ substring a (lower ocr_text)) ->
  fuzzy_lookup_issuer extractOne ocr_text issuer_db = (Some name, db_get issuer_db name 25%Z)
  /\ (name ∉ map fst issuer_db -> db_get issuer_db name 25 = 25%Z)
  /\ (forall v, NoDup (map fst issuer_db) -> (name, v) ∈ issuer_db ->
                db_get issuer_db name 25%Z = v).
Proof.
  intros Htab Hhit Hmiss. split; [|split].
  - unfold fuzzy_lookup_issuer. rewrite Htab.
    rewrite (first_alias_hit pre alias name post); [reflexivity|apply contains_spec, Hhit|].
    intros a n Hin. destruct (contains a (lower ocr_text)) eqn:E; [|reflexivity].
    exfalso. apply (Hmiss a n Hin). apply contains_spec, E.
  - apply db_get_absent.
  - intros v. apply db_get_present.
Qed.

(** The text names IBM through the alias [ibm skills], and a fuzzy
    matcher that would vote for [udemy] is not heard. *)
Lemma alias_precedence_witness :
  fuzzy_lookup_issuer (fun _ _ _ => Some ("udemy", PyInt 100, 0%nat))
    "IBM Skills Network - Udemy" ISSUER_DB = (Some "ibm", 70%Z).
Proof.
  refine (proj1 (alias_precedence _ "IBM Skills Network - Udemy" ISSUER_DB
            [("bm developer skills network", "ibm")] "ibm skills" "ibm" _ eq_refl _ _)).
  - exists [], (chars " network - udemy"). reflexivity.
  - intros a n Hin. apply list_elem_of_singleton in Hin as [= -> ->].
    intros H%contains_spec. vm_compute in H. discriminate.
Defined.

(** ** Reading a match off a regular expression *)

Lemma Matches_seq_inv icase r1 r2 s s' :
  Matches icase (RSeq r1 r2) s s' -> exists s1, Matches icase r1 s s1 /\ Matches icase r2 s1 s'.
Proof. inversion 1; subst; eauto. Qed.

Lemma Matches_alt_inv icase r1 r2 s s' :
  Matches icase (RAlt r1 r2) s s' -> Matches icase r1 s s' \/ Matches icase r2 s s'.
Proof. inversion 1; subst; auto. Qed.

Lemma Matches_group_inv icase n r s s' :
  Matches icase (RGroup n r) s s' -> exists s1, Matches icase r s s1 /\ s' = close_group n s s1.
Proof. inversion 1; subst; eauto. Qed.

Lemma Matches_wordb_inv icase s s' :
  Matches icase RWordB s s' -> s' = s /\ at_boundary s = true.
Proof. inversion 1; subst; auto. Qed.

Lemma Matches_str_inv icase p s s' :
  Matches icase (RStr p) s s' -> match_str icase (chars p) s = Some s'.
Proof. inversion 1; subst; auto. Qed.

Lemma Matches_opt_inv icase r s s' :
  Matches icase (ROpt r) s s' -> s' = s \/ Matches icase r s s'.
Proof.
  unfold ROpt. inversion 1 as [| | | | |hi r' s0|lo hi r' s0 s1 s2 Hhi M1 M2| |]; subst; [auto|].
  right. simpl in M2.
  inversion M2 as [| | | | |hi r' s0|lo hi r' s0 s3 s4 Hhi' M3 M4| |]; subst;
    [assumption|congruence].
Qed.

Lemma Matches_opt_skip icase r s : Matches icase (ROpt r) s s.
Proof. apply M_rep_stop. Qed.

Lemma Matches_opt_take icase r s s' : Matches icase r s s' -> Matches icase (ROpt r) s s'.
Proof.
  intros M. eapply M_rep_more; [discriminate|exact M|]. simpl. apply M_rep_stop.
Qed.

(** A repeated character class matches a run of its characters. *)
Lemma Matches_rep_set_inv icase neg items lo hi s s' :
  Matches icase (RRepeat lo hi (RSet neg items)) s s' ->
  exists w, ms_rest s = w ++ ms_rest s' /\ ms_pre s' = rev w ++ ms_pre s
            /\ ms_groups s' = ms_groups s
            /\ Forall (fun c => set_match icase neg items c = true) w
            /\ (lo <= length w)%nat /\ (forall h, hi = Some h -> (length w <= h)%nat).
Proof.
  remember (RRepeat lo hi (RSet neg items)) as r eqn:Hr. intros M. revert lo hi Hr.
  induction M as [| | | | |hi0 r0 s|lo0 hi0 r0 s s1 s2 Hhi M1 _ M2 IH2| |];
    intros lo hi Hr; try discriminate; injection Hr as E1 E2 E3; subst.
  - exists []. repeat split; simpl; try constructor; intros; lia.
  - destruct (IH2 _ _ eq_refl) as (w & A & B & C & D & E & F).
    inversion M1 as [|neg' items' s0 c rest Hc Hm| | | | | | |]; subst.
    exists (c :: w). simpl in *. rewrite Hc, A, B, C, <- app_assoc. simpl.
    repeat split; [constructor; assumption|lia|].
    intros h ->. destruct h as [|h]; [congruence|]. specialize (F h eq_refl). lia.
Qed.

Lemma Matches_rep_set icase neg items lo hi s w post :
  ms_rest s = w ++ post ->
  Forall (fun c => set_match icase neg items c = true) w ->
  (lo <= length w)%nat -> (forall h, hi = Some h -> (length w <= h)%nat) ->
  Matches icase (RRepeat lo hi (RSet neg items)) s
          (MState (rev w ++ ms_pre s) post (ms_groups s)).
Proof.
  intros Hr Hf. revert s lo hi Hr. induction Hf as [|c w Hc Hf IH]; intros s lo hi Hr Hlo Hhi.
  - simpl in *. replace lo with 0%nat by lia. rewrite <- Hr. destruct s. apply M_rep_stop.
  - eapply M_rep_more.
    + intros ->. specialize (Hhi 0%nat eq_refl). simpl in Hhi. lia.
    + eapply M_set; [exact Hr|exact Hc].
    + specialize (IH (advance s c (w ++ post)) (pred lo) (pred <$> hi) eq_refl).
      simpl in *. rewrite <- app_assoc. simpl. apply IH; [lia|].
      intros h Hh. destruct hi as [h'|]; [|discriminate]. injection Hh as <-.
      specialize (Hhi h' eq_refl). lia.
Qed.

Lemma head_rev_last {A} (l : list A) : head (rev l) = last l.
Proof.
  induction l as [|a l IH] using rev_ind; [reflexivity|].
  rewrite rev_app_distr, last_snoc. reflexivity.
Qed.

Lemma at_boundary_state pre rest gs :
  at_boundary (MState (rev pre) rest gs) = boundary pre rest.
Proof. unfold at_boundary, boundary. simpl. rewrite head_rev_last. reflexivity. Qed.

Lemma char_match_exact a c : char_match false a c = true <-> a = c.
Proof. apply Ascii.eqb_eq. Qed.

Lemma Forall2_exact p w :
  Forall2 (fun a c => char_match false a c = true) p w <-> w = p.
Proof.
  split.
  - induction 1 as [|a c p w Hc _ IH]; [reflexivity|].
    apply char_match_exact in Hc. congruence.
  - intros ->. induction p; constructor; [apply Ascii.eqb_refl|assumption].
Qed.

(** ** Whole words *)

(** [w] occurs in [t] between two word boundaries. *)
Lemma whole_word_matches w pre x post :
  matches_at false (whole_word w) pre x post
  <-> x = chars w /\ boundary pre (x ++ post) = true /\ boundary (pre ++ x) post = true.
Proof.
  unfold matches_at, whole_word, state_at. split.
  - intros (gs & M).
    apply Matches_seq_inv in M as (s2 & M & M3).
    apply Matches_seq_inv in M as (s1 & M1 & M2).
    apply Matches_wordb_inv in M1 as [-> B1]. apply Matches_wordb_inv in M3 as [E B3].
    apply Matches_str_inv in M2. subst s2.
    rewrite at_boundary_state in B1.
    destruct (match_str_consumes _ _ _ _ M2) as (w' & A & _ & _ & _ & F). simpl in A.
    apply app_inv_tail in A as ->. apply Forall2_exact in F as ->.
    rewrite <- rev_app_distr, at_boundary_state in B3. auto.
  - intros (-> & B1 & B3). exists [].
    eapply M_seq; [eapply M_seq|].
    + apply M_wordb. rewrite at_boundary_state. exact B1.
    + apply M_str.
      apply (match_str_complete false (chars w) (MState (rev pre) (chars w ++ post) [])
               (chars w) post eq_refl).
      apply Forall2_exact. reflexivity.
    + simpl. apply M_wordb. rewrite <- rev_app_distr, at_boundary_state. exact B3.
Qed.

Lemma whole_word_occurs w t :
  occurs false (whole_word w) (chars t) <-> whole_word_in w t.
Proof.
  unfold occurs, whole_word_in. split.
  - intros (pre & x & post & Ht & (-> & B1 & B3)%whole_word_matches). eauto.
  - intros (pre & post & Ht & B1 & B3). exists pre, (chars w), post.
    split; [exact Ht|]. apply whole_word_matches. auto.
Qed.

Lemma whole_word_productive w : productive (whole_word w) = true.
Proof. reflexivity. Qed.

Lemma found_skills_spec skills lower_text skill :
  skill ∈ found_skills skills lower_text
  <-> skill ∈ skills /\ whole_word_in (lower skill) lower_text.
Proof.
  induction skills as [|k skills IH]; simpl.
  - split; [inversion 1|intros [H _]; inversion H].
  - destruct (re_search (whole_word (lower k)) lower_text false) as [m|] eqn:E.
    + assert (Hk : whole_word_in (lower k) lower_text).
      { apply whole_word_occurs.
        destruct (re_search_Some _ _ _ _ (whole_word_productive _) E)
          as (pre & post & Ht & _ & M & _).
        exists pre, (m_text m), post. split; [exact Ht|]. exists (m_groups m). exact M. }
      rewrite !elem_of_cons, IH. split.
      * intros [->|[H1 H2]]; auto.
      * intros [[->|H1] H2]; auto.
    + assert (Hk : ~ whole_word_in (lower k) lower_text).
      { rewrite <- whole_word_occurs. apply re_search_None; [reflexivity|exact E]. }
      rewrite elem_of_cons, IH. split.
      * intros [H1 H2]; auto.
      * intros [[->|H1] H2]; [contradiction|auto].
Qed.

Ltac each_ascii c :=
  destruct c as [[] [] [] [] [] [] [] []].

Lemma upper_or_digit_alnum c :
  set_match true false [CRange "A" "Z"; CRange "0" "9"] c = is_alnum c.
Proof. each_ascii c; reflexivity. Qed.

Lemma non_space_match icase c : set_match icase true [CSpace] c = negb (is_space c).
Proof. unfold set_match. simpl. rewrite orb_false_r. reflexivity. Qed.

Lemma alnum_not_space c : is_alnum c = true -> is_space c = false.
Proof. each_ascii c; simpl; intros H; try reflexivity; discriminate H. Qed.

Lemma alnum_word c : is_alnum c = true -> is_word c = true.
Proof. unfold is_word. intros ->. reflexivity. Qed.

Lemma char_match_lower a c : char_match true a c = true <-> lower_char a = lower_char c.
Proof. apply Ascii.eqb_eq. Qed.

Lemma Forall2_lower p w :
  Forall2 (fun a c => char_match true a c = true) p w
  <-> map lower_char w = map lower_char p.
Proof.
  split.
  - induction 1 as [|a c p w Hc _ IH]; [reflexivity|].
    apply char_match_lower in Hc. simpl. congruence.
  - revert w. induction p as [|a p IH]; intros [|c w]; simpl; intros H; try discriminate.
    + constructor.
    + injection H as Hc H. constructor; [apply char_match_lower; auto|auto].
Qed.

Lemma at_boundary_eq s : at_boundary s = boundary (rev (ms_pre s)) (ms_rest s).
Proof.
  unfold at_boundary, boundary. rewrite <- head_rev_last, rev_involutive. reflexivity.
Qed.

(** A greedy repetition of a character class takes the whole run when
    what follows cannot fail. *)
Lemma rep_run_total (P : ascii -> bool) (body : matcher) k :
  (forall s k', body s k' = match ms_rest s with
                            | c :: rest => if P c then k' (advance s c rest) else None
                            | [] => None
                            end) ->
  (forall s, k s <> None) ->
  forall rest pre gs fuel,
    (length rest < fuel)%nat ->
    exists run post,
      rest = run ++ post
      /\ Forall (fun c => P c = true) run /\ stops P post
      /\ rep body 0 None fuel (MState pre rest gs) k = k (MState (rev run ++ pre) post gs).
Proof.
  intros Hb Hk. induction rest as [|c rest IH]; intros pre gs fuel Hf.
  - exists [], []. destruct fuel as [|fuel]; [simpl in Hf; lia|].
    repeat split; try constructor. cbn [rep]. rewrite Hb. reflexivity.
  - destruct fuel as [|fuel]; [simpl in Hf; lia|].
    cbn [rep]. rewrite Hb. cbn [ms_rest pred fmap option_fmap option_map].
    destruct (P c) eqn:Hc.
    + destruct (IH (c :: pre) gs fuel ltac:(simpl in Hf; lia)) as (run & post & A & B & C & D).
      exists (c :: run), post. simpl. rewrite <- app_assoc. simpl.
      repeat split; [congruence|constructor; assumption|assumption|].
      unfold advance. simpl. rewrite D.
      destruct (k (MState (rev run ++ c :: pre) post gs)) eqn:E; [reflexivity|].
      exfalso. eapply Hk, E.
    + exists [], (c :: rest). simpl. repeat split; [constructor|assumption].
Qed.

Lemma rmatch_repeat icase lo hi r s k :
  rmatch icase (RRepeat lo hi r) s k
  = rep (rmatch icase r) lo hi (S (length (ms_rest s))) s k.
Proof. reflexivity. Qed.

Lemma rmatch_set icase neg items s k :
  rmatch icase (RSet neg items) s k
  = match ms_rest s with
    | c :: rest => if set_match icase neg items c then k (advance s c rest) else None
    | [] => None
    end.
Proof. reflexivity. Qed.

Lemma rep_more body lo fuel s k :
  rep body lo None (S fuel) s k
  = or_else (body s (fun s' => rep body (pred lo) None fuel s' k))
            (match lo with O => k s | S _ => None end).
Proof. reflexivity. Qed.

Lemma rplus_set_total icase neg items k s x :
  (forall s, k s <> None) ->
  rmatch icase (RPlus (RSet neg items)) s k = Some x ->
  exists run post,
    ms_rest s = run ++ post /\ run <> []
    /\ Forall (fun c => set_match icase neg items c = true) run
    /\ stops (set_match icase neg items) post
    /\ k (MState (rev run ++ ms_pre s) post (ms_groups s)) = Some x.
Proof.
  intros Hk. unfold RPlus. rewrite rmatch_repeat, rep_more, rmatch_set.
  destruct (ms_rest s) as [|c rest] eqn:Hr; [discriminate|].
  destruct (set_match icase neg items c) eqn:Hc; [|discriminate].
  unfold advance. cbn [pred length].
  destruct (rep_run_total (set_match icase neg items) (rmatch icase (RSet neg items)) k
              ltac:(reflexivity) Hk rest (c :: ms_pre s) (ms_groups s)
              (S (length rest)) ltac:(lia)) as (run & post & A & B & C & D).
  rewrite D. unfold or_else.
  destruct (k (MState (rev run ++ c :: ms_pre s) post (ms_groups s))) eqn:E;
    [|exfalso; eapply Hk, E].
  intros [= <-]. exists (c :: run), post. simpl. rewrite <- app_assoc. simpl.
  repeat split; [congruence|discriminate|constructor; assumption|assumption|assumption].
Qed.

Lemma reads_refl s : reads s [] s.
Proof. repeat split. Qed.

Lemma reads_trans s w1 s1 w2 s2 :
  reads s w1 s1 -> reads s1 w2 s2 -> reads s (w1 ++ w2) s2.
Proof.
  intros (A1 & B1 & C1) (A2 & B2 & C2). repeat split.
  - rewrite A1, A2, app_assoc. reflexivity.
  - rewrite B2, B1, rev_app_distr, app_assoc. reflexivity.
  - congruence.
Qed.

Lemma reads_state s w s' :
  reads s w s' -> s' = MState (rev w ++ ms_pre s) (ms_rest s') (ms_groups s).
Proof. intros (A & B & C). destruct s'; simpl in *. congruence. Qed.

Lemma reads_split s w1 w2 s' :
  reads s (w1 ++ w2) s' ->
  let s1 := MState (rev w1 ++ ms_pre s) (w2 ++ ms_rest s') (ms_groups s) in
  reads s w1 s1 /\ reads s1 w2 s'.
Proof.
  intros (A & B & C). simpl. repeat split; simpl.
  - rewrite A, app_assoc. reflexivity.
  - rewrite B, rev_app_distr, app_assoc. reflexivity.
  - assumption.
Qed.

Lemma str_matches icase p s s' :
  Matches icase (RStr p) s s'
  <-> exists w, reads s w s' /\ Forall2 (fun a c => char_match icase a c = true) (chars p) w.
Proof.
  split.
  - intros H%Matches_str_inv%match_str_consumes. destruct H as (w & A & B & C & _ & D).
    exists w. repeat split; assumption.
  - intros (w & R & F). constructor. rewrite (reads_state _ _ _ R).
    apply match_str_complete; [apply R|exact F].
Qed.

Lemma str_matches_icase p s s' :
  Matches true (RStr p) s s'
  <-> exists w, reads s w s' /\ map lower_char w = map lower_char (chars p).
Proof.
  rewrite str_matches. split; intros (w & R & F); exists w; (split; [exact R|]);
    apply Forall2_lower; exact F.
Qed.

Lemma scheme_matches s s' :
  Matches true scheme_re s s' <-> exists w, reads s w s' /\ scheme_text w.
Proof.
  unfold scheme_re, scheme_text. split.
  - intros (s2 & (s1 & (w1 & R1 & E1)%str_matches_icase & O)%Matches_seq_inv
                 & (w3 & R3 & E3)%str_matches_icase)%Matches_seq_inv.
    apply Matches_opt_inv in O as [->|(w2 & R2 & E2)%str_matches_icase].
    + exists (w1 ++ w3). split; [eapply reads_trans; eassumption|].
      left. rewrite map_app, E1, E3. reflexivity.
    + exists ((w1 ++ w2) ++ w3).
      split; [eapply reads_trans; [eapply reads_trans|]; eassumption|].
      right. rewrite !map_app, E1, E2, E3. reflexivity.
  - intros (w & R & [E|E]).
    + change (chars "http://") with (chars "http" ++ chars "://") in E.
      apply map_eq_app in E as (w1 & w3 & -> & E1 & E3).
      apply reads_split in R as [R1 R3].
      eapply M_seq; [eapply M_seq|].
      * apply str_matches_icase. exists w1. split; [exact R1|exact E1].
      * apply Matches_opt_skip.
      * apply str_matches_icase. exists w3. split; [exact R3|exact E3].
    + change (chars "https://") with ((chars "http" ++ chars "s") ++ chars "://") in E.
      apply map_eq_app in E as (w12 & w3 & -> & E12 & E3).
      apply map_eq_app in E12 as (w1 & w2 & -> & E1 & E2).
      apply reads_split in R as [R12 R3]. apply reads_split in R12 as [R1 R2].
      eapply M_seq; [eapply M_seq|].
      * apply str_matches_icase. exists w1. split; [exact R1|exact E1].
      * apply Matches_opt_take, str_matches_icase. exists w2. split; [exact R2|exact E2].
      * apply str_matches_icase. exists w3. split; [exact R3|exact E3].
Qed.

Lemma run_matches icase neg items lo hi s s' :
  Matches icase (RRepeat lo hi (RSet neg items)) s s'
  <-> exists w, reads s w s'
                /\ Forall (fun c => set_match icase neg items c = true) w
                /\ (lo <= length w)%nat /\ (forall h, hi = Some h -> (length w <= h)%nat).
Proof.
  split.
  - intros (w & A & B & C & D)%Matches_rep_set_inv. exists w. repeat split; tauto.
  - intros (w & R & F & L & H). rewrite (reads_state _ _ _ R).
    apply Matches_rep_set; [apply R|assumption..].
Qed.

Lemma Forall_non_space icase w :
  Forall (fun c => set_match icase true [CSpace] c = true) w
  <-> Forall (fun c => is_space c = false) w.
Proof.
  apply Forall_iff. intros c. rewrite non_space_match. apply negb_true_iff.
Qed.

Lemma Forall_upper_or_digit w :
  Forall (fun c => set_match true false [CRange "A" "Z"; CRange "0" "9"] c = true) w
  <-> Forall (fun c => is_alnum c = true) w.
Proof. apply Forall_iff. intros c. rewrite upper_or_digit_alnum. reflexivity. Qed.

Lemma url_matches s s' :
  Matches true url_re s s' <-> exists w, reads s w s' /\ url_text w.
Proof.
  unfold url_re, url_text, RPlus, non_space. split.
  - intros (s1 & (w1 & R1 & E1)%scheme_matches
               & (w2 & R2 & F & L & _)%run_matches)%Matches_seq_inv.
    exists (w1 ++ w2). split; [eapply reads_trans; eassumption|].
    exists w1, w2. repeat split; [exact E1| |apply Forall_non_space in F; exact F].
    intros ->. simpl in L. lia.
  - intros (w & R & w1 & w2 & -> & E1 & N & F).
    apply reads_split in R as [R1 R2].
    eapply M_seq.
    + apply scheme_matches. exists w1. split; [exact R1|exact E1].
    + apply run_matches. exists w2. split; [exact R2|].
      split; [apply Forall_non_space; exact F|]. split; [|discriminate].
      destruct w2; [congruence|simpl; lia].
Qed.

Lemma code_matches s s' :
  Matches true code_re s s'
  <-> exists w, reads s w s' /\ code_text w
                /\ at_boundary s = true /\ at_boundary s' = true.
Proof.
  unfold code_re, code_text, upper_or_digit. split.
  - intros (s2 & (s1 & [-> B1]%Matches_wordb_inv
                     & (w & R & F & L & H)%run_matches)%Matches_seq_inv
                & [-> B2]%Matches_wordb_inv)%Matches_seq_inv.
    exists w. split; [exact R|]. repeat split; try assumption.
    + apply (H 12%nat eq_refl).
    + apply Forall_upper_or_digit, F.
  - intros (w & R & ([L1 L2] & F) & B1 & B2).
    eapply M_seq; [eapply M_seq|].
    + constructor. exact B1.
    + apply run_matches. exists w. split; [exact R|].
      split; [apply Forall_upper_or_digit, F|]. split; [exact L1|].
      intros h [= <-]. exact L2.
    + constructor. exact B2.
Qed.

Lemma generic_regex_eq : GENERIC_VERIFY_REGEX = RGroup 1 (url_re ∥ code_re)%re.
Proof. reflexivity. Qed.

Lemma generic_productive : productive GENERIC_VERIFY_REGEX = true.
Proof. reflexivity. Qed.

Lemma reads_at pre w post s' :
  ms_pre s' = rev w ++ rev pre -> ms_rest s' = post ->
  forall w', reads (state_at pre (w ++ post)) w' s' -> w' = w.
Proof.
  intros Hp Hr w' (A & B & _). simpl in A. rewrite Hr in A.
  apply app_inv_tail in A. congruence.
Qed.

(** What the pattern of the links matches, at a given place of a text. *)
Lemma generic_matches pre w post :
  matches_at true GENERIC_VERIFY_REGEX pre w post <-> link_at pre w post.
Proof.
  unfold matches_at, link_at. rewrite generic_regex_eq. split.
  - intros (gs & (s1 & M & E)%Matches_group_inv).
    assert (Hp : ms_pre s1 = rev w ++ rev pre)
      by (apply (f_equal ms_pre) in E; symmetry; exact E).
    assert (Hr : ms_rest s1 = post)
      by (apply (f_equal ms_rest) in E; symmetry; exact E).
    apply Matches_alt_inv in M as [(w' & R & U)%url_matches|(w' & R & C & B1 & B2)%code_matches];
      pose proof (reads_at _ _ _ _ Hp Hr _ R) as ->.
    + left. exact U.
    + right. split; [exact C|].
      rewrite at_boundary_eq in B1, B2. simpl in B1. rewrite rev_involutive in B1.
      rewrite Hp, Hr, <- rev_app_distr, rev_involutive in B2. split; assumption.
  - set (s := state_at pre (w ++ post)). set (s1 := MState (rev w ++ rev pre) post []).
    assert (R : reads s w s1) by (repeat split).
    intros H. exists (ms_groups (close_group 1 s s1)).
    change (Matches true (RGroup 1 (RAlt url_re code_re)) s (close_group 1 s s1)).
    constructor. destruct H as [U|(C & B1 & B2)].
    + apply M_alt_l, url_matches. exists w. split; assumption.
    + apply M_alt_r, code_matches. exists w. split; [exact R|]. split; [exact C|].
      rewrite !at_boundary_eq. simpl. rewrite <- rev_app_distr, !rev_involutive.
      split; assumption.
Qed.

Lemma rmatch_seq icase r1 r2 s k :
  rmatch icase (RSeq r1 r2) s k = rmatch icase r1 s (fun s' => rmatch icase r2 s' k).
Proof. reflexivity. Qed.

Lemma rmatch_alt icase r1 r2 s k :
  rmatch icase (RAlt r1 r2) s k = or_else (rmatch icase r1 s k) (rmatch icase r2 s k).
Proof. reflexivity. Qed.

Lemma rmatch_group icase n r s k :
  rmatch icase (RGroup n r) s k = rmatch icase r s (fun s' => k (close_group n s s')).
Proof. reflexivity. Qed.

Lemma stops_non_space icase post : stops (set_match icase true [CSpace]) post -> at_blank post.
Proof.
  destruct post as [|c post]; cbn [stops at_blank]; [trivial|].
  rewrite non_space_match. apply negb_false_iff.
Qed.

Lemma url_productive : productive url_re = true.
Proof. reflexivity. Qed.

(** The match the backtracking matcher takes for the pattern of the
    links: the URL alternative first, its last part greedy. *)
Lemma generic_rmatch pre w post gs :
  rmatch true GENERIC_VERIFY_REGEX (state_at pre (w ++ post)) Some
  = Some (MState (rev w ++ rev pre) post gs) ->
  link_taken pre w post.
Proof.
  rewrite generic_regex_eq, rmatch_group, rmatch_alt.
  set (s := state_at pre (w ++ post)).
  intros [H|[N H]]%or_else_Some.
  - left. unfold url_re in H. rewrite rmatch_seq in H.
    apply rmatch_sound in H as (s1 & (w1 & R1 & E1)%scheme_matches & H).
    apply rplus_set_total in H as (run & post' & A & B & C & D & E); [|discriminate].
    injection E as Ep Er _. subst post'.
    destruct R1 as (R1 & _ & _). rewrite A in R1. simpl in R1.
    rewrite app_assoc in R1. apply app_inv_tail in R1. subst w.
    split; [|eapply stops_non_space, D].
    exists w1, run. repeat split; [exact E1|exact B|apply Forall_non_space in C; exact C].
  - right. apply rmatch_sound in H as (s1 & (w' & R & C & B1 & B2)%code_matches & [= Ep Er _]).
    pose proof (reads_at _ _ _ _ Ep Er _ R) as ->.
    split; [exact C|].
    rewrite at_boundary_eq in B1, B2. simpl in B1. rewrite rev_involutive in B1.
    rewrite Ep, Er, <- rev_app_distr, rev_involutive in B2.
    repeat split; try assumption.
    intros (w' & post' & Hs & U).
    pose proof (rmatch_complete _ _ _ _ url_productive N
                  (MState (rev w' ++ rev pre) post' [])) as Hn.
    discriminate Hn. apply url_matches. exists w'. split; [|exact U].
    repeat split. exact Hs.
Qed.

Lemma link_taken_link_at pre w post : link_taken pre w post -> link_at pre w post.
Proof. unfold link_taken, link_at. tauto. Qed.

(** ** Trimming *)

Lemma lstrip_id l : stops is_space l -> lstrip l = l.
Proof. destruct l as [|c l]; simpl; [reflexivity|]. intros ->. reflexivity. Qed.

Lemma strip_id w :
  stops is_space w -> stops is_space (rev w) -> strip (str w) = str w.
Proof.
  intros H1 H2. unfold strip. rewrite chars_str, (lstrip_id _ H1), (lstrip_id _ H2).
  rewrite rev_involutive. reflexivity.
Qed.

Lemma Forall_stops (P : ascii -> bool) l :
  Forall (fun c => P c = false) l -> stops P l.
Proof. destruct 1; simpl; trivial. Qed.

Lemma stops_app (P : ascii -> bool) l1 l2 :
  l1 <> [] -> stops P l1 -> stops P (l1 ++ l2).
Proof. destruct l1; simpl; [congruence|trivial]. Qed.

Lemma lower_not_space c : is_space (lower_char c) = is_space c.
Proof. each_ascii c; reflexivity. Qed.

Lemma map_lower_not_space w :
  Forall (fun c => is_space c = false) (map lower_char w) ->
  Forall (fun c => is_space c = false) w.
Proof.
  rewrite Forall_map. intros F. eapply Forall_impl; [exact F|].
  intros c. simpl. rewrite lower_not_space. trivial.
Qed.

Lemma scheme_not_space w :
  scheme_text w -> w <> [] /\ Forall (fun c => is_space c = false) w.
Proof.
  intros [E|E]; (split; [intros ->; discriminate E|]);
    apply map_lower_not_space; rewrite E; repeat constructor.
Qed.

(** A link holds no blank at either end: trimming leaves it as it is. *)
Lemma link_not_blank pre w post :
  link_at pre w post -> w <> [] /\ strip (str w) = str w.
Proof.
  assert (H : Forall (fun c => is_space c = false) w -> strip (str w) = str w).
  { intros F. apply strip_id; apply Forall_stops; [exact F|].
    apply Forall_rev. exact F. }
  intros [(w1 & w2 & -> & [N1 F1]%scheme_not_space & N2 & F2)|(([L _] & F) & _)].
  - split; [destruct w1; [congruence|discriminate]|].
    apply H, Forall_app. split; assumption.
  - split; [intros ->; simpl in L; lia|].
    apply H. eapply Forall_impl; [exact F|]. apply alnum_not_space.
Qed.

(** ** The link finder (C7) *)

Lemma find_verification_link_cases text :
  match find_verification_link text with
  | Some l =>
      exists pre w post,
        chars text = pre ++ w ++ post /\ l = str w /\ w <> [] /\ strip l = l
        /\ link_taken pre w post
        /\ forall pre' w' post',
             chars text = pre' ++ w' ++ post' -> link_at pre' w' post' ->
             (length pre <= length pre')%nat
  | None =>
      forall pre w post, chars text = pre ++ w ++ post -> ~ link_at pre w post
  end.
Proof.
  unfold find_verification_link.
  destruct (re_search GENERIC_VERIFY_REGEX text true) as [m|] eqn:E.
  - apply (re_search_Some _ _ _ _ generic_productive) in E
      as (pre & post & Ht & _ & _ & R & Hmin).
    apply generic_rmatch in R.
    destruct (link_not_blank _ _ _ (link_taken_link_at _ _ _ R)) as [Hn Hs].
    cbn [group fmap option_fmap option_map]. rewrite Hs.
    exists pre, (m_text m), post. repeat split; try assumption.
    intros pre' w' post' Ht' L. apply (Hmin pre' w' post' Ht'), generic_matches, L.
  - apply (re_search_None _ _ _ generic_productive) in E.
    intros pre w post Ht L. apply E. exists pre, w, post.
    split; [exact Ht|]. apply generic_matches, L.
Qed.

Lemma find_verification_link_truthy text :
  truthy (find_verification_link text) = true <-> find_verification_link text <> None.
Proof.
  pose proof (find_verification_link_cases text) as H.
  destruct (find_verification_link text) as [l|]; simpl.
  - destruct H as (pre & w & post & _ & -> & Hn & _).
    destruct w as [|c w]; [congruence|]. simpl. split; [discriminate|reflexivity].
  - split; [discriminate|congruence].
Qed.




Example find_verification_link_url :
  find_verification_link "at https://coursera.org/verify/ABC123XYZ now"
  = Some "https://coursera.org/verify/ABC123XYZ".
Proof. vm_compute. reflexivity. Qed.

Example find_verification_link_word_first :
  find_verification_link "Verify at https://coursera.org/verify/ABC123XYZ now"
  = Some "Verify".
Proof. vm_compute. reflexivity. Qed.

Example find_verification_link_code :
  find_verification_link "id: ABCDEFGHIJKLMNOP x ABC12 y" = Some "ABC12".
Proof. vm_compute. reflexivity. Qed.

Example find_verification_link_none :
  find_verification_link "no id, a b_cdefgh ABCD_ zz" = None.
Proof. vm_compute. reflexivity. Qed.

(** A capital E with an acute accent (U+00C9) is a letter: no word
    starts after it, and it is no character of a code.  A no-break space
    (U+00A0) is a blank: it ends an URL. *)
Example find_verification_link_latin1 :
  find_verification_link (String "201" "COLES") = None
  /\ find_verification_link ("https://x.org/a" ++ String "160" "b")%string
     = Some "https://x.org/a".
Proof. split; vm_compute; reflexivity. Qed.

(** ** The skill tagger (C8) *)

Lemma list_set_spec l x : x ∈ list_set l <-> x ∈ l.
Proof. unfold list_set. rewrite elem_of_elements, elem_of_list_to_set. reflexivity. Qed.

Lemma list_set_NoDup l : NoDup (list_set l).
Proof. unfold list_set. apply NoDup_elements. Qed.

(** C8: a vocabulary entry is returned, spelled as in the vocabulary,
    exactly when its lowercase form stands in the lowercase text between
    two word boundaries; no entry is returned twice.  So [R] is found
    neither in [AWS] nor in [Director], and [Python] is found in
    [Python programming]. *)
Theorem extract_skills_whole_words SKILL_TAGS text :
  (forall skill,
     skill ∈ extract_skills SKILL_TAGS text
     <-> skill ∈ SKILL_TAGS /\ whole_word_in (lower skill) (lower text))
  /\ NoDup (extract_skills SKILL_TAGS text)
  /\ extract_skills ["R"] "AWS" = []
  /\ extract_skills ["R"] "Director" = []
  /\ extract_skills ["Python"] "Python programming" = ["Python"].
Proof.
  split; [|split; [apply list_set_NoDup|conj_compute]].
  intros skill. unfold extract_skills. rewrite list_set_spec. apply found_skills_spec.
Qed.

Example extract_skills_phrase :
  extract_skills ["Machine Learning"; "C++"; "r"] "MACHINE learning in R, not c++"
  = ["Machine Learning"; "r"] \/
  extract_skills ["Machine Learning"; "C++"; "r"] "MACHINE learning in R, not c++"
  = ["r"; "Machine Learning"].
Proof. vm_compute. auto. Qed.

(** In the French word for a summary the [r] is followed by a letter,
    the e with an acute accent (U+00E9); and the capital of that letter
    (U+00C9) is lowered with the text. *)
Example extract_skills_latin1 :
  extract_skills ["R"] ("R" ++ String "233" "sum" ++ String "233" EmptyString)%string = []
  /\ extract_skills [String "201" "conomie"] (String "233" "conomie") = [String "201" "conomie"].
Proof. split; vm_compute; reflexivity. Qed.

(** ** The verification classifier (C5) *)

Lemma existsb_registry l :
  existsb (fun x => contains x (lower l)) ["verify"; "certificate"; "registry"; "credentials"]
  = true <-> registry_link l.
Proof.
  rewrite existsb_exists. unfold registry_link.
  split; intros (k & Hk & H); exists k; (split; [exact Hk|]); apply contains_spec; exact H.
Qed.

Lemma proctoring_spec ocr_text :
  contains "proct" (lower ocr_text) || contains "invigil" (lower ocr_text) = true
  <-> proctoring ocr_text.
Proof. unfold proctoring. rewrite orb_true_iff, !contains_spec. reflexivity. Qed.

Lemma truthy_spec o : truthy o = true <-> exists l, o = Some l /\ l <> EmptyString.
Proof.
  destruct o as [[|c l]|]; simpl; split; try discriminate.
  - intros (l & [= <-] & H). congruence.
  - intros _. eexists. split; [reflexivity|discriminate].
  - reflexivity.
  - intros (l & [=] & _).
Qed.

Lemma verified_assembled extractOne text db :
  verified (assemble_features extractOne text db)
  = Some (truthy (find_verification_link text))
  /\ verification_reason (assemble_features extractOne text db)
     = Some (guess_verification_method text (find_verification_link text)).
Proof.
  unfold assemble_features.
  destruct (fuzzy_lookup_issuer extractOne text (db_or_default db)) as [name rep].
  split; reflexivity.
Qed.

(** C5: the classifier decides by the first case that holds, in the
    order proctored, blockchain, registry or simple link, none; and the
    record assembled from a text is verified exactly when a link was
    found in it, whatever the classifier says. *)
Theorem verification_classifier extractOne ocr_text link db :
  (proctoring ocr_text -> guess_verification_method ocr_text link = "proctored")
  /\ (~ proctoring ocr_text -> substring "blockchain" (lower ocr_text) ->
      guess_verification_method ocr_text link = "blockchain")
  /\ (~ proctoring ocr_text -> ~ substring "blockchain" (lower ocr_text) ->
      forall l, link = Some l -> l <> EmptyString ->
        (registry_link l -> guess_verification_method ocr_text link = "registry")
        /\ (~ registry_link l -> guess_verification_method ocr_text link = "simple_link"))
  /\ (~ proctoring ocr_text -> ~ substring "blockchain" (lower ocr_text) ->
      link = None \/ link = Some EmptyString ->
      guess_verification_method ocr_text link = "none")
  /\ (exists b, verified (assemble_features extractOne ocr_text db) = Some b
                /\ (b = true <-> find_verification_link ocr_text <> None))
  /\ verification_reason (assemble_features extractOne ocr_text db)
     = Some (guess_verification_method ocr_text (find_verification_link ocr_text)).
Proof.
  pose proof (proctoring_spec ocr_text) as Hp.
  pose proof (contains_spec "blockchain" (lower ocr_text)) as Hb.
  destruct (verified_assembled extractOne ocr_text db) as [-> ->].
  set (found := guess_verification_method ocr_text (find_verification_link ocr_text)).
  unfold guess_verification_method.
  destruct (contains "proct" (lower ocr_text) || contains "invigil" (lower ocr_text)).
  { split; [reflexivity|].
    do 3 (split; [intros N; exfalso; apply N, Hp; reflexivity|]).
    split; [|reflexivity].
    eexists. split; [reflexivity|apply find_verification_link_truthy]. }
  assert (Np : ~ proctoring ocr_text) by (intros H%Hp; discriminate).
  destruct (contains "blockchain" (lower ocr_text)).
  { split; [tauto|]. split; [reflexivity|].
    do 2 (split; [intros _ N; exfalso; apply N, Hb; reflexivity|]).
    split; [|reflexivity].
    eexists. split; [reflexivity|apply find_verification_link_truthy]. }
  assert (Nb : ~ substring "blockchain" (lower ocr_text)) by (intros H%Hb; discriminate).
  split; [tauto|]. split; [tauto|]. split; [|split; [|split]].
  - intros _ _ l -> Hl. destruct l as [|c l]; [congruence|]. cbn [truthy default].
    pose proof (existsb_registry (String c l)) as Hr.
    destruct (existsb _ _); split.
    + reflexivity.
    + intros N. exfalso. apply N, Hr. reflexivity.
    + intros H%Hr. discriminate.
    + reflexivity.
  - intros _ _ [->| ->]; reflexivity.
  - eexists. split; [reflexivity|apply find_verification_link_truthy].
  - reflexivity.
Qed.

Example classifier_proctored_whatever_link :
  guess_verification_method "Proctored Exam Required" (Some "https://x.org/verify/1")
  = "proctored"
  /\ guess_verification_method "Proctored Exam Required" None = "proctored".
Proof. split; vm_compute; reflexivity. Qed.

Example classifier_by_link :
  guess_verification_method "see https://x.org/verify/1" (Some "https://x.org/verify/1")
  = "registry"
  /\ guess_verification_method "see https://x.org/" (Some "https://x.org/") = "simple_link"
  /\ guess_verification_method "a b c" None = "none".
Proof. conj_compute. Qed.

(** A text of long words has no link: it is classified but not verified. *)
Example proctored_not_verified extractOne :
  let f := assemble_features extractOne "an invigilatedfinalexam" None in
  verified f = Some false /\ verification_reason f = Some "proctored".
Proof.
  cbv zeta. destruct (verified_assembled extractOne "an invigilatedfinalexam" None)
    as [-> ->]. split; vm_compute; reflexivity.
Qed.

Lemma took_reads s w s' : took s w [] s' <-> reads s w s'.
Proof. reflexivity. Qed.

Lemma took_trans s w1 g1 s1 w2 g2 s2 :
  took s w1 g1 s1 -> took s1 w2 g2 s2 -> took s (w1 ++ w2) (g2 ++ g1) s2.
Proof.
  intros (A1 & B1 & C1) (A2 & B2 & C2). repeat split.
  - rewrite A1, A2, app_assoc. reflexivity.
  - rewrite B2, B1, rev_app_distr, app_assoc. reflexivity.
  - rewrite C2, C1, app_assoc. reflexivity.
Qed.

Lemma took_split s w1 g1 w2 g2 s' :
  took s (w1 ++ w2) (g2 ++ g1) s' ->
  let s1 := MState (rev w1 ++ ms_pre s) (w2 ++ ms_rest s') (g1 ++ ms_groups s) in
  took s w1 g1 s1 /\ took s1 w2 g2 s'.
Proof.
  intros (A & B & C). simpl. repeat split; simpl.
  - rewrite A, app_assoc. reflexivity.
  - rewrite B, rev_app_distr, app_assoc. reflexivity.
  - rewrite C, app_assoc. reflexivity.
Qed.

Lemma close_group_reads n s w s1 :
  reads s w s1 ->
  close_group n s s1 = MState (rev w ++ ms_pre s) (ms_rest s1) ((n, w) :: ms_groups s).
Proof.
  intros (A & B & C). unfold close_group. rewrite B, C, length_app.
  replace (length (rev w) + length (ms_pre s) - length (ms_pre s))%nat
    with (length (rev w)) by lia.
  rewrite take_app_length, rev_involutive. reflexivity.
Qed.

(** A group around an expression that closes no group. *)
Lemma group_matches icase n r (P : list ascii -> Prop) :
  (forall s s', Matches icase r s s' <-> exists w, reads s w s' /\ P w) ->
  forall s s',
    Matches icase (RGroup n r) s s' <-> exists w, took s w [(n, w)] s' /\ P w.
Proof.
  intros Hr s s'. split.
  - intros (s1 & (w & R & Hw)%Hr & ->)%Matches_group_inv.
    exists w. split; [|exact Hw]. rewrite (close_group_reads _ _ _ _ R).
    destruct R as (A & B & C). repeat split. exact A.
  - intros (w & (A & B & C) & Hw).
    set (s1 := MState (rev w ++ ms_pre s) (ms_rest s') (ms_groups s)).
    assert (R : reads s w s1) by (repeat split; exact A).
    replace s' with (close_group n s s1).
    + constructor. apply Hr. exists w. split; assumption.
    + rewrite (close_group_reads _ _ _ _ R). destruct s'; simpl in *. congruence.
Qed.

Lemma digit_match icase c : set_match icase false [CDigit] c = is_digit c.
Proof. unfold set_match. simpl. rewrite orb_false_r. reflexivity. Qed.

Lemma space_match icase c : set_match icase false [CSpace] c = is_space c.
Proof. unfold set_match. simpl. rewrite orb_false_r. reflexivity. Qed.

Lemma digits_matches icase lo s s' :
  Matches icase (RRepeat lo None digit) s s'
  <-> exists w, reads s w s' /\ digits w /\ (lo <= length w)%nat.
Proof.
  unfold digit. rewrite run_matches. unfold digits.
  split; intros (w & R & F & L); exists w; (split; [exact R|]).
  - split; [|apply L]. eapply Forall_impl; [exact F|]. intros c. cbv beta.
    rewrite digit_match. trivial.
  - split; [|split; [exact L|discriminate]]. eapply Forall_impl; [exact F|].
    intros c. cbv beta. rewrite digit_match. trivial.
Qed.

Lemma blanks_matches icase s s' :
  Matches icase (RStar space) s s' <-> exists w, reads s w s' /\ blanks w.
Proof.
  unfold RStar, space. rewrite run_matches. unfold blanks.
  split; intros (w & R & F); exists w; (split; [exact R|]).
  - destruct F as [F _]. eapply Forall_impl; [exact F|]. intros c. cbv beta.
    rewrite space_match. trivial.
  - split; [|split; [lia|discriminate]]. eapply Forall_impl; [exact F|].
    intros c. cbv beta. rewrite space_match. trivial.
Qed.

Lemma lower_point c : lower_char c = "."%char -> c = "."%char.
Proof. each_ascii c; simpl; intros H; try reflexivity; discriminate H. Qed.

Lemma point_matches s s' :
  Matches true (RStr ".") s s' <-> reads s ["."%char] s'.
Proof.
  rewrite str_matches_icase. split.
  - intros (w & R & E). destruct w as [|c [|c' w]]; try discriminate E.
    injection E as E. apply lower_point in E. subst c. exact R.
  - intros R. exists ["."%char]. split; [exact R|reflexivity].
Qed.

Lemma number_matches s s' :
  Matches true number_re s s' <-> exists w, reads s w s' /\ number_text w.
Proof.
  unfold number_re, number_text, RPlus, RStar. split.
  - intros (s2 & (s1 & (ip & R1 & D1 & L)%digits_matches & O)%Matches_seq_inv
                & (d & R3 & D3 & _)%digits_matches)%Matches_seq_inv.
    assert (N : ip <> []) by (intros ->; simpl in L; lia).
    apply Matches_opt_inv in O as [->|R2%point_matches].
    + destruct d as [|c d].
      * exists ip. split; [|exists ip, []; rewrite app_nil_r; auto].
        replace ip with (ip ++ []) by apply app_nil_r.
        eapply reads_trans; eassumption.
      * exists (ip ++ c :: d). split; [eapply reads_trans; eassumption|].
        exists (ip ++ c :: d), []. rewrite app_nil_r. repeat split; auto.
        -- destruct ip; [congruence|discriminate].
        -- apply Forall_app. split; assumption.
    + exists (ip ++ ["."%char] ++ d).
      split; [eapply reads_trans; [|eapply reads_trans]; eassumption|].
      exists ip, ("."%char :: d). repeat split; auto. right. exists d. auto.
  - intros (w & R & ip & fp & -> & N & D & [->|(d & -> & Dd)]).
    + rewrite app_nil_r in R. eapply M_seq; [eapply M_seq|].
      * apply digits_matches. exists ip. split; [exact R|]. split; [exact D|].
        destruct ip; [congruence|simpl; lia].
      * apply Matches_opt_skip.
      * apply digits_matches. exists []. split; [apply reads_refl|].
        split; [constructor|simpl; lia].
    + apply reads_split in R as [R1 R23].
      apply (reads_split _ ["."%char] d) in R23 as [R2 R3].
      eapply M_seq; [eapply M_seq|].
      * apply digits_matches. exists ip. split; [exact R1|]. split; [exact D|].
        destruct ip; [congruence|simpl; lia].
      * apply Matches_opt_take, point_matches. exact R2.
      * apply digits_matches. exists d. split; [exact R3|]. split; [exact Dd|lia].
Qed.

Lemma total_matches s s' :
  Matches true total_re s s'
  <-> exists t b, reads s (t ++ b) s' /\ map lower_char t = chars "total" /\ blanks b.
Proof.
  unfold total_re. split.
  - intros (s1 & (t & R1 & E)%str_matches_icase & (b & R2 & B)%blanks_matches)%Matches_seq_inv.
    exists t, b. split; [eapply reads_trans; eassumption|]. split; assumption.
  - intros (t & b & R & E & B). apply reads_split in R as [R1 R2]. eapply M_seq.
    + apply str_matches_icase. exists t. split; [exact R1|exact E].
    + apply blanks_matches. exists b. split; assumption.
Qed.

Lemma gap_matches s s' :
  Matches true (RSeq (RStar space) (ROpt total_re)) s s'
  <-> exists w, reads s w s' /\ gap_text w.
Proof.
  unfold gap_text. split.
  - intros (s1 & (b & R1 & B)%blanks_matches & O)%Matches_seq_inv.
    apply Matches_opt_inv in O as [->|(t & b2 & R2 & E & B2)%total_matches].
    + exists b. split; [exact R1|]. exists b, []. rewrite app_nil_r. auto.
    + exists (b ++ t ++ b2). split; [eapply reads_trans; eassumption|].
      exists b, (t ++ b2). repeat split; auto. right. exists t, b2. auto.
  - intros (w & R & b & t & -> & B & [->|(t1 & b2 & -> & E & B2)]).
    + rewrite app_nil_r in R. eapply M_seq.
      * apply blanks_matches. exists b. split; [exact R|exact B].
      * apply Matches_opt_skip.
    + apply reads_split in R as [R1 R2]. eapply M_seq.
      * apply blanks_matches. exists b. split; [exact R1|exact B].
      * apply Matches_opt_take, total_matches. exists t1, b2. auto.
Qed.

Lemma unit_matches s s' :
  Matches true unit_re s s' <-> exists w, reads s w s' /\ unit_text w.
Proof.
  unfold unit_re, unit_text, TIME_UNITS. split.
  - intros H.
    repeat (apply Matches_alt_inv in H as [H|H]);
      apply str_matches_icase in H as (w & R & E);
      exists w; (split; [exact R|]);
      match type of E with
      | _ = map lower_char (chars ?u) => exists u; split; [simpl; tauto|exact E]
      end.
  - intros (w & R & u & Hu & E). simpl in Hu.
    assert (M : Matches true (RStr u) s s')
      by (apply str_matches_icase; exists w; split; [exact R|]; rewrite E;
          destruct Hu as [<-|[<-|[<-|[<-|[<-|[<-|[<-|[]]]]]]]]; reflexivity).
    destruct Hu as [<-|[<-|[<-|[<-|[<-|[<-|[<-|[]]]]]]]].
    + do 6 apply M_alt_l. exact M.
    + do 5 apply M_alt_l. apply M_alt_r. exact M.
    + do 4 apply M_alt_l. apply M_alt_r. exact M.
    + do 3 apply M_alt_l. apply M_alt_r. exact M.
    + do 2 apply M_alt_l. apply M_alt_r. exact M.
    + do 1 apply M_alt_l. apply M_alt_r. exact M.
    + apply M_alt_r. exact M.
Qed.

Lemma time_regex_eq :
  TIME_REGEX
  = RSeq (RSeq (RSeq (RGroup 1 number_re) (RStar space)) (ROpt total_re)) (RGroup 2 unit_re).
Proof. reflexivity. Qed.

Lemma time_productive : productive TIME_REGEX = true.
Proof. reflexivity. Qed.

Lemma Matches_seq_iff icase r1 r2 s s' :
  Matches icase (RSeq r1 r2) s s'
  <-> exists s1, Matches icase r1 s s1 /\ Matches icase r2 s1 s'.
Proof.
  split; [apply Matches_seq_inv|]. intros (s1 & M1 & M2). econstructor; eassumption.
Qed.

(** What the pattern of the durations matches, and the groups it closes. *)
Lemma time_matches s s' :
  Matches true TIME_REGEX s s'
  <-> exists num gap unit,
        took s (num ++ gap ++ unit) [(2%nat, unit); (1%nat, num)] s'
        /\ number_text num /\ gap_text gap /\ unit_text unit.
Proof.
  rewrite time_regex_eq. split.
  - intros (s3 & (s2 & (s1 & M1 & Mb)%Matches_seq_inv & Mt)%Matches_seq_inv
                & M2)%Matches_seq_inv.
    apply (group_matches _ _ _ _ number_matches) in M1 as (num & T1 & N).
    apply (group_matches _ _ _ _ unit_matches) in M2 as (unit & T2 & Hu).
    assert (Mg : Matches true (RSeq (RStar space) (ROpt total_re)) s1 s3)
      by (econstructor; eassumption).
    apply gap_matches in Mg as (gap & Tg & G).
    exists num, gap, unit. split; [|auto].
    pose proof (took_trans _ _ _ _ _ _ _ T1 (took_trans _ _ [] _ _ _ _ Tg T2)) as T.
    exact T.
  - intros (num & gap & unit & T & N & G & Hu).
    change [(2%nat, unit); (1%nat, num)] with ([(2%nat, unit)] ++ [(1%nat, num)]) in T.
    apply took_split in T as [T1 T]. 
    change [(2%nat, unit)] with ([(2%nat, unit)] ++ []) in T.
    apply took_split in T as [Tg T2].
    assert (M1 : Matches true (RGroup 1 number_re) s
                   (MState (rev num ++ ms_pre s) ((gap ++ unit) ++ ms_rest s')
                           ([(1%nat, num)] ++ ms_groups s)))
      by (apply (group_matches _ _ _ _ number_matches); exists num; split; assumption).
    assert (Mg : Matches true (RSeq (RStar space) (ROpt total_re)) _ _)
      by (apply gap_matches; exists gap; split; [exact Tg|exact G]).
    apply Matches_seq_inv in Mg as (s2 & Mb & Mt).
    eapply M_seq; [eapply M_seq; [eapply M_seq|]|].
    + exact M1.
    + exact Mb.
    + exact Mt.
    + apply (group_matches _ _ _ _ unit_matches). exists unit. split; assumption.
Qed.

Lemma took_at pre w post gs w' gs' :
  took (state_at pre (w ++ post)) w' gs' (MState (rev w ++ rev pre) post gs) ->
  w' = w /\ gs = gs'.
Proof.
  intros (A & _ & C). simpl in *. apply app_inv_tail in A. rewrite app_nil_r in C.
  split; congruence.
Qed.

Lemma time_matches_at pre w post :
  matches_at true TIME_REGEX pre w post <-> duration_text w.
Proof.
  unfold matches_at, duration_text. split.
  - intros (gs & (num & gap & unit & T & H)%time_matches).
    apply took_at in T as [<- _]. exists num, gap, unit. auto.
  - intros (num & gap & unit & -> & H).
    exists [(2%nat, unit); (1%nat, num)]. apply time_matches.
    exists num, gap, unit. split; [|exact H]. repeat split.
Qed.

(** ** Reading the number *)

Lemma digit_not_point c : is_digit c = true -> Ascii.eqb c "." = false.
Proof. each_ascii c; simpl; intros H; try reflexivity; discriminate H. Qed.

Lemma split_point_digits ip :
  digits ip ->
  split_point ip = (ip, None)
  /\ forall d, split_point (ip ++ "."%char :: d) = (ip, Some d).
Proof.
  induction 1 as [|c ip Hc _ [IH1 IH2]]; simpl.
  - split; reflexivity.
  - rewrite (digit_not_point _ Hc), IH1. split; [reflexivity|].
    intros d. rewrite IH2. reflexivity.
Qed.

Lemma digits_value_total l :
  digits l -> forall acc, exists n, digits_value acc l = Some n.
Proof.
  induction 1 as [|c l Hc _ IH]; intros acc; simpl.
  - exists acc. reflexivity.
  - rewrite Hc. apply IH.
Qed.

(** [float] raises on no text the pattern takes for a number. *)
Lemma float_of_str_number num :
  number_text num -> exists v, float_of_str (str num) = Some (PyFloat v).
Proof.
  intros (ip & fp & -> & N & D & Hfp). unfold float_of_str. rewrite chars_str.
  destruct (split_point_digits ip D) as [S1 S2].
  destruct Hfp as [->|(d & -> & Dd)].
  - rewrite app_nil_r, S1. destruct ip as [|c ip]; [congruence|].
    cbn [default]. rewrite app_nil_r.
    destruct (digits_value_total _ D 0%Z) as [n ->]. eexists. reflexivity.
  - rewrite S2. destruct ip as [|c ip]; [congruence|]. cbn [default].
    assert (Da : digits ((c :: ip) ++ d)) by (apply Forall_app; split; assumption).
    change (id d) with d.
    destruct (digits_value_total _ Da 0%Z) as [n ->]. eexists. reflexivity.
Qed.

Lemma float_of_int_40 : float_of_int 40 = Some (Fin (40 * U)).
Proof. vm_compute. reflexivity. Qed.

(** The conversion, unit by unit. *)
Lemma convert_unit v unit :
  unit_text unit ->
  (let u := lower (str unit) in
   if contains "week" u then (Some (PyFloat v) * int 10)%py
   else if contains "month" u then (Some (PyFloat v) * int 40)%py
   else Some (PyFloat v))
  = Some (PyFloat (in_hours v unit)).
Proof.
  intros (u & Hu & E). cbv zeta. unfold lower, in_hours, unit_hours.
  rewrite chars_str, E, str_chars. unfold TIME_UNITS in Hu. simpl in Hu.
  destruct Hu as [<-|[<-|[<-|[<-|[<-|[<-|[<-|[]]]]]]]];
    change (contains "week" _) with true || change (contains "week" _) with false;
    change (contains "month" _) with true || change (contains "month" _) with false;
    cbv iota;
    try reflexivity;
    first [ apply (py_mul_float_int v 10 _ float_of_int_10)
          | apply (py_mul_float_int v 40 _ float_of_int_40) ].
Qed.

(** ** The time commitment (C6) *)

(** C6: the duration comes from the leftmost duration phrase of the
    text alone: its number, read as a [float], times 10 for weeks and 40
    for months, and as it is for hours; a text with no duration phrase
    gives 0.  So [3 weeks] gives 30, [2 months] 80 and [10 hours] 10. *)
Theorem extract_time_commitment_first text :
  ((exists pre num gap unit post v,
       chars text = pre ++ (num ++ gap ++ unit) ++ post
       /\ number_text num /\ gap_text gap /\ unit_text unit
       /\ (forall pre' w' post',
             chars text = pre' ++ w' ++ post' -> duration_text w' ->
             (length pre <= length pre')%nat)
       /\ float_of_str (str num) = Some (PyFloat v)
       /\ extract_time_commitment text = Some (PyFloat (in_hours v unit)))
   \/ ((forall pre w post, chars text = pre ++ w ++ post -> ~ duration_text w)
       /\ extract_time_commitment text = Some (PyInt 0)))
  /\ extract_time_commitment "3 weeks" = Some (PyFloat (Fin (30 * U)))
  /\ extract_time_commitment "2 months" = Some (PyFloat (Fin (80 * U)))
  /\ extract_time_commitment "10 hours" = Some (PyFloat (Fin (10 * U)))
  /\ extract_time_commitment "no duration here" = Some (PyInt 0).
Proof.
  split; [|conj_compute].
  unfold extract_time_commitment.
  destruct (re_search TIME_REGEX text true) as [m|] eqn:E.
  - left.
    apply (re_search_Some _ _ _ _ time_productive) in E
      as (pre & post & Ht & _ & (num & gap & unit & T & N & G & Hu)%time_matches & _ & Hmin).
    apply took_at in T as [Hw Hg].
    destruct (float_of_str_number num N) as [v Hv].
    exists pre, num, gap, unit, post, v. rewrite <- Hw in Ht.
    split; [exact Ht|]. do 3 (split; [assumption|]).
    split; [|split; [exact Hv|]].
    + intros pre' w' post' Ht' D. apply (Hmin pre' w' post' Ht'), time_matches_at, D.
    + unfold group. rewrite Hg. cbn [group_text Nat.eqb fmap option_fmap option_map].
      cbn [mbind option_bind]. rewrite Hv. cbn [mbind option_bind].
      apply convert_unit, Hu.
  - right. split; [|reflexivity].
    apply (re_search_None _ _ _ time_productive) in E.
    intros pre w post Ht D. apply E. exists pre, w, post.
    split; [exact Ht|]. apply time_matches_at, D.
Qed.

Example extract_time_commitment_leftmost :
  extract_time_commitment "It takes 3 weeks and 5 months" = Some (PyFloat (Fin (30 * U))).
Proof. vm_compute. reflexivity. Qed.

Example extract_time_commitment_total :
  extract_time_commitment "2.5 Total   Months" = Some (PyFloat (Fin (100 * U))).
Proof. vm_compute. reflexivity. Qed.

Example extract_time_commitment_year :
  extract_time_commitment "2023 has 12 months" = Some (PyFloat (Fin (2023 * U))).
Proof. vm_compute. reflexivity. Qed.

(** A no-break space (U+00A0) between the number and the unit. *)
Example extract_time_commitment_latin1 :
  extract_time_commitment ("3" ++ String "160" "weeks")%string
  = Some (PyFloat (Fin (30 * U))).
Proof. vm_compute. reflexivity. Qed.

Local Open Scope Z_scope.

(** ** More on the tier composer *)

(** The composites of two records of which the second improves on the first. *)
Lemma improves_below f1 f2 s1 s2 :
  improves f1 f2 ->
  raw_score_spec f1 = Some s1 -> raw_score_spec f2 = Some s2 ->
  exists c1 c2, s1 = clamp (PyFloat c1) /\ s2 = clamp (PyFloat c2) /\ below c1 c2.
Proof.
  intros Himp E1 E2. unfold raw_score_spec in E1, E2.
  destruct Himp as [f v1 v2 Hk1 Hk2 Hlt|f v1 v2 Hk1 Hk2 Hlt|f v1 v2 Hk1 Hk2 Hlt
                   |f v1 v2 Hk1 Hk2 Hlt|f v1 v2 Hk1 Hk2 Hlt|f];
    cbn [set_issuer_rep set_assessment_rigor set_project_complexity set_duration_hours
         set_industry_recognition set_verified
         issuer_rep duration_hours assessment_rigor project_complexity industry_recognition
         prerequisites_required has_project verified default from_option id] in E1, E2.
  - split_binds E1. split_binds E2. injection E1 as <-. injection E2 as <-.
    eexists _, _. split; [reflexivity|]. split; [reflexivity|].
    apply composite_issuer_rep. eapply (as_float_mono v1 v2); eassumption.
  - split_binds E1. split_binds E2. injection E1 as <-. injection E2 as <-.
    eexists _, _. split; [reflexivity|]. split; [reflexivity|].
    apply composite_assessment. eapply (as_float_mono v1 v2); eassumption.
  - split_binds E1. split_binds E2. injection E1 as <-. injection E2 as <-.
    eexists _, _. split; [reflexivity|]. split; [reflexivity|].
    destruct (negb (default 0 (has_project f) =? 0)).
    + apply composite_project. eapply (as_float_mono v1 v2); eassumption.
    + apply below_refl.
  - split_binds E1. split_binds E2. injection E1 as <-. injection E2 as <-.
    eexists _, _. split; [reflexivity|]. split; [reflexivity|].
    apply composite_time, time_score_f_mono. eapply (as_float_mono v1 v2); eassumption.
  - split_binds E1. split_binds E2. injection E1 as <-. injection E2 as <-.
    eexists _, _. split; [reflexivity|]. split; [reflexivity|].
    apply composite_industry. eapply (as_float_mono v1 v2); eassumption.
  - split_binds E1. rewrite ?E, ?E0, ?E3, ?E4, ?E5, ?E6 in E2. cbn [mbind option_bind] in E2.
    injection E1 as <-. injection E2 as <-.
    eexists _, _. split; [reflexivity|]. split; [reflexivity|].
    apply composite_bonus. simpl. pose proof U_pos. apply Z.leb_le. lia.
Qed.

Lemma tier_of_clamp c :
  tier_of (clamp (PyFloat c))
  = if fle (Fin (80 * U)) (clampf c) then 1
    else if fle (Fin (60 * U)) (clampf c) then 2
    else if fle (Fin (40 * U)) (clampf c) then 3 else 4.
Proof. unfold tier_of, py_ge, py_le. rewrite exact_clamp. reflexivity. Qed.

Lemma tier_of_clamp_mono c1 c2 :
  below c1 c2 -> tier_of (clamp (PyFloat c2)) <= tier_of (clamp (PyFloat c1)).
Proof.
  intros H%clampf_below. rewrite !tier_of_clamp.
  destruct (clampf_range c1) as (a1 & E1 & _). destruct (clampf_range c2) as (a2 & E2 & _).
  rewrite E1, E2 in H |- *. simpl in H |- *. apply Z.leb_le in H.
  destruct (Z.leb_spec (80 * U) a1), (Z.leb_spec (80 * U) a2),
           (Z.leb_spec (60 * U) a1), (Z.leb_spec (60 * U) a2),
           (Z.leb_spec (40 * U) a1), (Z.leb_spec (40 * U) a2); lia.
Qed.

(** X1: a record that improves on another in one signal is placed in
    the same tier or in a better one (a smaller number), whenever the
    composer returns for both. *)
Theorem tier_monotone f1 f2 db r1 r2 :
  improves f1 f2 ->
  compute_certificate_tier f1 db = Some r1 ->
  compute_certificate_tier f2 db = Some r2 ->
  tier r2 <= tier r1.
Proof.
  intros Himp (s1 & E1 & ->)%compute_inv (s2 & E2 & ->)%compute_inv.
  destruct (improves_below _ _ _ _ Himp E1 E2) as (c1 & c2 & -> & -> & H).
  cbn [tier]. apply tier_of_clamp_mono, H.
Qed.

(** Verified, the record of reputation 100 and rigor 100 moves from
    tier 2 to tier 1. *)
Lemma tier_monotone_witness :
  exists r1 r2,
    compute_certificate_tier (set_verified false threshold_features) None = Some r1
    /\ compute_certificate_tier (set_verified true threshold_features) None = Some r2
    /\ tier r1 = 2 /\ tier r2 = 1 /\ tier r2 <= tier r1.
Proof.
  eexists. eexists.
  split; [vm_compute; reflexivity|]. split; [vm_compute; reflexivity|].
  split; [vm_compute; reflexivity|]. split; [vm_compute; reflexivity|].
  eapply (tier_monotone (set_verified false threshold_features)
            (set_verified true threshold_features) None).
  - apply improves_verified.
  - vm_compute; reflexivity.
  - vm_compute; reflexivity.
Defined.




Lemma clampf_top y : fle (Fin (100 * U)) y = true -> clampf y = Fin (100 * U).
Proof.
  unfold clampf. destruct y as [b| | |]; simpl; try discriminate; try reflexivity.
  intros H%Z.leb_le. destruct (Z.ltb_spec b (100 * U)); [lia|reflexivity].
Qed.

Lemma clampf_bottom y : fle y (Fin 0) = true -> clampf y = Fin 0.
Proof.
  pose proof U_pos as HU.
  unfold clampf. destruct y as [b| | |]; simpl; try discriminate; try reflexivity.
  intros H%Z.leb_le. destruct (Z.ltb_spec b (100 * U)); [|lia].
  destruct (Z.ltb_spec 0 b); [lia|reflexivity].
Qed.








Lemma ints_fit_project_complexity f v :
  num_fits v = false -> ints_fit (set_project_complexity v f) = false.
Proof.
  intros H. unfold ints_fit.
  cbn [set_project_complexity issuer_rep duration_hours assessment_rigor project_complexity
       industry_recognition prerequisites_required default from_option id].
  rewrite H, !andb_false_r. reflexivity.
Qed.

(** X3: without a project ([has_project] absent or 0) the complexity
    of the project changes nothing, as long as [float] accepts it; an
    [int] beyond the doubles still makes the composer raise, although
    its value is not used. *)
Theorem project_complexity_needs_project f db v1 v2 :
  default 0 (has_project f) = 0 ->
  (num_fits v1 = true -> num_fits v2 = true ->
   compute_certificate_tier (set_project_complexity v1 f) db
   = compute_certificate_tier (set_project_complexity v2 f) db)
  /\ (num_fits v1 = false ->
      compute_certificate_tier (set_project_complexity v1 f) db = None).
Proof.
  intros Hp. split.
  - intros (x1 & H1)%as_float_fits (x2 & H2)%as_float_fits.
    rewrite !compute_eq, !raw_score_eq. unfold raw_score_spec.
    cbn [set_project_complexity issuer_rep duration_hours assessment_rigor project_complexity
         industry_recognition prerequisites_required has_project verified
         default from_option id] in *.
    rewrite Hp, H1, H2. cbn [Z.eqb negb].
    destruct (as_float (from_option id (PyInt 25) (issuer_rep f))); [|reflexivity].
    destruct (as_float (from_option id (PyInt 0) (duration_hours f))); [|reflexivity].
    destruct (as_float (from_option id (PyInt 20) (assessment_rigor f))); reflexivity.
  - intros H. rewrite compute_eq, (raw_score_overflow _ (ints_fit_project_complexity f _ H)).
    reflexivity.
Qed.

(** Complexities 0 and 100 of a project that is not there; and the
    complexity 2^1024. *)
Lemma project_complexity_needs_project_witness :
  compute_certificate_tier (set_project_complexity (PyInt 0) no_features) None
  = compute_certificate_tier (set_project_complexity (PyInt 100) no_features) None
  /\ compute_certificate_tier (set_project_complexity (PyInt (2 ^ 1024)) no_features) None
     = None.
Proof.
  split.
  - refine (proj1 (project_complexity_needs_project no_features None
                     (PyInt 0) (PyInt 100) _) _ _); vm_compute; reflexivity.
  - refine (proj2 (project_complexity_needs_project no_features None
                     (PyInt (2 ^ 1024)) (PyInt 0) _) _); vm_compute; reflexivity.
Defined.

Local Close Scope Z_scope.

(** ** More on the extractors *)

Lemma lower_char_not_upper c : is_upper (lower_char c) = false.
Proof. each_ascii c; reflexivity. Qed.

Lemma lower_no_capital t c : In c (chars (lower t)) -> is_upper c = false.
Proof.
  rewrite chars_lower. intros (c0 & <- & _)%in_map_iff. apply lower_char_not_upper.
Qed.

Lemma substring_chars w t c : substring w t -> In c (chars w) -> In c (chars t).
Proof.
  intros (pre & post & ->) H. apply in_or_app. right. apply in_or_app. left. exact H.
Qed.

(** X4: a keyword list is detected exactly when one of its entries
    occurs in the lowercased text; the keywords themselves are not
    lowercased, so a keyword with a capital letter is never detected. *)
Theorem detect_keywords_lowercase ocr_text keywords :
  (detect_keywords ocr_text keywords = true
   <-> exists k, In k keywords /\ substring k (lower ocr_text))
  /\ (Forall (fun k => exists c, In c (chars k) /\ is_upper c = true) keywords ->
      detect_keywords ocr_text keywords = false).
Proof.
  assert (Hspec : detect_keywords ocr_text keywords = true
                  <-> exists k, In k keywords /\ substring k (lower ocr_text)).
  { unfold detect_keywords. rewrite existsb_exists.
    split; intros (k & Hk & H); exists k; (split; [exact Hk|]); apply contains_spec, H. }
  split; [exact Hspec|].
  intros Hcap. destruct (detect_keywords ocr_text keywords) eqn:E; [|reflexivity].
  destruct (proj1 Hspec eq_refl) as (k & Hk & Hs).
  rewrite Forall_forall in Hcap. destruct (Hcap k) as (c & Hc & Hu).
  - apply list_elem_of_In, Hk.
  - pose proof (lower_no_capital _ _ (substring_chars _ _ _ Hs Hc)). congruence.
Qed.

Example detect_keywords_capital :
  detect_keywords "Final EXAM, graded" ["exam"] = true
  /\ detect_keywords "Final EXAM, graded" ["Exam"; "EXAM"] = false.
Proof. split; vm_compute; reflexivity. Qed.

(** *** The issuer resolver *)

Lemma db_get_cases (db : IssuerDb) name d :
  db_get db name d = d \/ In (name, db_get db name d) db.
Proof.
  induction db as [|[k v] db IH]; simpl; [auto|].
  destruct (String.eqb_spec k name) as [->|_]; [auto|]. destruct IH; auto.
Qed.

Lemma first_alias_None items text :
  first_alias items text = None
  <-> forall a n, In (a, n) items -> ~ substring a text.
Proof.
  induction items as [|[a n] items IH]; simpl.
  - split; [intros _ ? ? []|reflexivity].
  - destruct (contains a text) eqn:E.
    + split; [discriminate|]. intros H. exfalso. apply (H a n); [auto|].
      apply contains_spec, E.
    + rewrite IH. split.
      * intros H a' n' [[= -> ->]|Hin]; [|eauto].
        intros Hs%contains_spec. congruence.
      * intros H a' n' Hin. apply (H a' n'). auto.
Qed.

Lemma first_alias_Some items text name :
  first_alias items text = Some name ->
  exists a, In (a, name) items /\ substring a text.
Proof.
  induction items as [|[a n] items IH]; simpl; [discriminate|].
  destruct (contains a text) eqn:E.
  - intros [= ->]. exists a. split; [auto|apply contains_spec, E].
  - intros (a' & Hin & Hs)%IH. eauto.
Qed.

Lemma ISSUER_DB_range : Forall (fun kv => (15 <= snd kv <= 95)%Z) ISSUER_DB.
Proof. unfold ISSUER_DB. repeat constructor; simpl; lia. Qed.

Lemma fuzzy_reputation_cases extractOne ocr_text db :
  snd (fuzzy_lookup_issuer extractOne ocr_text db) = 25%Z
  \/ exists k, fst (fuzzy_lookup_issuer extractOne ocr_text db) = Some k
               /\ In (k, snd (fuzzy_lookup_issuer extractOne ocr_text db)) db.
Proof.
  unfold fuzzy_lookup_issuer.
  destruct (first_alias ISSUER_ALIASES (lower ocr_text)) as [name|].
  - cbn [fst snd]. destruct (db_get_cases db name 25%Z); [auto|]. right. eauto.
  - destruct (extractOne _ _ _) as [[[choice sc] ix]|]; cbn [fst snd]; [|auto].
    destruct (db_get_cases db choice 25%Z); [auto|]. right. eauto.
Qed.

(** X5: the reputation the resolver returns is an entry of the table
    for the name it returns, or the default 25; without a name it is
    25.  When no alias occurs the fuzzy matcher decides, asked with the
    lowercased text, the keys of the table and the cutoff 30.  With the
    built-in table the reputation lies between 15 and 95. *)
Theorem fuzzy_lookup_issuer_reputation extractOne ocr_text issuer_db :
  (snd (fuzzy_lookup_issuer extractOne ocr_text issuer_db) = 25%Z
   \/ exists k, fst (fuzzy_lookup_issuer extractOne ocr_text issuer_db) = Some k
                /\ In (k, snd (fuzzy_lookup_issuer extractOne ocr_text issuer_db)) issuer_db)
  /\ (fst (fuzzy_lookup_issuer extractOne ocr_text issuer_db) = None ->
      snd (fuzzy_lookup_issuer extractOne ocr_text issuer_db) = 25%Z)
  /\ ((forall a n, In (a, n) ISSUER_ALIASES -> ~ substring a (lower ocr_text)) ->
      fuzzy_lookup_issuer extractOne ocr_text issuer_db
      = match extractOne (lower ocr_text) (map fst issuer_db) 30%Z with
        | Some (choice, _, _) => (Some choice, db_get issuer_db choice 25%Z)
        | None => (None, 25%Z)
        end)
  /\ (15 <= snd (fuzzy_lookup_issuer extractOne ocr_text ISSUER_DB) <= 95)%Z.
Proof.
  split; [apply fuzzy_reputation_cases|]. split; [|split].
  - unfold fuzzy_lookup_issuer.
    destruct (first_alias ISSUER_ALIASES (lower ocr_text)) as [name|]; [discriminate|].
    destruct (extractOne _ _ _) as [[[choice sc] ix]|]; [discriminate|reflexivity].
  - intros H%first_alias_None. unfold fuzzy_lookup_issuer. rewrite H. reflexivity.
  - destruct (fuzzy_reputation_cases extractOne ocr_text ISSUER_DB) as [->|(k & _ & Hin)];
      [lia|].
    pose proof ISSUER_DB_range as Hr. rewrite Forall_forall in Hr.
    apply list_elem_of_In, Hr in Hin. exact Hin.
Qed.

Example fuzzy_lookup_issuer_fallback :
  fuzzy_lookup_issuer (fun _ _ _ => Some ("udemy", PyInt 90, 0%nat)) "UDEMY course" ISSUER_DB
  = (Some "udemy", 20%Z)
  /\ fuzzy_lookup_issuer (fun _ _ _ => None) "UDEMY course" ISSUER_DB = (None, 25%Z)
  /\ fuzzy_lookup_issuer (fun _ _ _ => None) "Oracle University" ISSUER_DB
     = (Some "oracle", 65%Z).
Proof. conj_compute. Qed.

(** *** The skill tagger *)

Lemma lower_char_word c : is_word (lower_char c) = is_word c.
Proof. each_ascii c; reflexivity. Qed.

Lemma boundary_no_word pre post :
  Forall (fun c => is_word c = false) (pre ++ post) -> boundary pre post = false.
Proof.
  intros [Hpre Hpost]%Forall_app. unfold boundary.
  assert (A : word_at (last pre) = false).
  { destruct (last pre) as [c|] eqn:E; [|reflexivity]. simpl.
    apply last_Some in E as (l' & ->). apply Forall_app in Hpre as [_ H].
    inversion H; assumption. }
  assert (B : word_at (head post) = false).
  { destruct post as [|c post]; [reflexivity|]. simpl. inversion Hpost; assumption. }
  rewrite A, B. reflexivity.
Qed.

Lemma found_skills_no_word skills text :
  Forall (fun c => is_word c = false) (chars text) ->
  found_skills skills (lower text) = [].
Proof.
  intros Hw.
  assert (Hl : Forall (fun c => is_word c = false) (chars (lower text))).
  { rewrite chars_lower, Forall_map. eapply Forall_impl; [exact Hw|].
    intros c. cbv beta. rewrite lower_char_word. trivial. }
  destruct (found_skills skills (lower text)) as [|skill l] eqn:E; [reflexivity|].
  exfalso.
  assert (Hin : skill ∈ found_skills skills (lower text))
    by (rewrite E; apply list_elem_of_here).
  apply found_skills_spec in Hin as (_ & pre & post & Ht & B1 & _).
  rewrite Ht in Hl. rewrite boundary_no_word in B1; [discriminate|exact Hl].
Qed.

Lemma extract_skills_empty SKILL_TAGS : extract_skills SKILL_TAGS EmptyString = [].
Proof.
  unfold extract_skills, list_set.
  rewrite (found_skills_no_word SKILL_TAGS EmptyString); [reflexivity|constructor].
Qed.

(** X6: in a text without a letter, a digit or an underscore (the empty
    text among them) no skill is found, whatever the vocabulary. *)
Theorem extract_skills_no_word SKILL_TAGS text :
  Forall (fun c => is_word c = false) (chars text) ->
  extract_skills SKILL_TAGS text = [].
Proof.
  intros Hw. unfold extract_skills, list_set.
  rewrite (found_skills_no_word _ _ Hw). reflexivity.
Qed.

(** The empty text, and a text of signs only. *)
Lemma extract_skills_no_word_witness :
  extract_skills ["Python"; "R"] EmptyString = []
  /\ extract_skills ["Python"; "R"] "+-*/ (...) %" = [].
Proof.
  split.
  - apply (extract_skills_no_word ["Python"; "R"] EmptyString). constructor.
  - apply (extract_skills_no_word ["Python"; "R"] "+-*/ (...) %").
    repeat constructor.
Defined.

(** *** The link finder *)

Lemma scheme_length w : scheme_text w -> (7 <= length w)%nat.
Proof.
  intros [E|E]; apply (f_equal (@length ascii)) in E; rewrite length_map in E;
    rewrite E; simpl; lia.
Qed.

Lemma link_kind pre w post : link_taken pre w post -> url_text w \/ code_text w.
Proof. unfold link_taken. tauto. Qed.

Lemma link_chars w :
  url_text w \/ code_text w ->
  (5 <= length w)%nat /\ Forall (fun c => is_space c = false) w.
Proof.
  intros [(w1 & w2 & -> & Hs & N & F)|([L _] & F)].
  - pose proof (scheme_length _ Hs). destruct (scheme_not_space _ Hs) as [_ F1].
    rewrite length_app. split; [lia|]. apply Forall_app. split; assumption.
  - split; [exact L|]. eapply Forall_impl; [exact F|]. apply alnum_not_space.
Qed.

Lemma code_alone w : code_text w -> link_at [] w [].
Proof.
  intros C. right. split; [exact C|]. destruct C as [[L _] F].
  unfold boundary. rewrite app_nil_r. simpl.
  split.
  - destruct w as [|c w]; [simpl in L; lia|]. simpl.
    inversion F as [|? ? Hc _]; subst. rewrite (alnum_word _ Hc). reflexivity.
  - destruct (last w) as [c|] eqn:E.
    + apply last_Some in E as (w' & ->). apply Forall_app in F as [_ F].
      inversion F as [|? ? Hc _]; subst. simpl. rewrite (alnum_word _ Hc). reflexivity.
    + apply last_None in E. subst w. simpl in L. lia.
Qed.

Lemma link_alone w : url_text w \/ code_text w -> link_at [] w [].
Proof. intros [U|C]; [left; exact U|apply code_alone, C]. Qed.

Lemma at_blank_not_space post :
  at_blank post -> Forall (fun c => is_space c = false) post -> post = [].
Proof.
  destruct post as [|c post]; [reflexivity|]. simpl. intros H F.
  inversion F; subst. congruence.
Qed.

Lemma boundary_after_word w post :
  w <> [] -> Forall (fun c => is_alnum c = true) (w ++ post) ->
  boundary w post = true -> post = [].
Proof.
  intros N [Fw Fp]%Forall_app. unfold boundary.
  destruct (last w) as [c|] eqn:E; [|apply last_None in E; congruence].
  apply last_Some in E as (w' & ->). apply Forall_app in Fw as [_ Fc].
  inversion Fc as [|? ? Hc _]; subst. simpl. rewrite (alnum_word _ Hc).
  destruct post as [|d post]; [reflexivity|]. simpl.
  inversion Fp as [|? ? Hd _]; subst. rewrite (alnum_word _ Hd). discriminate.
Qed.

(** X7: a link the finder returns has at least five characters and
    holds no whitespace anywhere, and the finder finds it again in the
    link itself: finding is idempotent. *)
Theorem find_verification_link_stable text l :
  find_verification_link text = Some l ->
  find_verification_link l = Some l
  /\ (5 <= length (chars l))%nat
  /\ Forall (fun c => is_space c = false) (chars l).
Proof.
  intros H. pose proof (find_verification_link_cases text) as Hc. rewrite H in Hc.
  destruct Hc as (pre & w & post & _ & -> & _ & _ & K%link_kind & _).
  destruct (link_chars w K) as [L F]. rewrite chars_str.
  split; [|split; assumption].
  pose proof (find_verification_link_cases (str w)) as Hc. rewrite chars_str in Hc.
  destruct (find_verification_link (str w)) as [l'|].
  - destruct Hc as (pre' & w' & post' & Hw & -> & _ & _ & T & Hmin).
    assert (Hp : pre' = []).
    { specialize (Hmin [] w [] ltac:(rewrite app_nil_r; reflexivity) (link_alone w K)).
      destruct pre'; [reflexivity|simpl in Hmin; lia]. }
    subst pre'. simpl in Hw. rewrite Hw in F. apply Forall_app in F as [_ Fp].
    assert (Hpost : post' = []).
    { destruct T as [[_ B]|(C' & _ & B & Nu)].
      - apply at_blank_not_space; assumption.
      - destruct K as [U|[_ Fa]].
        + exfalso. apply Nu. exists w, []. rewrite app_nil_r. split; [auto|exact U].
        + simpl in B. rewrite Hw in Fa. apply (boundary_after_word w'); try assumption.
          destruct C' as [[L' _] _]. intros ->. simpl in L'. lia. }
    subst post'. rewrite app_nil_r in Hw. subst w'. reflexivity.
  - exfalso. apply (Hc [] w []); [rewrite app_nil_r; reflexivity|apply link_alone, K].
Qed.

Lemma find_verification_link_stable_witness :
  find_verification_link "https://coursera.org/verify/ABC123XYZ"
  = Some "https://coursera.org/verify/ABC123XYZ".
Proof.
  refine (proj1 (find_verification_link_stable
                   "see https://coursera.org/verify/ABC123XYZ now"
                   "https://coursera.org/verify/ABC123XYZ" _)).
  vm_compute. reflexivity.
Defined.

(** *** The time commitment *)

(** The value of [extract_time_commitment]: 0, or the number of the
    phrase in hours. *)
Lemma extract_time_commitment_value text :
  extract_time_commitment text = Some (PyInt 0)
  \/ exists num unit v,
       number_text num /\ unit_text unit
       /\ float_of_str (str num) = Some (PyFloat v)
       /\ extract_time_commitment text = Some (PyFloat (in_hours v unit)).
Proof.
  unfold extract_time_commitment.
  destruct (re_search TIME_REGEX text true) as [m|] eqn:E; [right|left; reflexivity].
  apply (re_search_Some _ _ _ _ time_productive) in E
    as (pre & post & Ht & _ & (num & gap & unit & T & N & G & Hu)%time_matches & _ & Hmin).
  apply took_at in T as [Hw Hg].
  destruct (float_of_str_number num N) as [v Hv].
  exists num, unit, v. do 3 (split; [assumption|]).
  unfold group. rewrite Hg. cbn [group_text Nat.eqb fmap option_fmap option_map].
  cbn [mbind option_bind]. rewrite Hv. cbn [mbind option_bind].
  apply convert_unit, Hu.
Qed.

Lemma digits_value_nonneg l acc n :
  (0 <= acc)%Z -> digits_value acc l = Some n -> (0 <= n)%Z.
Proof.
  revert acc. induction l as [|c l IH]; intros acc Ha; simpl.
  - intros [= <-]. exact Ha.
  - destruct (is_digit c) eqn:Hc; [|discriminate]. apply IH.
    unfold is_digit, in_range in Hc. apply andb_true_iff in Hc as [H1 _].
    apply N.leb_le in H1. change (code "0") with 48%N in H1. lia.
Qed.

Lemma RN_nonneg x y : (0 <= x)%Z -> (0 < y)%Z -> fle (Fin 0) (RN x y) = true.
Proof.
  intros Hx Hy. change (Fin 0) with (RN 0 1). apply RN_mono; lia.
Qed.

Lemma float_of_str_nonneg s v :
  float_of_str s = Some (PyFloat v) -> fle (Fin 0) v = true.
Proof.
  unfold float_of_str. destruct (split_point (chars s)) as [ip fp].
  destruct ip as [|c ip]; [discriminate|].
  destruct (digits_value 0 ((c :: ip) ++ default [] fp)) as [n|] eqn:E; [|discriminate].
  cbn [mbind option_bind]. intros [= <-].
  apply digits_value_nonneg in E; [|lia]. pose proof U_pos.
  apply RN_nonneg; [nia|]. apply Z.pow_pos_nonneg; lia.
Qed.

Lemma unit_hours_cases unit :
  unit_hours unit = 1%Z \/ unit_hours unit = 10%Z \/ unit_hours unit = 40%Z.
Proof.
  unfold unit_hours. cbv zeta.
  destruct (_ || _); [auto|]. destruct (_ || _); auto.
Qed.

Lemma in_hours_nonneg v unit : fle (Fin 0) v = true -> fle (Fin 0) (in_hours v unit) = true.
Proof.
  intros H. unfold in_hours. pose proof U_pos as HU.
  assert (Hm : forall k, (0 < k)%Z -> fle (Fin 0) (fmul v (Fin (k * U))) = true).
  { intros k Hk. change (Fin 0) with (RN (0 * (k * U)) U).
    change (RN (0 * (k * U)) U) with (fmul (Fin 0) (Fin (k * U))).
    apply fmul_pos_mono; [nia|exact H]. }
  destruct (unit_hours_cases unit) as [->|[->| ->]]; [exact H|apply Hm; lia..].
Qed.

(** X8: the time commitment is always returned ([float] raises on no
    number the pattern takes) and is never negative and never a NaN: it
    is the integer 0 or a float that is 0 or more, possibly infinite. *)
Theorem extract_time_commitment_nonneg text :
  extract_time_commitment text = Some (PyInt 0)
  \/ exists x, extract_time_commitment text = Some (PyFloat x)
               /\ fle (Fin 0) x = true.
Proof.
  destruct (extract_time_commitment_value text) as [H|(num & unit & v & _ & _ & Hv & H)];
    [left; exact H|right].
  exists (in_hours v unit). split; [exact H|].
  apply in_hours_nonneg, (float_of_str_nonneg _ _ Hv).
Qed.

(** [float] reads a number of 400 digits as an infinity, which the
    conversion to hours keeps. *)
Example float_of_str_infinite :
  float_of_str (str (repeat "9"%char 400)) = Some (PyFloat PInf)
  /\ in_hours PInf (chars "weeks") = PInf.
Proof. split; vm_compute; reflexivity. Qed.

(** ** The analysis of a text *)

(** The numbers of the record [analyze_certificate] assembles. *)
Lemma assembled_numbers extractOne text db :
  let f := assemble_features extractOne text db in
  let rep := snd (fuzzy_lookup_issuer extractOne text (db_or_default db)) in
  let project := detect_keywords text PROJECT_KEYWORDS in
  let proct := contains "proct" (lower text) || contains "invigil" (lower text) in
  issuer_rep f = Some (PyInt rep)
  /\ industry_recognition f = Some (PyInt rep)
  /\ duration_hours f = extract_time_commitment text
  /\ has_project f = Some (Z.b2z project)
  /\ project_complexity f
     = Some (PyInt (if project && (contains "capstone" (lower text)
                                   || contains "portfolio" (lower text))
                    then 70 else if project then 40 else 0))
  /\ assessment_rigor f
     = Some (PyInt (if proct then 80
                    else if detect_keywords text ASSESSMENT_KEYWORDS then 60 else 20))
  /\ prerequisites_required f = Some (Z.b2z (detect_keywords text PREREQ_KEYWORDS)).
Proof.
  cbv zeta. unfold assemble_features.
  destruct (fuzzy_lookup_issuer extractOne text (db_or_default db)) as [name rep].
  repeat split.
Qed.

Lemma int_fits_small z : (Z.abs z <= 100)%Z -> int_fits z = true.
Proof.
  intros H. unfold int_fits. apply Z.ltb_lt.
  assert (100 < MAX_INT)%Z by (vm_compute; reflexivity). lia.
Qed.

Lemma db_or_default_fits db :
  Forall (fun kv => int_fits (snd kv) = true) (default [] db) ->
  Forall (fun kv => int_fits (snd kv) = true) (db_or_default db).
Proof.
  assert (H : Forall (fun kv => int_fits (snd kv) = true) ISSUER_DB).
  { eapply Forall_impl; [apply ISSUER_DB_range|]. intros [k v]. simpl. intros Hv.
    apply int_fits_small. lia. }
  destruct db as [[|e l]|]; simpl; auto.
Qed.

Lemma reputation_fits extractOne text db :
  Forall (fun kv => int_fits (snd kv) = true) db ->
  int_fits (snd (fuzzy_lookup_issuer extractOne text db)) = true.
Proof.
  intros Hdb.
  destruct (fuzzy_reputation_cases extractOne text db) as [->|(k & _ & Hin)].
  - apply int_fits_small. simpl. lia.
  - rewrite Forall_forall in Hdb. apply list_elem_of_In, Hdb in Hin. exact Hin.
Qed.

Lemma assembled_fits extractOne text db :
  Forall (fun kv => int_fits (snd kv) = true) (default [] db) ->
  ints_fit (assemble_features extractOne text db) = true.
Proof.
  intros Hdb%db_or_default_fits.
  destruct (assembled_numbers extractOne text db) as (E1 & E2 & E3 & E4 & E5 & E6 & E7).
  unfold ints_fit. rewrite E1, E2, E3, E5, E6, E7. cbn [default from_option id num_fits].
  rewrite (reputation_fits extractOne text _ Hdb).
  assert (Hd : num_fits (from_option id (PyInt 0) (extract_time_commitment text)) = true).
  { destruct (extract_time_commitment_value text) as [->|(? & ? & ? & _ & _ & _ & ->)];
      [apply (int_fits_small 0); simpl; lia|reflexivity]. }
  rewrite Hd.
  repeat match goal with
         | |- context [if ?b then _ else _] => destruct b
         | |- context [Z.b2z ?b] => destruct b; cbn [Z.b2z]
         end;
    repeat match goal with
           | |- context [int_fits ?z] => rewrite (int_fits_small z) by (simpl; lia)
           end; reflexivity.
Qed.

(** X9: with the built-in issuer table, or a table whose reputations
    are in the range of doubles, the analysis of a text always returns:
    no extractor raises, the score lies in [0, 100], the tier is 1, 2,
    3 or 4, and the snippet is the first 500 characters of the text. *)
Theorem analyze_certificate_returns extractOne SKILL_TAGS text db :
  Forall (fun kv => int_fits (snd kv) = true) (default [] db) ->
  exists a,
    analyze_certificate extractOne SKILL_TAGS text db = Some a
    /\ out_features a = assemble_features extractOne text db
    /\ compute_certificate_tier (out_features a) db = Some (out_result a)
    /\ py_le (PyInt 0) (score (out_result a)) = true
    /\ py_le (score (out_result a)) (PyInt 100) = true
    /\ (tier (out_result a) = 1 \/ tier (out_result a) = 2
        \/ tier (out_result a) = 3 \/ tier (out_result a) = 4)%Z
    /\ chars (out_raw_text_snippet a) = take 500 (chars text).
Proof.
  intros Hdb. pose proof (assembled_fits extractOne text db Hdb) as Hf.
  destruct (raw_score_fits _ Hf) as [c Hc].
  unfold analyze_certificate. rewrite compute_eq, Hc. cbn [mbind option_bind].
  eexists. split; [reflexivity|].
  cbn [out_features out_result out_raw_text_snippet score tier].
  split; [reflexivity|]. split; [rewrite compute_eq, Hc; reflexivity|].
  destruct (py_round2_clamp_range c) as (H1 & H2 & _).
  split; [exact H1|]. split; [exact H2|]. split; [apply tier_of_cases|apply chars_str].
Qed.

(** A text analysed with the built-in table and a fuzzy matcher that
    finds nothing. *)
Lemma analyze_certificate_returns_witness :
  exists a,
    analyze_certificate (fun _ _ _ => None) ["Python"]
      "Python capstone project, 3 weeks, graded exam" None = Some a
    /\ py_le (PyInt 0) (score (out_result a)) = true
    /\ py_le (score (out_result a)) (PyInt 100) = true.
Proof.
  destruct (analyze_certificate_returns (fun _ _ _ => None) ["Python"]
              "Python capstone project, 3 weeks, graded exam" None)
    as (a & E & _ & _ & H0 & H100 & _).
  - constructor.
  - exists a. split; [exact E|]. split; assumption.
Defined.

Example analyze_certificate_example :
  exists a,
    analyze_certificate (fun _ _ _ => None) ["Python"]
      "Python capstone project, 3 weeks, graded exam" None = Some a
    /\ out_issuer a = "unknown" /\ out_skills a = ["Python"]
    /\ exact (score (out_result a)) = lit 5175 100 /\ tier (out_result a) = 3%Z.
Proof. eexists. split; [vm_compute; reflexivity|]. repeat split. Qed.

Local Open Scope Z_scope.

Lemma fle_trans x y z : fle x y = true -> fle y z = true -> fle x z = true.
Proof.
  destruct x, y, z; simpl; intros H1 H2; try discriminate; try reflexivity.
  apply Z.leb_le in H1, H2. apply Z.leb_le. lia.
Qed.

Lemma below_trans x y z : below x y -> below y z -> below x z.
Proof.
  unfold below. intros Hxy [->|[[-> ->]|Hyz]]; [auto| |].
  - destruct x; simpl; auto.
  - destruct Hxy as [->|[[-> ->]|Hxy]].
    + destruct z; discriminate.
    + destruct z; simpl in Hyz; try discriminate. auto.
    + right; right. eapply fle_trans; eassumption.
Qed.

Lemma lit_0_10 : lit 0 10 = Fin 0.
Proof. vm_compute. reflexivity. Qed.

Lemma composite_prereq a s p t i x b :
  composite_f a s p t i (Fin x) b = composite_f a s p t i (Fin 0) b.
Proof. unfold composite_f. rewrite lit_0_10. simpl. rewrite Z.mul_0_r. reflexivity. Qed.

Lemma composite_57 :
  exists c, composite_f (Fin (57 * U)) (Fin (80 * U)) (Fin (70 * U)) (Fin (100 * U))
              (Fin (57 * U)) (Fin 0) (Fin (10 * U)) = Fin c
            /\ 0 < c < 80 * U.
Proof. eexists. split; [vm_compute; reflexivity|]. split; reflexivity. Qed.

(** The composite of the signals the analysis can produce for a
    reputation of 57 or less. *)
Lemma composite_bound a s p t i x b :
  fle a (Fin (57 * U)) = true -> fle s (Fin (80 * U)) = true ->
  fle p (Fin (70 * U)) = true -> fle t (Fin (100 * U)) = true ->
  fle i (Fin (57 * U)) = true -> fle b (Fin (10 * U)) = true ->
  exists c, 0 < c < 80 * U /\ below (composite_f a s p t i (Fin x) b) (Fin c).
Proof.
  intros Ha Hs Hp Ht Hi Hb. destruct composite_57 as (c & E & Hc).
  exists c. split; [exact Hc|]. rewrite <- E, composite_prereq.
  eapply below_trans; [apply composite_issuer_rep, Ha|].
  eapply below_trans; [apply composite_assessment, Hs|].
  eapply below_trans; [apply composite_project, Hp|].
  eapply below_trans; [apply composite_time, Ht|].
  eapply below_trans; [apply composite_industry, Hi|].
  apply composite_bonus, Hb.
Qed.

Lemma tier_of_low c0 c :
  0 < c < 80 * U -> below c0 (Fin c) -> 2 <= tier_of (clamp (PyFloat c0)).
Proof.
  intros Hc H%clampf_below. pose proof U_pos as HU.
  assert (E : clampf (Fin c) = Fin c).
  { unfold clampf. simpl. destruct (Z.ltb_spec c (100 * U)); [|lia].
    destruct (Z.ltb_spec 0 c); [reflexivity|lia]. }
  rewrite E in H. rewrite tier_of_clamp.
  destruct (clampf_range c0) as (a0 & E0 & _). rewrite E0 in H |- *.
  simpl in H |- *. apply Z.leb_le in H.
  destruct (Z.leb_spec (80 * U) a0); [lia|].
  destruct (80 * U <=? a0), (60 * U <=? a0), (40 * U <=? a0); lia.
Qed.

Lemma float_of_int_le z n m :
  z <= n -> float_of_int z = Some m -> float_of_int n = Some (Fin (n * U)) ->
  fle m (Fin (n * U)) = true.
Proof.
  intros Hle Hz Hn. pose proof U_pos as HU. unfold float_of_int in *.
  assert (H : fle (RN (z * U) 1) (RN (n * U) 1) = true) by (apply RN_mono; nia).
  destruct (RN (n * U) 1); try discriminate. injection Hn as ->.
  destruct (RN (z * U) 1); try discriminate. injection Hz as <-. exact H.
Qed.

Lemma float_of_int_57 : float_of_int 57 = Some (Fin (57 * U)).
Proof. vm_compute. reflexivity. Qed.
Lemma float_of_int_70 : float_of_int 70 = Some (Fin (70 * U)).
Proof. vm_compute. reflexivity. Qed.
Lemma float_of_int_80 : float_of_int 80 = Some (Fin (80 * U)).
Proof. vm_compute. reflexivity. Qed.

Lemma float_of_int_Fin z q : float_of_int z = Some q -> exists x, q = Fin x.
Proof. unfold float_of_int. destruct (RN (z * U) 1); intros [= <-]; eauto. Qed.

Lemma time_score_f_le th : fle (time_score_f th) (Fin (100 * U)) = true.
Proof.
  unfold time_score_f.
  destruct (clampf_range (fmul (fdiv_by (200 * U) th) (Fin (100 * U)))) as (a & -> & Ha).
  simpl. apply Z.leb_le. lia.
Qed.

(** X10: a text whose issuer has a reputation of 57 or less (an unknown
    issuer, with its 25, among them) is never placed in tier 1, whatever
    else the text says: the other signals of the analysis add up to 54
    points at most. *)
Theorem low_reputation_not_tier_1 extractOne SKILL_TAGS text db a :
  analyze_certificate extractOne SKILL_TAGS text db = Some a ->
  snd (fuzzy_lookup_issuer extractOne text (db_or_default db)) <= 57 ->
  2 <= tier (out_result a).
Proof.
  intros E Hrep. pose proof U_pos as HU. unfold analyze_certificate in E.
  destruct (compute_certificate_tier (assemble_features extractOne text db) db)
    as [r|] eqn:Er; [|discriminate].
  injection E as <-. cbn [out_result].
  apply compute_inv in Er as (s & Es & ->). cbn [tier].
  destruct (assembled_numbers extractOne text db) as (E1 & E2 & E3 & E4 & E5 & E6 & E7).
  unfold raw_score_spec in Es. rewrite E1, E2, E4, E5, E6, E7 in Es.
  cbn [default from_option id as_float] in Es.
  destruct (float_of_int (snd (fuzzy_lookup_issuer extractOne text (db_or_default db))))
    as [x|] eqn:Ha; [|discriminate].
  cbn [mbind option_bind] in Es.
  destruct (as_float _) as [th|] in Es; [|discriminate]. cbn [mbind option_bind] in Es.
  match type of Es with
  | context [float_of_int (if ?b then 80 else ?e)] =>
      destruct (float_of_int (if b then 80 else e)) as [sa|] eqn:Hs; [|discriminate]
  end.
  cbn [mbind option_bind] in Es.
  match type of Es with
  | context [float_of_int (if ?b then 70 else ?e)] =>
      destruct (float_of_int (if b then 70 else e)) as [pc|] eqn:Hp; [|discriminate]
  end.
  cbn [mbind option_bind] in Es.
  destruct (float_of_int (Z.b2z (detect_keywords text PREREQ_KEYWORDS) * 100))
    as [q|] eqn:Hq; [|discriminate].
  cbn [mbind option_bind] in Es. injection Es as <-.
  apply float_of_int_Fin in Hq as [xq ->].
  assert (Bx : fle x (Fin (57 * U)) = true)
    by exact (float_of_int_le _ 57 _ Hrep Ha float_of_int_57).
  assert (Bs : fle sa (Fin (80 * U)) = true).
  { refine (float_of_int_le _ 80 _ _ Hs float_of_int_80).
    repeat match goal with |- context [if ?b then _ else _] => destruct b end; lia. }
  assert (Bp : fle pc (Fin (70 * U)) = true).
  { refine (float_of_int_le _ 70 _ _ Hp float_of_int_70).
    repeat match goal with |- context [if ?b then _ else _] => destruct b end; lia. }
  destruct (composite_bound x sa
              (if negb (Z.b2z (detect_keywords text PROJECT_KEYWORDS) =? 0)
               then pc else Fin 0)
              (time_score_f th) x xq
              (if from_option id false (verified (assemble_features extractOne text db))
               then Fin (10 * U) else Fin 0)) as (c & Hc & Hb); try assumption.
  - destruct (negb _); [exact Bp|]. simpl. apply Z.leb_le. lia.
  - apply time_score_f_le.
  - destruct (from_option _ _ _); simpl; apply Z.leb_le; lia.
  - eapply tier_of_low; eassumption.
Qed.

(** An unknown issuer with every other signal at its best: tier 2. *)
Lemma low_reputation_not_tier_1_witness :
  exists a,
    analyze_certificate (fun _ _ _ => None) []
      "proctored capstone, 500 hours, https://x.org/verify/1" None = Some a
    /\ tier (out_result a) = 2.
Proof.
  eexists. split; [vm_compute; reflexivity|].
  apply Z.le_antisymm; [vm_compute; discriminate|].
  refine (low_reputation_not_tier_1 (fun _ _ _ => None) []
            "proctored capstone, 500 hours, https://x.org/verify/1" None _ _ _).
  - vm_compute. reflexivity.
  - vm_compute. discriminate.
Defined.

(** A reputation of 58 suffices. *)
Example reputation_58_tier_1 :
  exists a,
    analyze_certificate (fun _ _ _ => Some ("acme", PyInt 100, 0%nat)) []
      "proctored capstone, 500 hours, https://x.org/verify/1" (Some [("acme", 58)]) = Some a
    /\ tier (out_result a) = 1.
Proof. eexists. split; [vm_compute; reflexivity|reflexivity]. Qed.

Local Close Scope Z_scope.

Lemma substring_trans a b t : substring a b -> substring b t -> substring a t.
Proof.
  intros (p1 & q1 & E1) (p2 & q2 & E2). exists (p2 ++ p1), (q1 ++ q2).
  rewrite E2, E1, <- !app_assoc. reflexivity.
Qed.

Lemma contains_within a b t :
  contains a b = true -> contains b t = true -> contains a t = true.
Proof. rewrite !contains_spec. apply substring_trans. Qed.

Ltac project_cases text :=
  destruct (contains "capstone" (lower text)), (contains "portfolio" (lower text)),
    (contains "project" (lower text)), (contains "hands-on" (lower text)),
    (contains "lab" (lower text)), (contains "practical" (lower text));
  cbn [orb andb Z.b2z]; split; intros; try discriminate; intuition discriminate.

(** X11: the signals the analysis reads off the keywords.  A project
    has complexity 70 exactly when the text names a capstone or a
    portfolio, 40 when it names another project keyword only, and 0
    exactly when [has_project] is 0.  The rigor is 80 exactly when the
    text speaks of proctoring or invigilation, 60 when it does not but
    names an exam, a grade, an assessment or passing, and 20 otherwise.
    The reputation of the issuer is stored twice, as [issuer_rep] and
    as [industry_recognition]. *)
Theorem assembled_signals extractOne text db :
  let f := assemble_features extractOne text db in
  let has k := substring k (lower text) in
  (project_complexity f = Some (PyInt 70) <-> has "capstone" \/ has "portfolio")
  /\ (project_complexity f = Some (PyInt 40)
      <-> ~ (has "capstone" \/ has "portfolio")
          /\ (has "project" \/ has "hands-on" \/ has "lab" \/ has "practical"))
  /\ (project_complexity f = Some (PyInt 0) <-> has_project f = Some 0%Z)
  /\ (assessment_rigor f = Some (PyInt 80) <-> has "proct" \/ has "invigil")
  /\ (assessment_rigor f = Some (PyInt 60)
      <-> ~ (has "proct" \/ has "invigil")
          /\ (has "exam" \/ has "graded" \/ has "assess" \/ has "passing"))
  /\ issuer_rep f = industry_recognition f.
Proof.
  cbv zeta.
  destruct (assembled_numbers extractOne text db) as (E1 & E2 & _ & E4 & E5 & E6 & _).
  rewrite E1, E2, E4, E5, E6. rewrite <- !contains_spec.
  split; [|split; [|split; [|split; [|split; [|reflexivity]]]]].
  - unfold detect_keywords, PROJECT_KEYWORDS. cbn [existsb]. project_cases text.
  - unfold detect_keywords, PROJECT_KEYWORDS. cbn [existsb]. project_cases text.
  - unfold detect_keywords, PROJECT_KEYWORDS. cbn [existsb]. project_cases text.
  - destruct (contains "proct" (lower text)), (contains "invigil" (lower text)),
      (detect_keywords text ASSESSMENT_KEYWORDS); cbn [orb];
      split; intros; try discriminate; intuition discriminate.
  - unfold detect_keywords, ASSESSMENT_KEYWORDS. cbn [existsb].
    pose proof (contains_within "proct" "proctored" (lower text) eq_refl) as I1.
    pose proof (contains_within "invigil" "invigilat" (lower text) eq_refl) as I2.
    pose proof (contains_within "exam" "final exam" (lower text) eq_refl) as I3.
    destruct (contains "proct" (lower text));
      [cbn [orb]; split; intros; try discriminate; intuition discriminate|].
    destruct (contains "invigil" (lower text));
      [cbn [orb]; split; intros; try discriminate; intuition discriminate|].
    destruct (contains "proctored" (lower text)); [specialize (I1 eq_refl); discriminate I1|].
    destruct (contains "invigilat" (lower text)); [specialize (I2 eq_refl); discriminate I2|].
    clear I1 I2.
    destruct (contains "final exam" (lower text));
      [rewrite (I3 eq_refl); cbn [orb]; split; [intros _; split; [intros [?|?]; discriminate|auto]|reflexivity]|].
    clear I3.
    destruct (contains "exam" (lower text)), (contains "graded" (lower text)),
      (contains "assess" (lower text)), (contains "passing" (lower text)); cbn [orb];
      split; intros; try discriminate; intuition discriminate.
Qed.

(** X12: the two verification fields of the assembled record agree: a
    reason [registry] or [simple_link] comes with [verified] true, and a
    record that is not verified has the reason [proctored], [blockchain]
    or [none]; the reason [none] comes with [verified] false. *)
Theorem verified_matches_reason extractOne text db :
  exists b reason,
    verified (assemble_features extractOne text db) = Some b
    /\ verification_reason (assemble_features extractOne text db) = Some reason
    /\ (reason = "registry" \/ reason = "simple_link" -> b = true)
    /\ (b = false -> reason = "proctored" \/ reason = "blockchain" \/ reason = "none")
    /\ (reason = "none" -> b = false)
    /\ In reason ["proctored"; "blockchain"; "registry"; "simple_link"; "none"].
Proof.
  destruct (verified_assembled extractOne text db) as [-> ->].
  eexists _, _. split; [reflexivity|]. split; [reflexivity|].
  unfold guess_verification_method.
  destruct (contains "proct" (lower text) || contains "invigil" (lower text));
    [|destruct (contains "blockchain" (lower text));
      [|destruct (truthy (find_verification_link text)); [destruct (existsb _ _)|]]];
    (split; [|split; [|split]]);
    try (intros [H|H]; discriminate H);
    try (intros H; discriminate H);
    try reflexivity;
    try (intros _; repeat first [reflexivity | left; reflexivity | right]);
    simpl; repeat first [left; reflexivity | right].
Qed.

Local Open Scope Z_scope.

(** ** Images *)

Lemma rhe_exact k y : 0 < y -> round_half_even (k * y) y = k.
Proof.
  intros Hy. apply Z.le_antisymm; [apply rhe_upper|apply rhe_lower]; lia.
Qed.

Lemma to_double_Fin m : - HUGE < m < HUGE -> to_double m = Fin m.
Proof.
  intros H. unfold to_double.
  destruct (Z.leb_spec HUGE m); [lia|]. destruct (Z.leb_spec m (- HUGE)); [lia|reflexivity].
Qed.

Lemma U_HUGE : 2 ^ 53 * U < HUGE /\ 2 ^ 53 <= U /\ 2500 * U < 2 ^ 52 * U.
Proof. conj_compute. Qed.

(** An [int] below 2^53 is a double. *)
Lemma float_of_int_exact z :
  0 <= z < 2 ^ 53 -> float_of_int z = Some (Fin (z * U)).
Proof.
  intros Hz. pose proof U_pos as HU. destruct U_HUGE as (HH & _ & _).
  unfold float_of_int. assert (E : RN (z * U) 1 = Fin (z * U)); [|rewrite E; reflexivity].
  rewrite RN_unfold. unfold signed_round.
  destruct (Z.leb_spec 0 (z * U)); [|nia].
  assert (R : round_pos (z * U) 1 = z * U); [|rewrite R; apply to_double_Fin; nia].
  destruct (Z.eq_dec z 0) as [->|Hn]; [reflexivity|].
  unfold round_pos. cbv zeta. rewrite Z.mul_1_l.
  set (e := ulp_exp (z * U) 1).
  assert (He : 0 <= e <= 1074).
  { unfold e, ulp_exp. rewrite Z.div_1_r. unfold U.
    rewrite Z.log2_mul_pow2 by lia.
    assert (Z.log2 z < 53) by (apply Z.log2_lt_pow2; lia).
    pose proof (Z.log2_nonneg z). lia. }
  assert (EU : U = 2 ^ (1074 - e) * 2 ^ e).
  { unfold U. rewrite <- Z.pow_add_r by lia. f_equal. lia. }
  assert (0 < 2 ^ e) by (apply Z.pow_pos_nonneg; lia).
  rewrite EU at 1. rewrite Z.mul_assoc, rhe_exact by lia.
  rewrite <- Z.mul_assoc, <- EU. reflexivity.
Qed.

(** The scale [2500 / m] of an image with a side [m] above 2500: a
    double within half a unit in 2500 of the quotient. *)
Lemma scale_bounds m :
  2500 < m < 2 ^ 53 ->
  exists s, int_truediv 2500 m = Some (Fin s)
            /\ 4999 * U <= 2 * (m * s) <= 5001 * U.
Proof.
  intros Hm. pose proof U_pos as HU. destruct U_HUGE as (HH & HU53 & H52).
  unfold int_truediv.
  destruct (Z.eqb_spec m 0); [lia|]. destruct (Z.ltb_spec 0 m); [|lia].
  rewrite RN_unfold. unfold signed_round.
  destruct (Z.leb_spec 0 (2500 * U)); [|lia].
  set (s := round_pos (2500 * U) m).
  assert (Hs : 4999 * U <= 2 * (m * s) <= 5001 * U).
  { unfold s, round_pos. cbv zeta. set (e := ulp_exp (2500 * U) m).
    pose proof (ulp_exp_nonneg (2500 * U) m) as He. fold e in He.
    assert (Hp : 0 < 2 ^ e) by (apply Z.pow_pos_nonneg; lia).
    assert (Hy : m * 2 ^ e <= U).
    { destruct (Z.eq_dec e 0) as [E0|E0].
      - rewrite E0. simpl. lia.
      - pose proof (ulp_exp_lower (2500 * U) m ltac:(lia) ltac:(lia)) as Hl.
        fold e in Hl. specialize (Hl ltac:(lia)).
        rewrite Z.pow_add_r in Hl by lia.
        assert (m * 2 ^ e * 2 ^ 52 <= 2500 * U) by lia.
        assert (0 < 2 ^ 52) by reflexivity. nia. }
    destruct (rhe_spec (2500 * U) (m * 2 ^ e) ltac:(nia)) as [Hq _].
    cbv zeta in Hq. set (q := round_half_even (2500 * U) (m * 2 ^ e)) in *.
    replace (2 * (m * (q * 2 ^ e))) with (2 * q * (m * 2 ^ e)) by ring. lia. }
  exists s. split; [|exact Hs].
  rewrite to_double_Fin; [reflexivity|]. nia.
Qed.

Lemma U_half : U = 2 * (U / 2) /\ RN (5001 * U) 2 = Fin (5001 * (U / 2))
               /\ RN (4999 * U) 2 = Fin (4999 * (U / 2)) /\ RN 0 1 = Fin 0.
Proof. conj_compute. Qed.

(** A side of the image times the scale, as an [int]. *)
Lemma scaled_side w m s :
  0 <= w <= m -> 2500 < m < 2 ^ 53 -> 4999 * U <= 2 * (m * s) <= 5001 * U ->
  exists w', (int w * Some (PyFloat (Fin s)))%py ≫= py_int = Some w'
             /\ 0 <= w' <= 2500 /\ (w = m -> 2499 <= w').
Proof.
  intros Hw Hm Hs. pose proof U_pos as HU. destruct U_half as (HV & R1 & R2 & R0).
  set (V := U / 2) in *. assert (0 < V) by lia.
  unfold int. rewrite (py_mul_float (PyInt w) (Fin (w * U)) (Fin s))
    by (apply float_of_int_exact; lia).
  cbn [mbind option_bind fmul].
  assert (Hs0 : 0 <= s) by nia.
  assert (Hlo : fle (Fin 0) (RN (w * U * s) U) = true)
    by (rewrite <- R0; apply RN_mono; nia).
  assert (Hhi : fle (RN (w * U * s) U) (Fin (5001 * V)) = true).
  { rewrite <- R1. apply RN_mono; try lia.
    assert (w * s <= m * s) by nia. nia. }
  destruct (fle_between _ _ _ Hlo Hhi) as (p & Ep & Hp). rewrite Ep.
  cbn [py_int]. eexists. split; [reflexivity|].
  rewrite Z.quot_div_nonneg by lia. split; [split|].
  - apply Z.div_pos; lia.
  - assert (p / U < 2501); [|lia]. apply Z.div_lt_upper_bound; lia.
  - intros ->. 
    assert (Hl2 : fle (Fin (4999 * V)) (RN (m * U * s) U) = true).
    { rewrite <- R2. apply RN_mono; try lia. nia. }
    rewrite Ep in Hl2. simpl in Hl2. apply Z.leb_le in Hl2.
    apply Z.div_le_lower_bound; lia.
Qed.

Section Preprocessing.

Context `{Imaging}.

(** What PIL promises: a conversion, a contrast and a filter return an
    image of the same size, and [resize] one of the size asked for. *)
Hypothesis convert_size :
  forall img mode img', convert img mode = Some img' -> image_size img' = image_size img.
Hypothesis autocontrast_size :
  forall img img', autocontrast img = Some img' -> image_size img' = image_size img.
Hypothesis filter_size :
  forall img f img', apply_filter img f = Some img' -> image_size img' = image_size img.
Hypothesis resize_size :
  forall img s img', resize_lanczos img s = Some img' -> image_size img' = s.

(** X13: an image that [preprocess_pil_image] returns has no side above
    2500: an image within 2500 by 2500 keeps its size, and a larger one
    is resized so that its longer side is 2499 or 2500 (the product with
    the rounded scale can fall just below 2500) and no side is negative. *)
Theorem preprocess_pil_image_bounded img img' :
  preprocess_pil_image img = Some img' ->
  0 < fst (image_size img) < 2 ^ 53 -> 0 < snd (image_size img) < 2 ^ 53 ->
  (Z.max (fst (image_size img)) (snd (image_size img)) <= 2500 ->
   image_size img' = image_size img)
  /\ (2500 < Z.max (fst (image_size img)) (snd (image_size img)) ->
      2499 <= Z.max (fst (image_size img')) (snd (image_size img')))
  /\ 0 <= fst (image_size img') <= 2500 /\ 0 <= snd (image_size img') <= 2500.
Proof.
  unfold preprocess_pil_image. intros Hr Hw Hh.
  destruct (convert img "L") as [i1|] eqn:E1; [|discriminate].
  cbn [mbind option_bind] in Hr.
  destruct (autocontrast i1) as [i2|] eqn:E2; [|discriminate].
  cbn [mbind option_bind] in Hr.
  destruct (apply_filter i2 (MedianFilter 3)) as [i3|] eqn:E3; [|discriminate].
  cbn [mbind option_bind] in Hr.
  destruct (apply_filter i3 SHARPEN) as [i4|] eqn:E4; [|discriminate].
  cbn [mbind option_bind] in Hr.
  assert (Es : image_size i4 = image_size img).
  { rewrite (filter_size _ _ _ E4), (filter_size _ _ _ E3), (autocontrast_size _ _ E2).
    apply (convert_size _ _ _ E1). }
  rewrite Es in Hr. destruct (image_size img) as [w h] eqn:Esz. cbn [fst snd] in *.
  destruct (Z.ltb_spec 2500 (Z.max w h)) as [Hbig|Hsmall].
  - destruct (scale_bounds (Z.max w h) ltac:(lia)) as (s & Hsc & Hs).
    rewrite Hsc in Hr. cbn [mbind option_bind] in Hr.
    destruct (scaled_side w (Z.max w h) s ltac:(lia) ltac:(lia) Hs) as (w' & Ew & Bw & Mw).
    destruct (scaled_side h (Z.max w h) s ltac:(lia) ltac:(lia) Hs) as (h' & Eh & Bh & Mh).
    rewrite Ew in Hr. cbn [mbind option_bind] in Hr.
    rewrite Eh in Hr. cbn [mbind option_bind] in Hr.
    apply resize_size in Hr. rewrite Hr. cbn [fst snd].
    split; [lia|]. split; [|split; assumption].
    intros _. destruct (Z.max_spec w h) as [[_ Em]|[_ Em]].
    + specialize (Mh (eq_sym Em)). lia.
    + specialize (Mw (eq_sym Em)). lia.
  - injection Hr as <-. rewrite Es. cbn [fst snd].
    split; [reflexivity|]. split; [lia|]. lia.
Qed.

End Preprocessing.

(** An image of 5000 by 3000 becomes one of 2500 by 1500. *)
Lemma preprocess_pil_image_bounded_witness :
  @preprocess_pil_image plain_images (5000, 3000) = Some (2500, 1500)
  /\ 0 <= fst (2500, 1500) <= 2500 /\ 0 <= snd (2500, 1500) <= 2500.
Proof.
  assert (E : @preprocess_pil_image plain_images (5000, 3000) = Some (2500, 1500))
    by (vm_compute; reflexivity).
  split; [exact E|].
  refine (proj2 (proj2 (@preprocess_pil_image_bounded plain_images _ _ _ _
                          (5000, 3000) (2500, 1500) E _ _))).
  - intros img mode img' [= <-]. reflexivity.
  - intros img img' [= <-]. reflexivity.
  - intros img f img' [= <-]. reflexivity.
  - intros img s img' [= <-]. reflexivity.
  - simpl. lia.
  - simpl. lia.
Defined.

(** A longer side of 4236 becomes 2499, and a width of 1 becomes 0. *)
Example preprocess_pil_image_short :
  @preprocess_pil_image plain_images (4236, 4236) = Some (2499, 2499)
  /\ @preprocess_pil_image plain_images (1, 2501) = Some (0, 2500).
Proof. split; vm_compute; reflexivity. Qed.

Local Close Scope Z_scope.

(** ** Documents *)

Lemma string_app_assoc (a b c : string) : ((a ++ b) ++ c = a ++ b ++ c)%string.
Proof.
  induction a as [|x a IH]; [reflexivity|].
  change (String x ((a ++ b) ++ c) = String x (a ++ b ++ c))%string. f_equal. exact IH.
Qed.

Lemma string_app_nil_r (a : string) : (a ++ EmptyString = a)%string.
Proof.
  induction a as [|x a IH]; [reflexivity|].
  change (String x (a ++ EmptyString) = String x a)%string. f_equal. exact IH.
Qed.

Section Reading.

Context `{Documents}.

Lemma read_pages_prefix pages text :
  exists done rest,
    pages = done ++ rest
    /\ Forall (fun page => page_text_or_ocr page <> None) done
    /\ match rest with
       | [] => read_pages pages text = ((text ++ page_lines done)%string, false)
       | page :: _ =>
           page_text_or_ocr page = None
           /\ read_pages pages text = ((text ++ page_lines done)%string, true)
       end.
Proof.
  revert text. induction pages as [|page pages IH]; intros text.
  - exists [], []. simpl. rewrite string_app_nil_r. auto.
  - simpl. destruct (page_text_or_ocr page) as [t|] eqn:E.
    + destruct (IH (text ++ t ++ String "010" EmptyString)%string)
        as (done & rest & -> & F & Hr).
      exists (page :: done), rest. split; [reflexivity|].
      split; [constructor; [congruence|exact F]|].
      simpl. rewrite E. cbn [default from_option id].
      destruct rest as [|p rest].
      * rewrite Hr, !string_app_assoc. reflexivity.
      * destruct Hr as [Hp Hr]. split; [exact Hp|].
        rewrite Hr, !string_app_assoc. reflexivity.
    + exists [], (page :: pages). simpl. rewrite string_app_nil_r. auto.
Qed.

(** X14: the text of a document is the text of its pages up to the
    first page that raises: the pages before it are kept, each with a
    line end, and no page after it is read; a document that cannot be
    opened gives the empty text.  A page with visible text gives that
    text, whatever its picture holds; a page whose text is blank gives
    the text read from its picture instead. *)
Theorem extract_text_from_pdf_prefix file_path :
  match fitz_open file_path with
  | None => extract_text_from_pdf_run file_path = (EmptyString, true)
  | Some doc =>
      exists done rest,
        doc = done ++ rest
        /\ Forall (fun page => page_text_or_ocr page <> None) done
        /\ extract_text_from_pdf file_path = page_lines done
        /\ match rest with
           | [] => snd (extract_text_from_pdf_run file_path) = false
           | page :: _ =>
               page_text_or_ocr page = None
               /\ snd (extract_text_from_pdf_run file_path) = true
           end
  end
  /\ (forall page t, get_text page = Some t ->
        (strip t <> EmptyString -> page_text_or_ocr page = Some t)
        /\ (strip t = EmptyString -> page_text_or_ocr page = render page ≫= ocr_image)).
Proof.
  split.
  - unfold extract_text_from_pdf, extract_text_from_pdf_run.
    destruct (fitz_open file_path) as [doc|]; [|reflexivity].
    destruct (read_pages_prefix doc EmptyString) as (done & rest & E & F & Hr).
    exists done, rest. split; [exact E|]. split; [exact F|].
    destruct rest as [|p rest].
    + rewrite Hr. split; reflexivity.
    + destruct Hr as [Hp Hr]. rewrite Hr. repeat split. exact Hp.
  - intros page t Ht. unfold page_text_or_ocr. rewrite Ht. cbn [mbind option_bind].
    split; intros Hs.
    + destruct t as [|c t]; [exfalso; apply Hs; reflexivity|].
      destruct (strip (String c t)) as [|c' t'] eqn:E; [congruence|]. reflexivity.
    + rewrite Hs. rewrite andb_false_r. reflexivity.
Qed.

End Reading.

(** A page of text, a blank page read from its picture, and a page
    that cannot be read: the fourth page is lost. *)
Example extract_text_from_pdf_lost_page :
  @extract_text_from_pdf_run plain_images plain_documents "scan.pdf"
  = ((("Certificate of Completion" ++ String "010" EmptyString)
      ++ String "010" EmptyString)%string, true)
  /\ @extract_text_from_pdf_run plain_images plain_documents "missing.pdf"
     = (EmptyString, true).
Proof. split; vm_compute; reflexivity. Qed.

(** ** Files *)

Lemma fuzzy_lookup_issuer_empty extractOne db :
  extractOne EmptyString (map fst db) 30%Z = None ->
  fuzzy_lookup_issuer extractOne EmptyString db = (None, 25%Z).
Proof.
  intros Hx. unfold fuzzy_lookup_issuer.
  change (lower EmptyString) with EmptyString.
  change (first_alias ISSUER_ALIASES EmptyString) with (@None string).
  cbv iota beta zeta. rewrite Hx. reflexivity.
Qed.

Lemma empty_text_facts :
  extract_time_commitment EmptyString = Some (PyInt 0)
  /\ detect_keywords EmptyString PROJECT_KEYWORDS = false
  /\ detect_keywords EmptyString ASSESSMENT_KEYWORDS = false
  /\ detect_keywords EmptyString PREREQ_KEYWORDS = false
  /\ contains "proct" (lower EmptyString) || contains "invigil" (lower EmptyString) = false
  /\ find_verification_link EmptyString = None
  /\ guess_verification_method EmptyString None = "none".
Proof. conj_compute. Qed.

(** The analysis of the empty text. *)
Lemma analyze_empty_text extractOne SKILL_TAGS db a :
  analyze_certificate extractOne SKILL_TAGS EmptyString db = Some a ->
  out_skills a = [] /\ out_raw_text_snippet a = EmptyString
  /\ verified (out_features a) = Some false
  /\ verification_reason (out_features a) = Some "none"
  /\ duration_hours (out_features a) = Some (PyInt 0)
  /\ has_project (out_features a) = Some 0%Z
  /\ project_complexity (out_features a) = Some (PyInt 0)
  /\ assessment_rigor (out_features a) = Some (PyInt 20)
  /\ prerequisites_required (out_features a) = Some 0%Z
  /\ (extractOne EmptyString (map fst (db_or_default db)) 30%Z = None ->
      out_issuer a = "unknown"
      /\ exact (score (out_result a)) = lit 1625 100 /\ tier (out_result a) = 4%Z).
Proof.
  unfold analyze_certificate.
  destruct (compute_certificate_tier _ db) as [r|] eqn:Er; [|discriminate].
  cbn [mbind option_bind]. intros [= <-].
  cbn [out_skills out_raw_text_snippet out_features out_issuer out_result].
  destruct (assembled_numbers extractOne EmptyString db)
    as (_ & _ & E3 & E4 & E5 & E6 & E7).
  destruct (verified_assembled extractOne EmptyString db) as [V1 V2].
  destruct empty_text_facts as (F1 & F2 & F3 & F4 & F5 & F6 & F7).
  rewrite V1, V2, E3, E4, E5, E6, E7, F1, F2, F3, F4, F5, F6, F7.
  split; [apply extract_skills_empty|]. split; [vm_compute; reflexivity|].
  do 7 (split; [reflexivity|]).
  intros Hx. rewrite (fuzzy_lookup_issuer_empty _ _ Hx). split; [reflexivity|].
  assert (Ef : assemble_features extractOne EmptyString db
               = assemble_features (fun _ _ _ => None) EmptyString None).
  { unfold assemble_features. rewrite (fuzzy_lookup_issuer_empty _ _ Hx).
    rewrite (fuzzy_lookup_issuer_empty (fun _ _ _ => None) _ eq_refl). reflexivity. }
  rewrite Ef in Er. vm_compute in Er. injection Er as <-.
  split; vm_compute; reflexivity.
Qed.

Section Files.

Context `{Documents}.
Variable splitext_ext : string -> string.
Variable extractOne : string -> list string -> Z -> option (string * pynum * nat).
Variable SKILL_TAGS : list string.

(** X15: a file whose extension, lowercased, is none of the five known
    ones is refused without being read.  A document or an image that
    cannot be opened or read is analysed as the empty text, and nothing
    in the result tells: no skill, no link, the reason [none], no
    duration, no project, the rigor 20; and when the fuzzy matcher finds
    no issuer in the empty text, the issuer [unknown], the score 16.25
    and the tier 4. *)
Theorem unreadable_file_is_empty_text file_path issuer_db :
  (~ In (lower (splitext_ext file_path)) [".pdf"; ".png"; ".jpg"; ".jpeg"; ".webp"] ->
   analyze_certificate_file splitext_ext extractOne SKILL_TAGS file_path issuer_db
   = Some (inl "Unsupported file format"))
  /\ ((lower (splitext_ext file_path) = ".pdf" /\ fitz_open file_path = None
       \/ In (lower (splitext_ext file_path)) [".png"; ".jpg"; ".jpeg"; ".webp"]
          /\ image_open file_path ≫= ocr_image = None) ->
      analyze_certificate_file splitext_ext extractOne SKILL_TAGS file_path issuer_db
      = (fun a => inr (file_path, a))
          <$> analyze_certificate extractOne SKILL_TAGS EmptyString issuer_db)
  /\ (forall a,
        analyze_certificate extractOne SKILL_TAGS EmptyString issuer_db = Some a ->
        out_skills a = [] /\ out_raw_text_snippet a = EmptyString
        /\ verified (out_features a) = Some false
        /\ verification_reason (out_features a) = Some "none"
        /\ duration_hours (out_features a) = Some (PyInt 0)
        /\ has_project (out_features a) = Some 0%Z
        /\ project_complexity (out_features a) = Some (PyInt 0)
        /\ assessment_rigor (out_features a) = Some (PyInt 20)
        /\ prerequisites_required (out_features a) = Some 0%Z
        /\ (extractOne EmptyString (map fst (db_or_default issuer_db)) 30%Z = None ->
            out_issuer a = "unknown"
            /\ exact (score (out_result a)) = lit 1625 100
            /\ tier (out_result a) = 4%Z)).
Proof.
  split; [|split; [|intros a; apply analyze_empty_text]].
  - intros Hn. unfold analyze_certificate_file. cbv zeta.
    destruct (String.eqb_spec (lower (splitext_ext file_path)) ".pdf") as [E|_];
      [exfalso; apply Hn; rewrite E; simpl; auto|].
    destruct (existsb _ _) eqn:Ex; [|reflexivity].
    exfalso. apply Hn. apply existsb_exists in Ex as (x & Hx & Hex).
    apply String.eqb_eq in Hex. subst x. simpl. auto.
  - intros [[E Ho]|[Hin Ho]]; unfold analyze_certificate_file; cbv zeta.
    + rewrite E. change (String.eqb ".pdf" ".pdf") with true. cbv iota.
      unfold extract_text_from_pdf, extract_text_from_pdf_run. rewrite Ho. cbn [fst].
      destruct (analyze_certificate _ _ _ _); reflexivity.
    + assert (Hp : String.eqb (lower (splitext_ext file_path)) ".pdf" = false).
      { apply String.eqb_neq. intros E. rewrite E in Hin. simpl in Hin.
        destruct Hin as [H1|[H1|[H1|[H1|[]]]]]; discriminate H1. }
      assert (Hx : existsb (String.eqb (lower (splitext_ext file_path)))
                     [".png"; ".jpg"; ".jpeg"; ".webp"] = true).
      { apply existsb_exists. eexists. split; [exact Hin|apply String.eqb_refl]. }
      rewrite Hp, Hx.
      unfold extract_text_from_image, extract_text_from_image_run. rewrite Ho. cbn [fst].
      destruct (analyze_certificate _ _ _ _); reflexivity.
Qed.

End Files.

Example unreadable_file_example :
  @analyze_certificate_file plain_images plain_documents (fun _ => ".PDF")
    (fun _ _ _ => None) ["Python"] "missing.pdf" None
  = (fun a => inr ("missing.pdf", a))
      <$> analyze_certificate (fun _ _ _ => None) ["Python"] EmptyString None
  /\ @analyze_certificate_file plain_images plain_documents (fun _ => ".docx")
       (fun _ _ _ => None) ["Python"] "cv.docx" None
     = Some (inl "Unsupported file format").
Proof. split; vm_compute; reflexivity. Qed.
